(** * Behaviour trees: a shallow embedding of [behaviours/behaviours.py]

    The Python module builds a static tree of [Node]s; every node owns at
    most one live [Behaviour] instance (its [state] attribute), created by
    [Node.enter] and discarded by [Node.exit].  A tick returns the pair
    [(running, success)].

    Conventions of the embedding.
    - A tree is an inductive rose tree: no node is shared between two
      parents, so a reference to a child is its index in [children] and a
      node is addressed by its path from the root.
    - The mutable [state] argument handed to [tick], the position in the
      stream of [random.random()] values and an event trace are threaded
      through every call in a [World].  The trace records the two
      [log.debug] lines of [Node.tick] and, as ghost events, every call of
      [Node.tick], its normal returns, the calls of the user callables, the
      random draws and the calls of [Node.exit] made by [Conditional].
    - A Python exception is the [Raise] outcome; nothing but the
      [try]/[except] of [Do] and [EvalB] catches one. *)

From Stdlib Require Import List Arith ZArith QArith Bool Ascii String Lia.
Import ListNotations.

Set Implicit Arguments.
Set Warnings "-notation-for-abbreviation".
Set Warnings "-register-all".
Local Open Scope bool_scope.
Local Open Scope nat_scope.
Local Open Scope list_scope.

(** ** Outcomes of a call *)

(** The exceptions the engine itself can raise, and [UserError] for whatever
    a user callable raises (a subclass of [Exception]). *)
Inductive Exn : Type :=
| UserError
| KeyError
| IndexError
| AttributeError
| UnboundLocalError.

Inductive outcome (A : Type) : Type :=
| Ret (a : A)
| Raise (e : Exn).

Arguments Ret {A} a.
Arguments Raise {A} e.

(** A node is addressed by the indices of the children on the way down. *)
Definition path := list nat.

(** [(running, success)] *)
Definition status := (bool * bool)%type.

Inductive Event : Type :=
| EvTick (p : path)                          (* Node.tick called *)
| EvEnter (p : path)                         (* log.debug "[ENTER] ..." *)
| EvDraw (p : path)                          (* random.random() called *)
| EvCall (p : path)                          (* kwargs['what'](state) called *)
| EvDeactivate (p : path)                    (* Conditional calls last_run.exit *)
| EvExit (p : path) (success : bool)         (* log.debug "[EXIT] ..." *)
| EvReturn (p : path) (running success : bool). (* Node.tick returned *)

Definition ev_path (e : Event) : path :=
  match e with
  | EvTick p | EvEnter p | EvDraw p | EvCall p | EvDeactivate p
  | EvExit p _ | EvReturn p _ _ => p
  end.

(** The behaviour classes, values of [Node.klass]. *)
Inductive Klass : Type :=
| Do | Run | Repeat | Chance | NotB | Wait | EvalB
| Sequence | Select | UntilB | WhileB | Conditional.

Section Engine.

(** [St] is the caller's [state] object, [Val] the values a callable
    returns, [truthy] is Python's [bool(rv)], and [random k] is the value of
    the [k]-th call of [random.random()]. *)
Variables St Val : Type.
Variable truthy : Val -> bool.
Variable random : nat -> Q.

(** A callable runs on the state, may change it, and returns or raises. *)
Definition Callable := St -> outcome Val * St.

(** The [kwargs] dictionary of a node: the keys the module ever reads. *)
Record Kwargs : Type := mkKwargs {
  what : option Callable;
  threshold : option Q;
  steps : option Z
}.

Definition no_kwargs : Kwargs := mkKwargs None None None.

(** A live behaviour instance with the attributes its [__init__] sets.
    [last_run] of a [Conditional] is a reference to one of the two branch
    nodes: [true] stands for [children[1]], [false] for [children[2]]. *)
Inductive Behaviour : Type :=
| DoB
| RunB (wait : bool) (rv : option Val)
| RepeatB
| ChanceB (success : bool)
| NotBB
| WaitB (count : Z)
| EvalBB
| SequenceB (pointer : nat)
| SelectB (pointer : nat)
| UntilBB
| WhileBB
| ConditionalB (last_run : option bool).

Local Unset Elimination Schemes.
Inductive Node : Type :=
  mkNode (name : string) (klass : Klass) (children : list Node)
         (kwargs : Kwargs) (state : option Behaviour).
Local Set Elimination Schemes.

Definition name (n : Node) := let 'mkNode x _ _ _ _ := n in x.
Definition klass (n : Node) := let 'mkNode _ x _ _ _ := n in x.
Definition children (n : Node) := let 'mkNode _ _ x _ _ := n in x.
Definition kwargs (n : Node) := let 'mkNode _ _ _ x _ := n in x.
Definition state (n : Node) := let 'mkNode _ _ _ _ x := n in x.

Definition set_state (n : Node) (s : option Behaviour) : Node :=
  let 'mkNode nm k cs kw _ := n in mkNode nm k cs kw s.

Record World : Type := mkWorld {
  ustate : St;
  ndraws : nat;
  trace : list Event   (* most recent event first *)
}.

Definition emit (e : Event) (w : World) : World :=
  mkWorld (ustate w) (ndraws w) (e :: trace w).

Definition set_ustate (s : St) (w : World) : World :=
  mkWorld s (ndraws w) (trace w).

(** [kwargs['what'](state)] *)
Definition call_what (p : path) (kw : Kwargs) (w : World) : outcome Val * World :=
  match what kw with
  | None => (Raise KeyError, w)
  | Some f =>
      let w1 := emit (EvCall p) w in
      let '(o, s) := f (ustate w1) in (o, set_ustate s w1)
  end.

(** ** Node.enter and Node.exit *)

(** [self.klass(self)]: the [__init__] of each class. *)
Definition instantiate (p : path) (k : Klass) (kw : Kwargs) (w : World)
  : outcome Behaviour * World :=
  match k with
  | Do => (Ret DoB, w)
  | Run => (Ret (RunB true None), w)
  | Repeat => (Ret RepeatB, w)
  | Chance =>
      let draw := random (ndraws w) in
      let w1 := mkWorld (ustate w) (S (ndraws w)) (EvDraw p :: trace w) in
      match threshold kw with
      | None => (Raise KeyError, w1)
      | Some t => (Ret (ChanceB (Qle_bool draw t)), w1)
      end
  | NotB => (Ret NotBB, w)
  | Wait =>
      match steps kw with
      | None => (Raise KeyError, w)
      | Some n => (Ret (WaitB n), w)
      end
  | EvalB => (Ret EvalBB, w)
  | Sequence => (Ret (SequenceB 0), w)
  | Select => (Ret (SelectB 0), w)
  | UntilB => (Ret UntilBB, w)
  | WhileB => (Ret WhileBB, w)
  | Conditional => (Ret (ConditionalB None), w)
  end.

(** [Node.enter]: the instance that becomes [self.state]. *)
Definition Node_enter (p : path) (n : Node) (w : World) : outcome Behaviour * World :=
  instantiate p (klass n) (kwargs n) w.

(** The first lines of [Node.tick]: the instance that is going to tick, the
    live one or, after the [ENTER] log line, the one [Node.enter] makes. *)
Definition instance (p : path) (n : Node) (w : World) : outcome Behaviour * World :=
  match state n with
  | Some b => (Ret b, w)
  | None => Node_enter p n (emit (EvEnter p) w)
  end.

(** [self.state.exit(state); self.state = None]: no class overrides
    [Behaviour.exit], which does nothing; on a node without an instance the
    attribute lookup on [None] raises. *)
Definition Node_exit (n : Node) : outcome Node :=
  match state n with
  | None => Raise AttributeError
  | Some _ => Ret (set_state n None)
  end.

(** ** The tick of every behaviour class

    Each function takes the instance attributes it reads, the children of
    the owning node and the world, and returns the outcome with the updated
    attributes, children and world.  [tick] is [Node.tick] on a child. *)
Section Behaviours.

Variable tick : path -> Node -> World -> outcome status * Node * World.

(** [self.node.children[0].tick(state)] *)
Definition tick_first (p : path) (cs : list Node) (w : World)
  : outcome status * list Node * World :=
  match cs with
  | [] => (Raise IndexError, cs, w)
  | c :: rest => let '(r, c', w1) := tick (p ++ [0]) c w in (r, c' :: rest, w1)
  end.

Definition Do_tick (p : path) (kw : Kwargs) (w : World) : outcome status * World :=
  let '(o, w1) := call_what p kw w in
  match o with
  | Raise _ => (Ret (false, false), w1)
  | Ret _ => (Ret (false, true), w1)
  end.

Definition Run_tick (p : path) (kw : Kwargs) (wait : bool) (rv : option Val) (w : World)
  : outcome status * (bool * option Val) * World :=
  if wait then
    let '(o, w1) := call_what p kw w in
    match o with
    | Raise e => (Raise e, (wait, rv), w1)
    | Ret v => (Ret (true, true), (false, Some v), w1)
    end
  else (Ret (false, true), (wait, rv), w).

Definition Repeat_tick (p : path) (cs : list Node) (w : World)
  : outcome status * list Node * World :=
  let '(r, cs1, w1) := tick_first p cs w in
  match r with
  | Raise e => (Raise e, cs1, w1)
  | Ret (running, success) =>
      if negb running && negb success then (Ret (false, false), cs1, w1)
      else (Ret (true, true), cs1, w1)
  end.

Definition Chance_tick (p : path) (success : bool) (cs : list Node) (w : World)
  : outcome status * list Node * World :=
  if negb success then (Ret (false, false), cs, w)
  else tick_first p cs w.

Definition NotB_tick (p : path) (cs : list Node) (w : World)
  : outcome status * list Node * World :=
  let '(r, cs1, w1) := tick_first p cs w in
  match r with
  | Raise e => (Raise e, cs1, w1)
  | Ret (running, success) =>
      if running then (Ret (true, true), cs1, w1)
      else (Ret (false, negb success), cs1, w1)
  end.

Definition Wait_tick (count : Z) : outcome status * Z :=
  if (count <=? 0)%Z then (Ret (false, true), count)
  else (Ret (true, true), (count - 1)%Z).

Definition EvalB_tick (p : path) (kw : Kwargs) (w : World) : outcome status * World :=
  let '(o, w1) := call_what p kw w in
  match o with
  | Raise _ => (Ret (false, false), w1)
  | Ret rv => (Ret (false, truthy rv), w1)
  end.

(** The [while] loop of [Sequence.tick], walking the children once: [i] is
    the index of the head of [cs]; the children before [pointer] are
    passed over, the local variable [success] is unbound ([None]) until a
    child has been ticked. *)
Fixpoint Sequence_loop (p : path) (i pointer : nat) (success : option bool)
    (cs : list Node) (w : World) {struct cs}
  : outcome status * nat * list Node * World :=
  match cs with
  | [] =>
      (match success with
       | Some s => Ret (false, s)
       | None => Raise UnboundLocalError
       end, pointer, [], w)
  | c :: rest =>
      if i <? pointer then
        let '(r, ptr, rest1, w1) := Sequence_loop p (S i) pointer success rest w in
        (r, ptr, c :: rest1, w1)
      else
        let '(r, c1, w1) := tick (p ++ [i]) c w in
        match r with
        | Raise e => (Raise e, pointer, c1 :: rest, w1)
        | Ret (running, s) =>
            if running then (Ret (true, s), pointer, c1 :: rest, w1)
            else if negb s then (Ret (false, false), pointer, c1 :: rest, w1)
            else
              let '(r2, ptr, rest1, w2) :=
                Sequence_loop p (S i) (S pointer) (Some s) rest w1 in
              (r2, ptr, c1 :: rest1, w2)
        end
  end.

Definition Sequence_tick (p : path) (pointer : nat) (cs : list Node) (w : World) :=
  Sequence_loop p 0 pointer None cs w.

Fixpoint Select_loop (p : path) (i pointer : nat) (success : option bool)
    (cs : list Node) (w : World) {struct cs}
  : outcome status * nat * list Node * World :=
  match cs with
  | [] =>
      (match success with
       | Some s => Ret (false, s)
       | None => Raise UnboundLocalError
       end, pointer, [], w)
  | c :: rest =>
      if i <? pointer then
        let '(r, ptr, rest1, w1) := Select_loop p (S i) pointer success rest w in
        (r, ptr, c :: rest1, w1)
      else
        let '(r, c1, w1) := tick (p ++ [i]) c w in
        match r with
        | Raise e => (Raise e, pointer, c1 :: rest, w1)
        | Ret (running, s) =>
            if running then (Ret (true, s), pointer, c1 :: rest, w1)
            else if s then (Ret (false, true), pointer, c1 :: rest, w1)
            else
              let '(r2, ptr, rest1, w2) :=
                Select_loop p (S i) (S pointer) (Some s) rest w1 in
              (r2, ptr, c1 :: rest1, w2)
        end
  end.

Definition Select_tick (p : path) (pointer : nat) (cs : list Node) (w : World) :=
  Select_loop p 0 pointer None cs w.

(** The [for] loop of [UntilB.tick]; [ex] is the local [exit]. *)
Fixpoint UntilB_loop (p : path) (i : nat) (ex : bool) (cs : list Node) (w : World)
    {struct cs} : outcome bool * list Node * World :=
  match cs with
  | [] => (Ret ex, [], w)
  | c :: rest =>
      let '(r, c1, w1) := tick (p ++ [i]) c w in
      match r with
      | Raise e => (Raise e, c1 :: rest, w1)
      | Ret (running, success) =>
          let ex1 := if negb running then ex || success else ex in
          let '(r2, rest1, w2) := UntilB_loop p (S i) ex1 rest w1 in
          (r2, c1 :: rest1, w2)
      end
  end.

Definition UntilB_tick (p : path) (cs : list Node) (w : World)
  : outcome status * list Node * World :=
  let '(r, cs1, w1) := UntilB_loop p 0 false cs w in
  match r with
  | Raise e => (Raise e, cs1, w1)
  | Ret ex => if ex then (Ret (false, true), cs1, w1) else (Ret (true, true), cs1, w1)
  end.

(** The [for] loop of [WhileB.tick]; [rep] is the local [repeat]. *)
Fixpoint WhileB_loop (p : path) (i : nat) (rep : bool) (cs : list Node) (w : World)
    {struct cs} : outcome bool * list Node * World :=
  match cs with
  | [] => (Ret rep, [], w)
  | c :: rest =>
      let '(r, c1, w1) := tick (p ++ [i]) c w in
      match r with
      | Raise e => (Raise e, c1 :: rest, w1)
      | Ret (running, success) =>
          let rep1 := if negb running then rep && success else rep in
          let '(r2, rest1, w2) := WhileB_loop p (S i) rep1 rest w1 in
          (r2, c1 :: rest1, w2)
      end
  end.

Definition WhileB_tick (p : path) (cs : list Node) (w : World)
  : outcome status * list Node * World :=
  let '(r, cs1, w1) := WhileB_loop p 0 true cs w in
  match r with
  | Raise e => (Raise e, cs1, w1)
  | Ret rep => if rep then (Ret (true, true), cs1, w1) else (Ret (false, true), cs1, w1)
  end.

(** Index in [children] of the branch a [last_run] reference stands for. *)
Definition branch_index (b : bool) : nat := if b then 1 else 2.

(** The block [if selected != self.last_run: ...] of [Conditional.tick].
    When the two differ and [last_run] is set, [last_run] is the branch that
    is not selected, here [other] ([None] if the node has no such child). *)
Definition Conditional_switch (p : path) (last_run : option bool) (selected : bool)
    (other : option Node) (w : World)
  : outcome (option Node) * option bool * World :=
  match last_run with
  | None => (Ret other, Some selected, w)
  | Some b =>
      if Bool.eqb selected b then (Ret other, last_run, w)
      else
        let w1 := emit (EvDeactivate (p ++ [branch_index b])) w in
        match other with
        | None => (Raise IndexError, last_run, w1)
        | Some c =>
            match Node_exit c with
            | Ret c' => (Ret (Some c'), Some selected, w1)
            | Raise e => (Raise e, last_run, w1)
            end
        end
  end.

(** Write a node back as the head of a list of children. *)
Definition put_head (o : option Node) (l : list Node) : list Node :=
  match o, l with
  | Some c, _ :: t => c :: t
  | _, _ => l
  end.

Definition Conditional_tick (p : path) (last_run : option bool) (cs : list Node)
    (w : World) : outcome status * option bool * list Node * World :=
  match cs with
  | [] => (Raise IndexError, last_run, cs, w)
  | c0 :: rest =>
      let '(r, c0', w1) := tick (p ++ [0]) c0 w in
      match r with
      | Raise e => (Raise e, last_run, c0' :: rest, w1)
      | Ret (running, success) =>
          if running then (Ret (true, true), last_run, c0' :: rest, w1)
          else if success then
            match rest with
            | c1 :: rest2 =>
                let '(r2, lr, w2) :=
                  Conditional_switch p last_run true (hd_error rest2) w1 in
                match r2 with
                | Raise e => (Raise e, lr, c0' :: c1 :: rest2, w2)
                | Ret o2 =>
                    let '(r3, c1', w3) := tick (p ++ [1]) c1 w2 in
                    (r3, lr, c0' :: c1' :: put_head o2 rest2, w3)
                end
            | [] => (Raise IndexError, last_run, c0' :: rest, w1)
            end
          else
            match rest with
            | c1 :: c2 :: rest3 =>
                let '(r2, lr, w2) :=
                  Conditional_switch p last_run false (Some c1) w1 in
                match r2 with
                | Raise e => (Raise e, lr, c0' :: c1 :: c2 :: rest3, w2)
                | Ret o1 =>
                    let '(r3, c2', w3) := tick (p ++ [2]) c2 w2 in
                    (r3, lr, c0' :: put_head o1 [c1] ++ c2' :: rest3, w3)
                end
            | _ => (Raise IndexError, last_run, c0' :: rest, w1)
            end
      end
  end.

(** [self.state.tick(state)]: the method of the instance's class. *)
Definition Behaviour_tick (p : path) (kw : Kwargs) (b : Behaviour) (cs : list Node)
    (w : World) : outcome status * Behaviour * list Node * World :=
  match b with
  | DoB => let '(r, w1) := Do_tick p kw w in (r, DoB, cs, w1)
  | RunB wait rv =>
      let '(r, (wait1, rv1), w1) := Run_tick p kw wait rv w in
      (r, RunB wait1 rv1, cs, w1)
  | RepeatB => let '(r, cs1, w1) := Repeat_tick p cs w in (r, RepeatB, cs1, w1)
  | ChanceB success =>
      let '(r, cs1, w1) := Chance_tick p success cs w in (r, ChanceB success, cs1, w1)
  | NotBB => let '(r, cs1, w1) := NotB_tick p cs w in (r, NotBB, cs1, w1)
  | WaitB count => let '(r, count1) := Wait_tick count in (r, WaitB count1, cs, w)
  | EvalBB => let '(r, w1) := EvalB_tick p kw w in (r, EvalBB, cs, w1)
  | SequenceB pointer =>
      let '(r, ptr, cs1, w1) := Sequence_tick p pointer cs w in (r, SequenceB ptr, cs1, w1)
  | SelectB pointer =>
      let '(r, ptr, cs1, w1) := Select_tick p pointer cs w in (r, SelectB ptr, cs1, w1)
  | UntilBB => let '(r, cs1, w1) := UntilB_tick p cs w in (r, UntilBB, cs1, w1)
  | WhileBB => let '(r, cs1, w1) := WhileB_tick p cs w in (r, WhileBB, cs1, w1)
  | ConditionalB last_run =>
      let '(r, lr, cs1, w1) := Conditional_tick p last_run cs w in
      (r, ConditionalB lr, cs1, w1)
  end.

(** The body of [Node.tick]. *)
Definition Node_tick_body (p : path) (n : Node) (w : World)
  : outcome status * Node * World :=
  match n with
  | mkNode nm k cs kw st =>
      let '(ob, w1) := instance p (mkNode nm k cs kw st) (emit (EvTick p) w) in
      match ob with
      | Raise e => (Raise e, mkNode nm k cs kw None, w1)
      | Ret b =>
          let '(r, b1, cs1, w2) := Behaviour_tick p kw b cs w1 in
          match r with
          | Raise e => (Raise e, mkNode nm k cs1 kw (Some b1), w2)
          | Ret (running, success) =>
              if running then
                (Ret (running, success), mkNode nm k cs1 kw (Some b1),
                 emit (EvReturn p running success) w2)
              else
                let w3 := emit (EvExit p success) w2 in
                match Node_exit (mkNode nm k cs1 kw (Some b1)) with
                | Raise e => (Raise e, mkNode nm k cs1 kw (Some b1), w3)
                | Ret n1 => (Ret (running, success), n1,
                             emit (EvReturn p running success) w3)
                end
          end
      end
  end.

End Behaviours.

(** [Node.tick]: the recursion goes through the children of the node. *)
Fixpoint Node_tick (p : path) (n : Node) (w : World) {struct n}
  : outcome status * Node * World :=
  Node_tick_body Node_tick p n w.

(** ** The builder functions *)

(** [Node.__init__] leaves [state] at [None]; the [parent] back-reference
    only feeds [fullname], the text of the log lines, and is the path here. *)
Definition do (name : string) (f : Callable) : Node :=
  mkNode name Do [] (mkKwargs (Some f) None None) None.

Definition run (name : string) (f : Callable) : Node :=
  mkNode name Run [] (mkKwargs (Some f) None None) None.

Definition repeat (c : Node) : Node :=
  mkNode "repeat" Repeat [c] no_kwargs None.

(** The Python name also shows the threshold, formatted with two decimals. *)
Definition chance (t : Q) (c : Node) : Node :=
  mkNode "chance" Chance [c] (mkKwargs None (Some t) None) None.

Definition notb (c : Node) : Node :=
  mkNode "not" NotB [c] no_kwargs None.

(** The Python name also shows the number of steps. *)
Definition wait (n : Z) : Node :=
  mkNode "wait" Wait [] (mkKwargs None None (Some n)) None.

Definition evalb (name : string) (f : Callable) : Node :=
  mkNode name EvalB [] (mkKwargs (Some f) None None) None.

Definition sequence (name : string) (cs : list Node) : Node :=
  mkNode name Sequence cs no_kwargs None.

Definition select (name : string) (cs : list Node) : Node :=
  mkNode name Select cs no_kwargs None.

Definition untilb (name : string) (cs : list Node) : Node :=
  mkNode name UntilB cs no_kwargs None.

Definition whileb (name : string) (cs : list Node) : Node :=
  mkNode name WhileB cs no_kwargs None.

Definition conditional (name : string) (condition true false : Node) : Node :=
  mkNode name Conditional [condition; true; false] no_kwargs None.

(** ** Driving a tree

    The caller ticks the root once per cycle, each time with the state it
    chooses; an exception ends that call only. *)
Definition tick_root (n : Node) (s : St) (w : World) : outcome status * Node * World :=
  Node_tick [] n (set_ustate s w).

Fixpoint run_ticks (n : Node) (w : World) (inputs : list St)
  : list (outcome status) * Node * World :=
  match inputs with
  | [] => ([], n, w)
  | s :: rest =>
      let '(r, n1, w1) := tick_root n s w in
      let '(rs, n2, w2) := run_ticks n1 w1 rest in
      (r :: rs, n2, w2)
  end.

End Engine.

(** ** Reading the trace *)

(** [child_of p x] is [Some i] when [x] is the path of the child [i] of the
    node at [p]. *)
Fixpoint child_of (p x : path) : option nat :=
  match p, x with
  | [], [i] => Some i
  | a :: p1, b :: x1 => if Nat.eqb a b then child_of p1 x1 else None
  | _, _ => None
  end.

Definition path_eqb (x y : path) : bool :=
  if list_eq_dec Nat.eq_dec x y then true else false.

(** The events of [tr] that [f] selects, oldest first. *)
Fixpoint pick (A : Type) (f : Event -> option A) (tr : list Event) : list A :=
  match tr with
  | [] => []
  | e :: t =>
      match f e with
      | Some a => pick f t ++ [a]
      | None => pick f t
      end
  end.

(** Calls of [Node.tick] on the children of the node at [p]. *)
Definition tick_of (p : path) (e : Event) : option nat :=
  match e with
  | EvTick x => child_of p x
  | _ => None
  end.

(** Normal returns of [Node.tick] on the children of the node at [p]. *)
Definition return_of (p : path) (e : Event) : option (nat * status) :=
  match e with
  | EvReturn x r s =>
      match child_of p x with
      | Some i => Some (i, (r, s))
      | None => None
      end
  | _ => None
  end.

(** Calls of [Node.exit] that the node at [p] makes on its children. *)
Definition deactivate_of (p : path) (e : Event) : option nat :=
  match e with
  | EvDeactivate x => child_of p x
  | _ => None
  end.

Definition draw_at (p : path) (e : Event) : option unit :=
  match e with
  | EvDraw x => if path_eqb x p then Some tt else None
  | _ => None
  end.

Definition call_at (p : path) (e : Event) : option unit :=
  match e with
  | EvCall x => if path_eqb x p then Some tt else None
  | _ => None
  end.

Definition enter_at (p : path) (e : Event) : option unit :=
  match e with
  | EvEnter x => if path_eqb x p then Some tt else None
  | _ => None
  end.

(** What last happened to the activation of the node at [p]: its tick
    returned with this [running], or a [Conditional] deactivated it. *)
Inductive Life : Type :=
| Returned (running : bool)
| Deactivated.

Fixpoint life (p : path) (tr : list Event) : option Life :=
  match tr with
  | [] => None
  | EvReturn x r _ :: t => if path_eqb x p then Some (Returned r) else life p t
  | EvDeactivate x :: t => if path_eqb x p then Some Deactivated else life p t
  | _ :: t => life p t
  end.

(** [running] of the most recent completed tick of the node at [p]. *)
Fixpoint last_return (p : path) (tr : list Event) : option bool :=
  match tr with
  | [] => None
  | EvReturn x r _ :: t => if path_eqb x p then Some r else last_return p t
  | _ :: t => last_return p t
  end.

(** Paths at or under [p], and strictly under [p]. *)
Definition within (p x : path) : Prop := exists r, x = p ++ r.
Definition below (p x : path) : Prop := exists j r, x = p ++ j :: r.

(** The events between the call of [Node.tick] on the node at [p] and its
    return: the node's own log lines, draws and calls, and whatever concerns
    the nodes under it. *)
Definition interior (p : path) (e : Event) : Prop :=
  match e with
  | EvEnter x | EvDraw x | EvCall x | EvExit x _ => within p x
  | EvTick x | EvReturn x _ _ | EvDeactivate x => below p x
  end.

Definition ret_events (p : path) (o : outcome status) : list Event :=
  match o with
  | Ret (r, s) => [EvReturn p r s]
  | Raise _ => []
  end.

(** The last events of a tick of the node at [p]: the [EXIT] log line when
    the instance finished, and the return. *)
Definition post_events (p : path) (o : outcome status) : list Event :=
  match o with
  | Ret (true, s) => [EvReturn p true s]
  | Ret (false, s) => [EvReturn p false s; EvExit p s]
  | Raise _ => []
  end.

Definition is_ret (A : Type) (o : outcome A) : Prop :=
  match o with
  | Ret _ => True
  | Raise _ => False
  end.

(** The trace of the ticks of some children of the node at [p], one
    segment per entry of [log] (child index and outcome, oldest first). *)
Fixpoint segs (p : path) (log : list (nat * outcome status)) (ev : list Event) : Prop :=
  match log with
  | [] => ev = []
  | (i, r) :: log1 =>
      exists mid rest,
        Forall (interior (p ++ [i])) mid /\ segs p log1 rest /\
        ev = rest ++ ret_events (p ++ [i]) r ++ mid ++ [EvTick (p ++ [i])]
  end.

(** The branch the condition of a Conditional at [p] selected in the events
    [ev] of one tick ([true] for [children[1]]), if the condition finished. *)
Definition selected_branch (p : path) (ev : list Event) : option bool :=
  match hd_error (pick (return_of p) ev) with
  | Some (0, (false, s)) => Some s
  | _ => None
  end.

Section Observations.
Variables St Val : Type.

(** The events a call added to the trace, most recent first. *)
Definition new_events (w w1 : World St) : list Event :=
  firstn (List.length (trace w1) - List.length (trace w)) (trace w1).

(** The node at the end of a path. *)
Fixpoint subnode (q : path) (n : Node St Val) : option (Node St Val) :=
  match q with
  | [] => Some n
  | i :: q1 =>
      match nth_error (children n) i with
      | Some c => subnode q1 c
      | None => None
      end
  end.

Definition active (n : Node St Val) : bool :=
  match state n with
  | Some _ => true
  | None => false
  end.

(** A tree none of whose nodes has been entered. *)
Fixpoint idle (n : Node St Val) : bool :=
  match n with
  | mkNode _ _ cs _ None => forallb idle cs
  | mkNode _ _ _ _ (Some _) => false
  end.

(** The class of an instance; [Node.enter] makes an instance of
    [self.klass], so a live instance has the class of its node. *)
Definition class_of (b : Behaviour Val) : Klass :=
  match b with
  | DoB _ => Do
  | RunB _ _ => Run
  | RepeatB _ => Repeat
  | ChanceB _ _ => Chance
  | NotBB _ => NotB
  | WaitB _ _ => Wait
  | EvalBB _ => EvalB
  | SequenceB _ _ => Sequence
  | SelectB _ _ => Select
  | UntilBB _ => UntilB
  | WhileBB _ => WhileB
  | ConditionalB _ _ => Conditional
  end.

Definition well_typed (n : Node St Val) : Prop :=
  match state n with
  | Some b => class_of b = klass n
  | None => True
  end.

(** A child that this cycle finished with failure. *)
Definition child_failed (x : nat * status) : bool :=
  match snd x with
  | (false, false) => true
  | _ => false
  end.

(** The pointer a tick of a Sequence or Select node starts from: that of
    the live instance, or the 0 of a new one. *)
Definition pointer_of (n : Node St Val) : nat :=
  match state n with
  | Some (SequenceB _ q) | Some (SelectB _ q) => q
  | _ => 0
  end.

(** Children [ptr], ..., [ptr + k - 1] finished with success. *)
Definition passed (ptr k : nat) : list (nat * status) :=
  map (fun j => (j, (false, true))) (seq ptr k).

(** The branch a Conditional node selected last in its activation. *)
Definition last_run_of (n : Node St Val) : option bool :=
  match state n with
  | Some (ConditionalB _ lr) => lr
  | _ => None
  end.

(** The claim about activations, read on a tree and a trace: a node has an
    instance exactly when its most recent completed tick returned
    [running = true]. *)
Definition active_iff_last_tick_running (root : Node St Val) (tr : list Event) : Prop :=
  forall q m, subnode q root = Some m ->
    (active m = true <-> last_return q tr = Some true).

(** The same with the deactivations counted: the node under [n] at [q],
    [n] being at [p], has an instance exactly when the last thing that
    happened to it is a tick that returned [running = true]. *)
Definition activation_follows (p : path) (n : Node St Val) (tr : list Event) : Prop :=
  forall q m, subnode q n = Some m ->
    (active m = true <-> life (p ++ q) tr = Some (Returned true)).

(** The claim about the branches of a Conditional, read on two consecutive
    ticks of the root [n]: when both select a branch and the second selects
    another one than the first, the second calls [Node.exit] once, on the
    branch of the first. *)
Definition deactivated_on_branch_change (truthy : Val -> bool) (random : nat -> Q)
    (n : Node St Val) (w : World St) (s1 s2 : St) : Prop :=
  let x1 := tick_root truthy random n s1 w in
  let x2 := tick_root truthy random (snd (fst x1)) s2 (snd x1) in
  forall b1 b2,
    selected_branch [] (new_events w (snd x1)) = Some b1 ->
    selected_branch [] (new_events (snd x1) (snd x2)) = Some b2 ->
    b1 <> b2 ->
    pick (deactivate_of []) (new_events (snd x1) (snd x2)) = [branch_index b1].

End Observations.

(** ** Terms of the statements and of their proofs *)
Section Terms.
Variables St Val : Type.
Variable truthy : Val -> bool.
Variable random : nat -> Q.

Local Notation Node := (Node St Val).
Local Notation World := (World St).
Local Notation Node_tick := (Node_tick truthy random).

(** The three parts of what [run_ticks] returns. *)
Definition results (x : list (outcome status) * Node * World) : list (outcome status) :=
  fst (fst x).

Definition node_after (x : list (outcome status) * Node * World) : Node := snd (fst x).
Definition world_after (x : list (outcome status) * Node * World) : World := snd x.

(** A tick that returns running = true returns success = true. *)
Definition running_implies_success (o : outcome status) : Prop :=
  forall s, o = Ret (true, s) -> s = true.

(** What a tick of a waiting Run node returns when the effect does [o]. *)
Definition run_outcome (o : outcome Val) : outcome status :=
  match o with
  | Raise e => Raise e
  | Ret _ => Ret (true, true)
  end.

(** The node [run(nm, f)] with the instance [st]. *)
Definition run_node (nm : string) (f : Callable St Val)
    (st : option (Behaviour Val)) : Node :=
  mkNode nm Run [] (mkKwargs (Some f) None None) st.

(** The flag [self.success] a tick of a Chance node works with: that of the
    live instance, or the one the draw of a new activation fixes. *)
Definition success_allowed (t : Q) (n : Node) (w : World) : bool :=
  match state n with
  | Some (ChanceB _ s) => s
  | _ => Qle_bool (random (ndraws w)) t
  end.

(** The events of the block [if selected != self.last_run]. *)
Definition switch_events (p : path) (lr : option bool) (sel : bool) : list Event :=
  match lr with
  | Some b => if Bool.eqb sel b then [] else [EvDeactivate (p ++ [branch_index b])]
  | None => []
  end.

(** An event of the node at [p] itself. *)
Definition own (p : path) (e : Event) : Prop := ev_path e = p.

(** The trace between the call and the return of a tick at [p]. *)
Definition trace_ok (p : path) (w : World) (x : outcome status * Node * World) : Prop :=
  exists mid,
    trace (snd x) = ret_events p (fst (fst x)) ++ mid ++ EvTick p :: trace w /\
    Forall (interior p) mid.

(** [w1] is [w] after some events, all interior to the node at [p]. *)
Definition extends (p : path) (w w1 : World) : Prop :=
  exists ev, trace w1 = ev ++ trace w /\ Forall (interior p) ev.

(** [w1] is [w] after events that all concern the child [k] of the node at
    [p] or the nodes under it. *)
Definition child_events (p : path) (k : nat) (w w1 : World) : Prop :=
  exists ev, trace w1 = ev ++ trace w /\
    Forall (fun e => within (p ++ [k]) (ev_path e)) ev.

(** A log of child ticks, oldest first: the index of the child and the
    outcome of its tick. *)
Definition log_ok (A : Type) (o : outcome A) (log : list (nat * outcome status)) : Prop :=
  is_ret o -> Forall (fun x => is_ret (snd x)) log.

(** The returns recorded in a log of child ticks. *)
Definition log_returns (log : list (nat * outcome status)) : list (nat * status) :=
  flat_map (fun x => match snd x with
                     | Ret rs => [(fst x, rs)]
                     | Raise _ => []
                     end) log.

(** A child that finished with failure. *)
Definition failed (x : nat * outcome status) : bool :=
  match snd x with
  | Ret (false, false) => true
  | _ => false
  end.

(** A child that finished with success. *)
Definition succeeded (x : nat * outcome status) : bool :=
  match snd x with
  | Ret (false, true) => true
  | _ => false
  end.

(** The log of the children [ptr], ..., [ptr + k - 1] finishing with success. *)
Definition passed_log (ptr k : nat) : list (nat * outcome status) :=
  map (fun j => (j, Ret (false, true))) (seq ptr k).

(** The invariant on the children of the node at [p], the head of the list
    being the child of index [i]. *)
Definition children_follow (p : path) (i : nat) (cs : list Node) (tr : list Event) : Prop :=
  forall j c, nth_error cs j = Some c -> activation_follows (p ++ [i + j]) c tr.

(** A tick of [c] that returns keeps its activations in step with the trace. *)
Definition preserves (c : Node) : Prop :=
  forall q w rs c1 w1,
    Node_tick q c w = (Ret rs, c1, w1) ->
    activation_follows q c (trace w) -> activation_follows q c1 (trace w1).

Section ChildTickTerms.
Variable tick : path -> Node -> World -> outcome status * Node * World.

(** One pass over the children of the node at [p], from index [i]: some are
    ticked, in the order of the list, the others are left as they are. *)
Inductive ticks_some (p : path)
  : nat -> list Node -> World -> list (nat * outcome status) -> list Node -> World -> Prop :=
| ts_stop i cs w : ticks_some p i cs w [] cs w
| ts_skip i c rest w log rest1 w1 :
    ticks_some p (S i) rest w log rest1 w1 ->
    ticks_some p i (c :: rest) w log (c :: rest1) w1
| ts_tick i c rest w r c1 w1 log rest1 w2 :
    tick (p ++ [i]) c w = (r, c1, w1) ->
    ticks_some p (S i) rest w1 log rest1 w2 ->
    ticks_some p i (c :: rest) w ((i, r) :: log) (c1 :: rest1) w2.

Definition children_trace_ok (cs : list Node) : Prop :=
  Forall (fun c => forall p w, trace_ok p w (tick p c w)) cs.

Definition children_ok (cs : list Node) : Prop :=
  Forall (fun c => forall p w, running_implies_success (fst (fst (tick p c w)))) cs.

End ChildTickTerms.

End Terms.

(** ** Terms of further statements *)
Section MoreTerms.
Variables St Val : Type.

Local Notation Node := (Node St Val).
Local Notation World := (World St).

(** Two worlds with the same state and the same position in the random
    stream; their traces may differ. *)
Definition agree (w1 w2 : World) : Prop :=
  ustate w1 = ustate w2 /\ ndraws w1 = ndraws w2.

(** Two calls that return the same and leave worlds that agree. *)
Definition same_effect (A : Type) (x y : A * World) : Prop :=
  fst x = fst y /\ agree (snd x) (snd y).

(** A child that this cycle finished with success. *)
Definition child_succeeded (x : nat * status) : bool :=
  match snd x with
  | (false, true) => true
  | _ => false
  end.

(** Children [ptr], ..., [ptr + k - 1] finished with failure. *)
Definition rejected (ptr k : nat) : list (nat * status) :=
  map (fun j => (j, (false, false))) (seq ptr k).

(** The log of the children [ptr], ..., [ptr + k - 1] finishing with failure. *)
Definition rejected_log (ptr k : nat) : list (nat * outcome status) :=
  map (fun j => (j, Ret (false, false))) (seq ptr k).

(** The ticks of the children do not depend on the path or on the trace. *)
Definition children_agree
    (tick : path -> Node -> World -> outcome status * Node * World)
    (cs : list Node) : Prop :=
  Forall (fun c => forall p q w1 w2, agree w1 w2 ->
                     same_effect (tick p c w1) (tick q c w2)) cs.

(** What [NotB.tick] makes of the outcome of its child. *)
Definition negated (o : outcome status) : outcome status :=
  match o with
  | Ret (true, _) => Ret (true, true)
  | Ret (false, s) => Ret (false, negb s)
  | Raise e => Raise e
  end.

(** A node as [notb] builds it, with the instance [st]. *)
Definition notb_node (nm : string) (kw : Kwargs St Val) (st : option (Behaviour Val))
    (c : Node) : Node :=
  mkNode nm NotB [c] kw st.

(** A callable that returns on every state. *)
Definition never_raises (f : Callable St Val) : Prop :=
  forall s, is_ret (fst (f s)).

(** What the class of a node reads of its [kwargs] and of its [children]:
    the keys are there, the children it indexes exist, a Sequence or a
    Select has a child to tick, and the effect of a Run node, which nothing
    guards, returns. *)
Definition sound_here (k : Klass) (arity : nat) (kw : Kwargs St Val) : Prop :=
  match k with
  | Do | EvalB | UntilB | WhileB => True
  | Run => exists f, what kw = Some f /\ never_raises f
  | Repeat | NotB => 1 <= arity
  | Chance => 1 <= arity /\ threshold kw <> None
  | Wait => steps kw <> None
  | Sequence | Select => 1 <= arity
  | Conditional => 3 <= arity
  end.

(** What holds of a live instance between two ticks: it is of the class of
    its node, the pointer of a Sequence or Select is on a child, and the
    branch a Conditional ran last has an instance. *)
Definition sound_instance (k : Klass) (cs : list Node) (b : Behaviour Val) : Prop :=
  class_of b = k /\
  match b with
  | SequenceB _ q | SelectB _ q => q < List.length cs
  | ConditionalB _ (Some x) =>
      exists c, nth_error cs (branch_index x) = Some c /\ active c = true
  | _ => True
  end.

(** A tree all of whose nodes are sound. *)
Fixpoint sound (n : Node) : Prop :=
  match n with
  | mkNode _ k cs kw st =>
      sound_here k (List.length cs) kw /\
      match st with
      | Some b => sound_instance k cs b
      | None => True
      end /\
      (fix all (l : list Node) : Prop :=
         match l with
         | [] => True
         | c :: t => sound c /\ all t
         end) cs
  end.

(** The ticks of the children return and leave them sound, with an
    instance exactly when they are running. *)
Definition children_return
    (tick : path -> Node -> World -> outcome status * Node * World)
    (cs : list Node) : Prop :=
  Forall (fun c => forall p w, exists rs c1 w1,
                     tick p c w = (Ret rs, c1, w1) /\ sound c1 /\ active c1 = fst rs) cs.

(** What [Do.tick] and [EvalB.tick] make of the outcome of the callable:
    the success they report. *)
Definition leaf_success (truthy : Val -> bool) (k : Klass) (o : outcome Val) : bool :=
  match o with
  | Raise _ => false
  | Ret v =>
      match k with
      | EvalB => truthy v
      | _ => true
      end
  end.

(** The states of the ticks 1, 3, 5, ... of a run of ticks. *)
Fixpoint odd_ticks (A : Type) (l : list A) : list A :=
  match l with
  | [] => []
  | [a] => [a]
  | a :: _ :: t => a :: odd_ticks t
  end.

(** The results of the ticks of a Run node whose effect returns: running
    and finished in turn. *)
Definition in_turn (k : nat) : list (outcome status) :=
  map (fun i => Ret (Nat.even i, true)) (seq 0 k).

(** The results of one count-down of [wait c]. *)
Definition count_down (c : Z) : list (outcome status) :=
  List.repeat (Ret (true, true)) (Z.to_nat c) ++ [Ret (false, true)].

(** The [EXIT] log lines of the node at [p], with the success they show. *)
Definition exit_at (p : path) (e : Event) : option bool :=
  match e with
  | EvExit x s => if path_eqb x p then Some s else None
  | _ => None
  end.

(** An event of the tick of a behaviour at [p]: a call of the callable, a
    deactivation, or an event of the tick of a child. *)
Definition inner (p : path) (e : Event) : Prop :=
  e = EvCall p \/ (exists x, e = EvDeactivate x) \/
  exists k, within (p ++ [k]) (ev_path e).

Definition inwardly (p : path) (w w1 : World) : Prop :=
  exists ev, trace w1 = ev ++ trace w /\ Forall (inner p) ev.

(** The world in which a tick of a Chance node ticks its child: the given
    one, after the draw when the tick starts a new activation. *)
Definition after_draw (n : Node) (w : World) : World :=
  if active n then w else mkWorld (ustate w) (S (ndraws w)) (trace w).

(** [name.replace(" ", "_")] *)
Fixpoint underscored (s : string) : string :=
  match s with
  | EmptyString => EmptyString
  | String a r => String (if Ascii.eqb a " " then "_"%char else a) (underscored r)
  end.

(** A text without a space. *)
Fixpoint spaceless (s : string) : bool :=
  match s with
  | EmptyString => true
  | String a r => negb (Ascii.eqb a " ") && spaceless r
  end.

(** [Node.fullname] of the node at the end of a path from [root], the
    [parent] of [root] being [None].  The path is read from its end: the
    [parent] of a node is the node at the rest of the path. *)
Fixpoint fullname_up (root : Node) (rq : list nat) : option string :=
  match rq with
  | [] => Some (underscored (name root))
  | _ :: rparent =>
      match fullname_up root rparent, subnode (rev rq) root with
      | Some pre, Some m =>
          Some (String.append (String.append pre ".") (underscored (name m)))
      | _, _ => None
      end
  end.

Definition fullname (root : Node) (q : path) : option string :=
  fullname_up root (rev q).

(** The classes that tick one child at a time and call [Node.exit] on no
    other node: all but the parallel composites and Conditional. *)
Definition sequential (k : Klass) : bool :=
  match k with
  | UntilB | WhileB | Conditional => false
  | _ => true
  end.

(** All the children but the one of index [q] are idle. *)
Fixpoint idle_but (q : nat) (cs : list Node) : bool :=
  match cs, q with
  | [], _ => true
  | _ :: t, 0 => forallb (@idle St Val) t
  | c :: t, S q1 => idle c && idle_but q1 t
  end.

(** The child an instance may have left running. *)
Definition current (b : Behaviour Val) : option nat :=
  match b with
  | SequenceB _ q | SelectB _ q => Some q
  | RepeatB _ | NotBB _ | ChanceB _ true => Some 0
  | _ => None
  end.

(** The children an instance leaves between two ticks: idle, the current
    one apart. *)
Definition left_idle (b : Behaviour Val) (cs : list Node) : bool :=
  match current b with
  | Some q => idle_but q cs
  | None => forallb (@idle St Val) cs
  end.

(** A tree of sequential classes in which no node without an instance has
    an instance below it, and none but the current child of a node has. *)
Fixpoint tidy (n : Node) : bool :=
  match n with
  | mkNode _ k cs _ st =>
      sequential k && forallb tidy cs &&
      match st with
      | None => forallb (@idle St Val) cs
      | Some b => sequential (class_of b) && left_idle b cs
      end
  end.

(** The ticks of the children keep them tidy, and idle when they finish. *)
Definition children_tidy
    (tick : path -> Node -> World -> outcome status * Node * World)
    (cs : list Node) : Prop :=
  Forall (fun c => tidy c = true -> forall p w,
            tidy (snd (fst (tick p c w))) = true /\
            forall s, fst (fst (tick p c w)) = Ret (false, s) ->
                      idle (snd (fst (tick p c w))) = true) cs.

(** What a behaviour leaves of its children: all idle when it finished,
    all but the current one otherwise. *)
Definition left_by (o : outcome status) (b : Behaviour Val) (cs : list Node) : bool :=
  match o with
  | Ret (false, _) => forallb (@idle St Val) cs
  | _ => left_idle b cs
  end.

(** The children of [select (map notb cs)], or of [sequence (map notb cs)],
    at some point of a run: NotB nodes over the children [cs] are at that
    point. *)
Inductive negations : list Node -> list Node -> Prop :=
| neg_nil : negations [] []
| neg_cons c cs st ns :
    well_typed (notb_node "not" (no_kwargs St Val) st c) ->
    negations cs ns ->
    negations (c :: cs) (notb_node "not" (no_kwargs St Val) st c :: ns).

(** [notb (sequence nm cs)] and [select nm (map notb cs)] at the same point
    of a run: the two pointers agree. *)
Inductive not_all (nm : string) : Node -> Node -> Prop :=
| not_all_at cs ns stn (qo : option nat) :
    negations cs ns ->
    well_typed (notb_node "not" (no_kwargs St Val) stn
                  (mkNode nm Sequence cs (no_kwargs St Val)
                     (option_map (SequenceB Val) qo))) ->
    not_all nm
      (notb_node "not" (no_kwargs St Val) stn
         (mkNode nm Sequence cs (no_kwargs St Val) (option_map (SequenceB Val) qo)))
      (mkNode nm Select ns (no_kwargs St Val) (option_map (SelectB Val) qo)).

(** [notb (select nm cs)] and [sequence nm (map notb cs)] at the same point
    of a run. *)
Inductive not_any (nm : string) : Node -> Node -> Prop :=
| not_any_at cs ns stn (qo : option nat) :
    negations cs ns ->
    well_typed (notb_node "not" (no_kwargs St Val) stn
                  (mkNode nm Select cs (no_kwargs St Val)
                     (option_map (SelectB Val) qo))) ->
    not_any nm
      (notb_node "not" (no_kwargs St Val) stn
         (mkNode nm Select cs (no_kwargs St Val) (option_map (SelectB Val) qo)))
      (mkNode nm Sequence ns (no_kwargs St Val) (option_map (SequenceB Val) qo)).

(** The tree as the builder functions made it: every [state] back at
    [None]. *)
Fixpoint erase (n : Node) : Node :=
  match n with
  | mkNode nm k cs kw _ => mkNode nm k (map erase cs) kw None
  end.

(** The ticks of the children change nothing but instances. *)
Definition children_keep
    (tick : path -> Node -> World -> outcome status * Node * World)
    (cs : list Node) : Prop :=
  Forall (fun c => forall p w, erase (snd (fst (tick p c w))) = erase c) cs.

Definition is_conditional (k : Klass) : bool :=
  match k with
  | Conditional => true
  | _ => false
  end.

(** A tree without a Conditional node and without an instance of the
    class Conditional. *)
Fixpoint conditional_free (n : Node) : bool :=
  match n with
  | mkNode _ k cs _ st =>
      negb (is_conditional k) &&
      match st with
      | Some b => negb (is_conditional (class_of b))
      | None => true
      end &&
      forallb conditional_free cs
  end.

(** An event other than a call of [Node.exit] by a Conditional. *)
Definition quiet (e : Event) : Prop :=
  match e with
  | EvDeactivate _ => False
  | _ => True
  end.

(** [w1] is [w] after some events, none of them a deactivation. *)
Definition quietly (w w1 : World) : Prop :=
  exists ev, trace w1 = ev ++ trace w /\ Forall quiet ev.

(** The ticks of the children deactivate nothing. *)
Definition children_quiet
    (tick : path -> Node -> World -> outcome status * Node * World)
    (cs : list Node) : Prop :=
  Forall (fun c => forall p w,
                     quietly w (snd (tick p c w)) /\
                     conditional_free (snd (fst (tick p c w))) = true) cs.

End MoreTerms.

(** ** The scenarios of the test suite, replayed on the model *)
Module Scenarios.

(** The state: a flag the predicates read and a list the effects extend. *)
Definition State : Type := (bool * list Z)%type.
Definition truth (b : bool) : bool := b.
Definition rnd (k : nat) : Q := 1 # 2.
Definition append (x : Z) : Callable State bool := fun s => (Ret true, (fst s, snd s ++ [x])).
Definition flag : Callable State bool := fun s => (Ret (fst s), s).
Definition boom : Callable State bool := fun s => (Raise UserError, s).
(** An effect that raises while the flag is off. *)
Definition fragile : Callable State bool :=
  fun s => if fst s then (Ret true, s) else (Raise UserError, s).
Definition on : State := (true, []).
Definition off : State := (false, []).
Definition start (s : State) : World State := mkWorld s 0 [].

(** test_sequence *)
Definition t_sequence : Node State bool :=
  sequence "append two"
    [do "call it1" (append 1); wait State bool 1; do "call it2" (append 2)].

(** test_parallel_while, the flag standing for [not state['stop']] *)
Definition t_while : Node State bool :=
  whileb "repeat while" [evalb "check" flag; do "count" (append 1)].

(** test_conditional *)
Definition t_conditional : Node State bool :=
  conditional "condition" (evalb "check" flag)
    (do "exito" (append 1)) (do "fail" (append 0)).

(** test_conditional_long *)
Definition t_conditional_long : Node State bool :=
  conditional "condition" (evalb "check" flag)
    (repeat (do "success" (append 1))) (repeat (do "fail" (append 0))).

(** test_chance, with a draw of 1/2 against a threshold of 3/4 *)
Definition t_chance : Node State bool := chance (3 # 4) (evalb "check" flag).

Definition t_run : Node State bool := run "call_it" fragile.

Definition tick_at_root (n : Node State bool) (w : World State) :=
  Node_tick truth rnd [] n w.
Definition ticks (n : Node State bool) (inputs : list State) :=
  run_ticks truth rnd n (start on) inputs.

(** The first tick of test_parallel_while. *)
Definition while_tick := tick_at_root t_while (start on).

(** The first tick of test_sequence. *)
Definition sequence_tick := tick_at_root t_sequence (start on).

(** test_conditional_long after two ticks with the flag on, and its third
    tick, with the flag off. *)
Definition long_two := ticks t_conditional_long [on; on].
Definition long_node := node_after long_two.
Definition long_world := set_ustate off (world_after long_two).
Definition long_third := tick_at_root long_node long_world.

(** test_conditional_long after three ticks, the flag on, on and off. *)
Definition long_three := ticks t_conditional_long [on; on; off].

(** The first tick of test_chance. *)
Definition chance_tick := tick_at_root t_chance (start on).

(** A predicate that is never true. *)
Definition never : Callable State bool := fun s => (Ret false, s).

(** test_select and its first tick *)
Definition t_select : Node State bool :=
  select "pick one" [evalb "fail" never; wait State bool 1].
Definition select_tick := tick_at_root t_select (start on).

(** test_parallel_until, the flag standing for [state['stop']], and its
    first tick *)
Definition t_until : Node State bool :=
  untilb "repeat until" [evalb "check" flag; notb (do "incr" (append 1))].
Definition until_tick := tick_at_root t_until (start off).

(** test_repeat and its first tick *)
Definition t_repeat : Node State bool := repeat (do "success" (append 1)).
Definition repeat_tick := tick_at_root t_repeat (start on).

(** The first tree of test_notb under a second [notb]. *)
Definition t_check : Node State bool := evalb "check" flag.
Definition t_not_not : Node State bool := notb (notb t_check).

(** A tree with every kind of composite over effects that return. *)
Definition t_all : Node State bool :=
  sequence "all"
    [run "step" (append 1);
     select "pick" [evalb "check" flag; wait State bool 1];
     t_conditional_long].

(** A WhileB whose first child fails at once while the second is waiting. *)
Definition t_leaky : Node State bool :=
  whileb "while" [evalb "go on" never; wait State bool 2].

End Scenarios.

(** * Properties *)

(** Induction on a tree, with the hypothesis on every child. *)
Section NodeInduction.
Variables St Val : Type.
Variable P : Node St Val -> Prop.
Hypothesis step : forall nm k cs kw st, Forall P cs -> P (mkNode nm k cs kw st).

Fixpoint Node_ind (n : Node St Val) : P n :=
  match n with
  | mkNode nm k cs kw st =>
      step nm k kw st
        ((fix all (l : list (Node St Val)) : Forall P l :=
            match l with
            | [] => Forall_nil P
            | c :: t => Forall_cons c (Node_ind c) (all t)
            end) cs)
  end.
End NodeInduction.

Ltac inv H := inversion H; subst; clear H.

#[local] Arguments Nat.ltb : simpl never.
#[local] Arguments Nat.leb : simpl never.
#[local] Arguments Z.leb : simpl never.

Section Facts.
Variables St Val : Type.
Variable truthy : Val -> bool.
Variable random : nat -> Q.

Local Notation Node := (Node St Val).
Local Notation World := (World St).
Local Notation Node_tick := (Node_tick truthy random).
Local Notation run_ticks := (run_ticks truthy random).
Local Notation Tick := (path -> Node -> World -> outcome status * Node * World).
Local Notation preserves := (preserves truthy random).
Local Notation success_allowed := (success_allowed random).

Lemma Node_tick_unfold (p : path) (n : Node) (w : World) :
  Node_tick p n w = Node_tick_body truthy random Node_tick p n w.
Proof. destruct n; reflexivity. Qed.

(** ** Paths and selections of events *)

Lemma child_of_app (p r : path) :
  child_of p (p ++ r) = match r with [i] => Some i | _ => None end.
Proof.
  induction p as [|a p IH]; simpl.
  - destruct r as [|i [|j r]]; reflexivity.
  - rewrite Nat.eqb_refl. exact IH.
Qed.

Lemma child_of_child (p : path) (i : nat) : child_of p (p ++ [i]) = Some i.
Proof. now rewrite child_of_app. Qed.

Lemma child_of_deep (p : path) (i j : nat) (r : path) :
  child_of p ((p ++ [i]) ++ j :: r) = None.
Proof. rewrite <- app_assoc. now rewrite child_of_app. Qed.

Lemma child_of_self (p : path) : child_of p p = None.
Proof. rewrite <- (app_nil_r p) at 2. now rewrite child_of_app. Qed.

Lemma path_eqb_refl (p : path) : path_eqb p p = true.
Proof. unfold path_eqb. destruct (list_eq_dec Nat.eq_dec p p); congruence. Qed.

Lemma path_eqb_neq (x y : path) : x <> y -> path_eqb x y = false.
Proof. unfold path_eqb. destruct (list_eq_dec Nat.eq_dec x y); congruence. Qed.

Lemma app_cons_neq (p : path) (j : nat) (r : path) : p ++ j :: r <> p.
Proof.
  intros H. apply (f_equal (@List.length nat)) in H.
  rewrite length_app in H. simpl in H. lia.
Qed.

Lemma pick_app (A : Type) (f : Event -> option A) (a b : list Event) :
  pick f (a ++ b) = pick f b ++ pick f a.
Proof.
  induction a as [|e a IH]; simpl.
  - now rewrite app_nil_r.
  - destruct (f e); rewrite IH; now rewrite ?app_assoc.
Qed.

Lemma pick_none (A : Type) (f : Event -> option A) (ev : list Event) :
  Forall (fun e => f e = None) ev -> pick f ev = [].
Proof.
  induction 1 as [|e ev He _ IH]; simpl; [reflexivity|].
  now rewrite He.
Qed.

Lemma new_events_app (w w1 : World) (ev : list Event) :
  trace w1 = ev ++ trace w -> new_events w w1 = ev.
Proof.
  intros H. unfold new_events. rewrite H, length_app.
  replace (List.length ev + List.length (trace w) - List.length (trace w))
    with (List.length ev + 0) by lia.
  rewrite firstn_app_2. simpl. apply app_nil_r.
Qed.

Lemma below_within (p x : path) : below p x -> within p x.
Proof. intros (j & r & ->). now exists (j :: r). Qed.

Lemma interior_within (p : path) (e : Event) : interior p e -> within p (ev_path e).
Proof. destruct e; simpl; auto using below_within. Qed.

Lemma within_child_below (p : path) (i : nat) (x : path) :
  within (p ++ [i]) x -> below p x.
Proof. intros (r & ->). exists i, r. now rewrite <- app_assoc. Qed.

Lemma interior_up (p : path) (i : nat) (e : Event) :
  interior (p ++ [i]) e -> interior p e.
Proof.
  destruct e; simpl; intros H;
    first [ apply (within_child_below p i), below_within, H
          | apply below_within, (within_child_below p i), H ].
Qed.

Lemma tick_of_interior (p : path) (i : nat) (e : Event) :
  interior (p ++ [i]) e -> tick_of p e = None.
Proof.
  destruct e; simpl; try reflexivity.
  intros (j & r & ->). apply child_of_deep.
Qed.

Lemma return_of_interior (p : path) (i : nat) (e : Event) :
  interior (p ++ [i]) e -> return_of p e = None.
Proof.
  destruct e; simpl; try reflexivity.
  intros (j & r & ->). now rewrite child_of_deep.
Qed.

Lemma deactivate_of_interior (p : path) (i : nat) (e : Event) :
  interior (p ++ [i]) e -> deactivate_of p e = None.
Proof.
  destruct e; simpl; try reflexivity.
  intros (j & r & ->). apply child_of_deep.
Qed.

Lemma within_child_neq (p : path) (i : nat) (x : path) :
  within (p ++ [i]) x -> path_eqb x p = false.
Proof.
  intros (r & ->). apply path_eqb_neq. rewrite <- app_assoc. apply app_cons_neq.
Qed.

Lemma draw_at_interior (p : path) (i : nat) (e : Event) :
  interior (p ++ [i]) e -> draw_at p e = None.
Proof.
  destruct e; simpl; try reflexivity.
  intros H. now rewrite (within_child_neq _ _ H).
Qed.

Lemma segs_ticks (p : path) (log : list (nat * outcome status)) : forall ev,
  segs p log ev -> pick (tick_of p) ev = map fst log.
Proof.
  induction log as [|[i r] log IH]; intros ev H; simpl in H.
  - now subst.
  - destruct H as (mid & rest & Hmid & Hrest & ->).
    rewrite !pick_app, (IH _ Hrest). simpl. rewrite child_of_child. simpl.
    rewrite (pick_none (tick_of p) (ev:=mid)).
    + destruct r as [[r s]|e]; reflexivity.
    + eapply Forall_impl; [|exact Hmid]. intros e. apply tick_of_interior.
Qed.

Lemma segs_returns (p : path) (log : list (nat * outcome status)) : forall ev,
  segs p log ev -> pick (return_of p) ev = log_returns log.
Proof.
  induction log as [|[i r] log IH]; intros ev H; simpl in H.
  - now subst.
  - destruct H as (mid & rest & Hmid & Hrest & ->).
    rewrite !pick_app, (IH _ Hrest). simpl.
    rewrite (pick_none (return_of p) (ev:=mid)).
    + destruct r as [[r s]|e]; simpl; [rewrite child_of_child|]; reflexivity.
    + eapply Forall_impl; [|exact Hmid]. intros e. apply return_of_interior.
Qed.

Lemma segs_hidden (A : Type) (f : Event -> option A) (p : path)
    (Hi : forall i e, interior (p ++ [i]) e -> f e = None)
    (Ht : forall i, f (EvTick (p ++ [i])) = None)
    (Hr : forall i r s, f (EvReturn (p ++ [i]) r s) = None)
    (log : list (nat * outcome status)) : forall ev,
  segs p log ev -> pick f ev = [].
Proof.
  induction log as [|[i r] log IH]; intros ev H; simpl in H.
  - now subst.
  - destruct H as (mid & rest & Hmid & Hrest & ->).
    rewrite !pick_app, (IH _ Hrest). simpl. rewrite Ht.
    rewrite (pick_none f (ev:=mid)).
    + destruct r as [[r s]|e]; simpl; [rewrite Hr|]; reflexivity.
    + eapply Forall_impl; [|exact Hmid]. intros e. apply Hi.
Qed.

Lemma segs_deactivations (p : path) log ev :
  segs p log ev -> pick (deactivate_of p) ev = [].
Proof.
  apply segs_hidden; intros; simpl; eauto using deactivate_of_interior.
Qed.

Lemma segs_draws (p : path) log ev : segs p log ev -> pick (draw_at p) ev = [].
Proof. apply segs_hidden; intros; simpl; eauto using draw_at_interior. Qed.

Lemma segs_interior (p : path) (log : list (nat * outcome status)) : forall ev,
  segs p log ev -> Forall (interior p) ev.
Proof.
  induction log as [|[i r] log IH]; intros ev H; simpl in H.
  - subst; constructor.
  - destruct H as (mid & rest & Hmid & Hrest & ->).
    repeat (apply Forall_app; split); auto.
    + destruct r as [[r s]|e]; simpl; constructor; [|constructor].
      simpl. exists i, []. reflexivity.
    + eapply Forall_impl; [|exact Hmid]. intros e. apply interior_up.
    + constructor; [|constructor]. simpl. exists i, []. reflexivity.
Qed.

(** Every event of the segments is about a child named in the log. *)
Lemma segs_owner (p : path) (log : list (nat * outcome status)) : forall ev,
  segs p log ev ->
  Forall (fun e => exists x, In x log /\ within (p ++ [fst x]) (ev_path e)) ev.
Proof.
  induction log as [|[i r] log IH]; intros ev H; simpl in H.
  - subst; constructor.
  - destruct H as (mid & rest & Hmid & Hrest & ->).
    repeat (apply Forall_app; split).
    + eapply Forall_impl; [|exact (IH _ Hrest)].
      intros e (x & Hx & Hw). exists x; split; [now right | exact Hw].
    + destruct r as [[r s]|e]; simpl; constructor; [|constructor].
      exists (i, Ret (r, s)); split; [now left|]. exists []. simpl. now rewrite app_nil_r.
    + eapply Forall_impl; [|exact Hmid]. intros e He.
      exists (i, r); split; [now left|]. simpl. now apply interior_within.
    + constructor; [|constructor].
      exists (i, r); split; [now left|]. exists []. simpl. now rewrite app_nil_r.
Qed.

(** ** The children a behaviour ticks *)

Section ChildTicks.
Variable tick : path -> Node -> World -> outcome status * Node * World.

Local Notation ticks_some := (ticks_some tick).
Local Notation children_trace_ok := (children_trace_ok tick).

Lemma ticks_some_from (p : path) i cs w log cs1 w1 :
  ticks_some p i cs w log cs1 w1 -> Forall (fun x => i <= fst x) log.
Proof.
  induction 1 as [| |i c rest w r c1 w1 log rest1 w2 Ht Hs IH]; auto.
  - eapply Forall_impl; [|exact IHticks_some]. simpl; intros; lia.
  - constructor; [simpl; lia|].
    eapply Forall_impl; [|exact IH]. simpl; intros; lia.
Qed.

Lemma ticks_some_below (p : path) i cs w log cs1 w1 :
  ticks_some p i cs w log cs1 w1 -> Forall (fun x => fst x < i + List.length cs) log.
Proof.
  induction 1 as [| |i c rest w r c1 w1 log rest1 w2 Ht Hs IH]; auto.
  - eapply Forall_impl; [|exact IHticks_some]. simpl; intros; lia.
  - constructor; [simpl; lia|].
    eapply Forall_impl; [|exact IH]. simpl; intros; lia.
Qed.

Lemma ticks_some_segs (p : path) i cs w log cs1 w1 :
  ticks_some p i cs w log cs1 w1 -> children_trace_ok cs ->
  exists ev, trace w1 = ev ++ trace w /\ segs p log ev.
Proof.
  induction 1 as [i cs w|i c rest w log rest1 w1 Hs IH
                 |i c rest w r c1 w1 log rest1 w2 Ht Hs IH]; intros Hcs.
  - exists []. split; reflexivity.
  - apply IH. exact (Forall_inv_tail Hcs).
  - destruct (IH (Forall_inv_tail Hcs)) as (ev & Hev & Hsegs).
    destruct (Forall_inv Hcs (p ++ [i]) w) as (mid & Hmid & Hint).
    rewrite Ht in Hmid. simpl in Hmid.
    exists (ev ++ ret_events (p ++ [i]) r ++ mid ++ [EvTick (p ++ [i])]). split.
    + rewrite Hev, Hmid. now rewrite <- !app_assoc.
    + simpl. exists mid, ev. auto.
Qed.

Lemma tick_first_spec (p : path) cs w o cs1 w1 :
  tick_first tick p cs w = (o, cs1, w1) ->
  exists log, ticks_some p 0 cs w log cs1 w1 /\ log_ok o log.
Proof.
  unfold tick_first. destruct cs as [|c rest].
  - intros H; inv H. exists []. split; [constructor | intros []].
  - destruct (tick (p ++ [0]) c w) as [[r c1] w2] eqn:Ht. intros H; inv H.
    exists [(0, o)]. split.
    + eapply ts_tick; [exact Ht | constructor].
    + intros Ho. constructor; [exact Ho | constructor].
Qed.

Lemma Sequence_loop_spec (p : path) cs : forall i ptr succ w o ptr1 cs1 w1,
  Sequence_loop tick p i ptr succ cs w = (o, ptr1, cs1, w1) ->
  exists log, ticks_some p i cs w log cs1 w1 /\ log_ok o log.
Proof.
  induction cs as [|c rest IH]; intros i ptr succ w o ptr1 cs1 w1; simpl.
  - intros H; inv H. exists []. split; [constructor | intros _; constructor].
  - destruct (i <? ptr).
    + destruct (Sequence_loop tick p (S i) ptr succ rest w) as [[[r q] l] w2] eqn:Hl.
      intros H; inv H. destruct (IH _ _ _ _ _ _ _ _ Hl) as (log & Hs & Hok).
      exists log. split; [now constructor | exact Hok].
    + destruct (tick (p ++ [i]) c w) as [[r c1] w2] eqn:Ht.
      destruct r as [[[] s]|e].
      * intros H; inv H. exists [(i, Ret (true, s))]. split.
        -- eapply ts_tick; [exact Ht | constructor].
        -- intros _. repeat constructor.
      * destruct s; simpl.
        -- destruct (Sequence_loop tick p (S i) (S ptr) (Some true) rest w2)
             as [[[r q] l] w3] eqn:Hl.
           intros H; inv H. destruct (IH _ _ _ _ _ _ _ _ Hl) as (log & Hs & Hok).
           exists ((i, Ret (false, true)) :: log). split.
           ++ eapply ts_tick; [exact Ht | exact Hs].
           ++ intros Ho. constructor; [exact I | exact (Hok Ho)].
        -- intros H; inv H. exists [(i, Ret (false, false))]. split.
           ++ eapply ts_tick; [exact Ht | constructor].
           ++ intros _. repeat constructor.
      * intros H; inv H. exists [(i, Raise e)]. split.
        -- eapply ts_tick; [exact Ht | constructor].
        -- intros [].
Qed.

Lemma Select_loop_spec (p : path) cs : forall i ptr succ w o ptr1 cs1 w1,
  Select_loop tick p i ptr succ cs w = (o, ptr1, cs1, w1) ->
  exists log, ticks_some p i cs w log cs1 w1 /\ log_ok o log.
Proof.
  induction cs as [|c rest IH]; intros i ptr succ w o ptr1 cs1 w1; simpl.
  - intros H; inv H. exists []. split; [constructor | intros _; constructor].
  - destruct (i <? ptr).
    + destruct (Select_loop tick p (S i) ptr succ rest w) as [[[r q] l] w2] eqn:Hl.
      intros H; inv H. destruct (IH _ _ _ _ _ _ _ _ Hl) as (log & Hs & Hok).
      exists log. split; [now constructor | exact Hok].
    + destruct (tick (p ++ [i]) c w) as [[r c1] w2] eqn:Ht.
      destruct r as [[[] s]|e].
      * intros H; inv H. exists [(i, Ret (true, s))]. split.
        -- eapply ts_tick; [exact Ht | constructor].
        -- intros _. repeat constructor.
      * destruct s; simpl.
        -- intros H; inv H. exists [(i, Ret (false, true))]. split.
           ++ eapply ts_tick; [exact Ht | constructor].
           ++ intros _. repeat constructor.
        -- destruct (Select_loop tick p (S i) (S ptr) (Some false) rest w2)
             as [[[r q] l] w3] eqn:Hl.
           intros H; inv H. destruct (IH _ _ _ _ _ _ _ _ Hl) as (log & Hs & Hok).
           exists ((i, Ret (false, false)) :: log). split.
           ++ eapply ts_tick; [exact Ht | exact Hs].
           ++ intros Ho. constructor; [exact I | exact (Hok Ho)].
      * intros H; inv H. exists [(i, Raise e)]. split.
        -- eapply ts_tick; [exact Ht | constructor].
        -- intros [].
Qed.

Lemma WhileB_loop_spec (p : path) cs : forall i rep w o cs1 w1,
  WhileB_loop tick p i rep cs w = (o, cs1, w1) ->
  exists log, ticks_some p i cs w log cs1 w1 /\
    forall rep1, o = Ret rep1 ->
      map fst log = seq i (List.length cs) /\
      Forall (fun x => is_ret (snd x)) log /\
      rep1 = rep && negb (existsb failed log).
Proof.
  induction cs as [|c rest IH]; intros i rep w o cs1 w1; simpl.
  - intros H; inv H. exists []. split; [constructor|].
    intros rep1 H; inv H. simpl. rewrite andb_true_r. auto.
  - destruct (tick (p ++ [i]) c w) as [[r c1] w2] eqn:Ht.
    destruct r as [[r s]|e].
    + destruct (WhileB_loop tick p (S i) (if negb r then rep && s else rep) rest w2)
        as [[r2 l] w3] eqn:Hl.
      intros H; inv H. destruct (IH _ _ _ _ _ _ Hl) as (log & Hs & Hok).
      exists ((i, Ret (r, s)) :: log). split; [eapply ts_tick; eauto|].
      intros rep1 ->. destruct (Hok rep1 eq_refl) as (Hidx & Hret & Hrep).
      simpl. rewrite Hidx. repeat split; [constructor; [exact I | exact Hret]|].
      rewrite Hrep. unfold failed at 1. simpl.
      destruct r, s, rep; reflexivity.
    + intros H; inv H. exists [(i, Raise e)]. split.
      * eapply ts_tick; [exact Ht | constructor].
      * intros rep1 H; discriminate.
Qed.

Lemma UntilB_loop_spec (p : path) cs : forall i ex w o cs1 w1,
  UntilB_loop tick p i ex cs w = (o, cs1, w1) ->
  exists log, ticks_some p i cs w log cs1 w1 /\
    forall ex1, o = Ret ex1 ->
      map fst log = seq i (List.length cs) /\
      Forall (fun x => is_ret (snd x)) log /\
      ex1 = ex || existsb succeeded log.
Proof.
  induction cs as [|c rest IH]; intros i ex w o cs1 w1; simpl.
  - intros H; inv H. exists []. split; [constructor|].
    intros ex1 H; inv H. simpl. rewrite orb_false_r. auto.
  - destruct (tick (p ++ [i]) c w) as [[r c1] w2] eqn:Ht.
    destruct r as [[r s]|e].
    + destruct (UntilB_loop tick p (S i) (if negb r then ex || s else ex) rest w2)
        as [[r2 l] w3] eqn:Hl.
      intros H; inv H. destruct (IH _ _ _ _ _ _ Hl) as (log & Hs & Hok).
      exists ((i, Ret (r, s)) :: log). split; [eapply ts_tick; eauto|].
      intros ex1 ->. destruct (Hok ex1 eq_refl) as (Hidx & Hret & Hex).
      simpl. rewrite Hidx. repeat split; [constructor; [exact I | exact Hret]|].
      rewrite Hex. unfold succeeded at 1. simpl.
      destruct r, s, ex; reflexivity.
    + intros H; inv H. exists [(i, Raise e)]. split.
      * eapply ts_tick; [exact Ht | constructor].
      * intros ex1 H; discriminate.
Qed.

End ChildTicks.

Lemma extends_refl (p : path) (w : World) : extends p w w.
Proof. exists []. split; [reflexivity | constructor]. Qed.

Lemma extends_trans (p : path) (w w1 w2 : World) :
  extends p w w1 -> extends p w1 w2 -> extends p w w2.
Proof.
  intros (ev1 & H1 & F1) (ev2 & H2 & F2). exists (ev2 ++ ev1). split.
  - rewrite H2, H1. now rewrite app_assoc.
  - apply Forall_app; auto.
Qed.

Lemma extends_emit (p : path) (e : Event) (w : World) :
  interior p e -> extends p w (emit e w).
Proof. intros H. exists [e]. split; [reflexivity | now constructor]. Qed.

Lemma within_refl (p : path) : within p p.
Proof. exists []. now rewrite app_nil_r. Qed.

Lemma below_child (p : path) (i : nat) : below p (p ++ [i]).
Proof. now exists i, []. Qed.

Lemma call_what_extends (p : path) (kw : Kwargs St Val) (w : World) o w1 :
  call_what p kw w = (o, w1) -> extends p w w1.
Proof.
  unfold call_what. destruct (what kw) as [f|].
  - destruct (f (ustate (emit (EvCall p) w))) as [o1 s1]. intros H; inv H.
    exists [EvCall p]. split; [reflexivity|]. constructor; [apply within_refl | constructor].
  - intros H; inv H. apply extends_refl.
Qed.

Lemma instantiate_extends (p : path) k (kw : Kwargs St Val) (w : World) o w1 :
  instantiate random p k kw w = (o, w1) -> extends p w w1.
Proof.
  destruct k; simpl; try (intros H; inv H; apply extends_refl).
  - destruct (threshold kw); intros H; inv H;
      (exists [EvDraw p]; split; [reflexivity|]; constructor;
       [apply within_refl | constructor]).
  - destruct (steps kw); intros H; inv H; apply extends_refl.
Qed.

Lemma instance_extends (p : path) (n : Node) (w : World) o w1 :
  instance random p n w = (o, w1) -> extends p w w1.
Proof.
  unfold instance, Node_enter. destruct (state n).
  - intros H; inv H. apply extends_refl.
  - intros H. eapply extends_trans; [apply (extends_emit p (EvEnter p)); apply within_refl|].
    eapply instantiate_extends; eauto.
Qed.

Lemma child_tick_extends (tick : Tick) (p : path) (i : nat) (c : Node) (w : World) o c1 w1 :
  (forall q w0, trace_ok q w0 (tick q c w0)) ->
  tick (p ++ [i]) c w = (o, c1, w1) -> extends p w w1.
Proof.
  intros Hc Ht. destruct (Hc (p ++ [i]) w) as (mid & Hmid & Hint).
  rewrite Ht in Hmid. simpl in Hmid.
  exists (ret_events (p ++ [i]) o ++ mid ++ [EvTick (p ++ [i])]). split.
  - rewrite Hmid. now rewrite <- !app_assoc.
  - repeat (apply Forall_app; split).
    + destruct o as [[r s]|e]; simpl; constructor; [apply below_child | constructor].
    + eapply Forall_impl; [|exact Hint]. intros e. apply interior_up.
    + constructor; [apply below_child | constructor].
Qed.

Lemma ticks_some_extends (tick : Tick) (p : path) i (cs : list Node) (w : World) log cs1 w1 :
  children_trace_ok tick cs ->
  ticks_some tick p i cs w log cs1 w1 -> extends p w w1.
Proof.
  intros Hcs Hs. destruct (ticks_some_segs Hs Hcs) as (ev & Hev & Hsegs).
  exists ev. split; [exact Hev | exact (segs_interior _ _ _ Hsegs)].
Qed.

Lemma Conditional_switch_extends (p : path) lr sel (other : option Node) (w : World) o lr1 w1 :
  Conditional_switch p lr sel other w = (o, lr1, w1) -> extends p w w1.
Proof.
  unfold Conditional_switch. destruct lr as [b|].
  - destruct (Bool.eqb sel b); [intros H; inv H; apply extends_refl|].
    destruct other as [c|].
    + destruct (Node_exit c); intros H; inv H;
        apply extends_emit; apply below_child.
    + intros H; inv H. apply extends_emit; apply below_child.
  - intros H; inv H. apply extends_refl.
Qed.

Lemma Conditional_tick_extends (tick : Tick) (p : path) lr (cs : list Node) (w : World) o lr1 cs1 w1 :
  children_trace_ok tick cs ->
  Conditional_tick tick p lr cs w = (o, lr1, cs1, w1) -> extends p w w1.
Proof.
  intros Hcs. unfold Conditional_tick. destruct cs as [|c0 rest].
  { intros H; inv H. apply extends_refl. }
  destruct (tick (p ++ [0]) c0 w) as [[r c0'] w2] eqn:Ht0.
  pose proof (child_tick_extends tick p 0 c0 w (Forall_inv Hcs) Ht0) as E0.
  destruct r as [[[] s]|e]; try (intros H; inv H; exact E0).
  destruct s.
  - destruct rest as [|c1 rest2]; [intros H; inv H; exact E0|].
    destruct (Conditional_switch p lr true (hd_error rest2) w2) as [[r2 lr2] w3] eqn:Hsw.
    pose proof (Conditional_switch_extends _ _ _ _ _ Hsw) as E1.
    destruct r2 as [o2|e]; [|intros H; inv H; eapply extends_trans; eauto].
    destruct (tick (p ++ [1]) c1 w3) as [[r3 c1'] w4] eqn:Ht1.
    intros H; inv H.
    pose proof (child_tick_extends tick p 1 c1 w3
                  (Forall_inv (Forall_inv_tail Hcs)) Ht1) as E2.
    eauto using extends_trans.
  - destruct rest as [|c1 [|c2 rest3]]; try (intros H; inv H; exact E0).
    destruct (Conditional_switch p lr false (Some c1) w2) as [[r2 lr2] w3] eqn:Hsw.
    pose proof (Conditional_switch_extends _ _ _ _ _ Hsw) as E1.
    destruct r2 as [o1|e]; [|intros H; inv H; eapply extends_trans; eauto].
    destruct (tick (p ++ [2]) c2 w3) as [[r3 c2'] w4] eqn:Ht2.
    intros H; inv H.
    pose proof (child_tick_extends tick p 2 c2 w3
                  (Forall_inv (Forall_inv_tail (Forall_inv_tail Hcs))) Ht2) as E2.
    eauto using extends_trans.
Qed.

Lemma Behaviour_tick_extends (tick : Tick) (p : path) (kw : Kwargs St Val) b (cs : list Node) (w : World) o b1 cs1 w1 :
  children_trace_ok tick cs ->
  Behaviour_tick truthy tick p kw b cs w = (o, b1, cs1, w1) -> extends p w w1.
Proof.
  intros Hcs. destruct b; simpl.
  - unfold Do_tick. destruct (call_what p kw w) as [o1 w2] eqn:Hc.
    destruct o1; intros H; inv H; eapply call_what_extends; eauto.
  - unfold Run_tick. destruct wait0.
    + destruct (call_what p kw w) as [o1 w2] eqn:Hc.
      destruct o1; intros H; inv H; eapply call_what_extends; eauto.
    + intros H; inv H. apply extends_refl.
  - unfold Repeat_tick. destruct (tick_first tick p cs w) as [[r l] w2] eqn:Hf.
    destruct (tick_first_spec _ _ _ _ Hf) as (log & Hs & _).
    pose proof (ticks_some_extends Hcs Hs) as E.
    destruct r as [[r s]|e]; [destruct (negb r && negb s)|]; intros H; inv H; exact E.
  - unfold Chance_tick. destruct (negb success).
    + intros H; inv H. apply extends_refl.
    + destruct (tick_first tick p cs w) as [[r l] w2] eqn:Hf.
      destruct (tick_first_spec _ _ _ _ Hf) as (log & Hs & _).
      intros H; inv H. exact (ticks_some_extends Hcs Hs).
  - unfold NotB_tick. destruct (tick_first tick p cs w) as [[r l] w2] eqn:Hf.
    destruct (tick_first_spec _ _ _ _ Hf) as (log & Hs & _).
    pose proof (ticks_some_extends Hcs Hs) as E.
    destruct r as [[[] s]|e]; intros H; inv H; exact E.
  - destruct (Wait_tick count). intros H; inv H. apply extends_refl.
  - unfold EvalB_tick. destruct (call_what p kw w) as [o1 w2] eqn:Hc.
    destruct o1; intros H; inv H; eapply call_what_extends; eauto.
  - unfold Sequence_tick.
    destruct (Sequence_loop tick p 0 pointer None cs w) as [[[r q] l] w2] eqn:Hl.
    destruct (Sequence_loop_spec _ _ _ _ _ _ _ Hl) as (log & Hs & _).
    intros H; inv H. exact (ticks_some_extends Hcs Hs).
  - unfold Select_tick.
    destruct (Select_loop tick p 0 pointer None cs w) as [[[r q] l] w2] eqn:Hl.
    destruct (Select_loop_spec _ _ _ _ _ _ _ Hl) as (log & Hs & _).
    intros H; inv H. exact (ticks_some_extends Hcs Hs).
  - unfold UntilB_tick. destruct (UntilB_loop tick p 0 false cs w) as [[r l] w2] eqn:Hl.
    destruct (UntilB_loop_spec _ _ _ _ _ _ Hl) as (log & Hs & _).
    pose proof (ticks_some_extends Hcs Hs) as E.
    destruct r as [[]|e]; intros H; inv H; exact E.
  - unfold WhileB_tick. destruct (WhileB_loop tick p 0 true cs w) as [[r l] w2] eqn:Hl.
    destruct (WhileB_loop_spec _ _ _ _ _ _ Hl) as (log & Hs & _).
    pose proof (ticks_some_extends Hcs Hs) as E.
    destruct r as [[]|e]; intros H; inv H; exact E.
  - destruct (Conditional_tick tick p last_run cs w) as [[[r lr] l] w2] eqn:Hc.
    intros H; inv H. eapply Conditional_tick_extends; eauto.
Qed.

(** The trace of a tick of the node at [p]: the call, interior events, and
    the return unless an exception ends the call. *)
Lemma Node_tick_trace (n : Node) : forall p w, trace_ok p w (Node_tick p n w).
Proof.
  induction n as [nm k cs kw st IH] using Node_ind; intros p w.
  rewrite Node_tick_unfold. unfold Node_tick_body, trace_ok.
  destruct (instance random p (mkNode nm k cs kw st) (emit (EvTick p) w))
    as [ob w1] eqn:Hi.
  destruct (instance_extends _ _ _ Hi) as (ev1 & Hev1 & F1).
  destruct ob as [b|e]; simpl.
  2:{ exists ev1. split; [exact Hev1 | exact F1]. }
  destruct (Behaviour_tick truthy Node_tick p kw b cs w1) as [[[r b1] cs1] w2] eqn:Hb.
  pose proof Hb as Hx. eapply Behaviour_tick_extends in Hx; [|exact IH].
  destruct Hx as (ev2 & Hev2 & F2).
  assert (F : Forall (interior p) (ev2 ++ ev1)) by (apply Forall_app; auto).
  destruct r as [[[] s]|e]; simpl.
  - exists (ev2 ++ ev1). split; [|exact F].
    rewrite Hev2, Hev1. simpl. now rewrite <- app_assoc.
  - exists (EvExit p s :: ev2 ++ ev1). split.
    + rewrite Hev2, Hev1. simpl. now rewrite <- app_assoc.
    + constructor; [apply within_refl | exact F].
  - exists (ev2 ++ ev1). split; [|exact F].
    rewrite Hev2, Hev1. simpl. now rewrite <- app_assoc.
Qed.

Lemma children_trace (cs : list Node) : children_trace_ok Node_tick cs.
Proof. apply Forall_forall. intros c _ p w. apply Node_tick_trace. Qed.

(** ** The parts of a tick of a node *)

Lemma tick_of_own (p : path) (e : Event) : own p e -> tick_of p e = None.
Proof. unfold own. destruct e; simpl; intros; subst; auto using child_of_self. Qed.

Lemma return_of_own (p : path) (e : Event) : own p e -> return_of p e = None.
Proof.
  unfold own. destruct e; simpl; intros; subst; auto. now rewrite child_of_self.
Qed.

Lemma deactivate_of_own (p : path) (e : Event) : own p e -> deactivate_of p e = None.
Proof. unfold own. destruct e; simpl; intros; subst; auto using child_of_self. Qed.

Lemma instantiate_class (p : path) k (kw : Kwargs St Val) (w : World) b w1 :
  instantiate random p k kw w = (Ret b, w1) -> class_of b = k.
Proof.
  destruct k; simpl; try (intros H; inv H; reflexivity).
  - destruct (threshold kw); intros H; inv H; reflexivity.
  - destruct (steps kw); intros H; inv H; reflexivity.
Qed.

Lemma instance_class (p : path) (n : Node) (w : World) b w1 :
  well_typed n -> instance random p n w = (Ret b, w1) -> class_of b = klass n.
Proof.
  unfold well_typed, instance, Node_enter. destruct (state n).
  - intros Hc H; inv H. exact Hc.
  - intros _. apply instantiate_class.
Qed.

Lemma instance_own (p : path) (n : Node) (w : World) o w1 :
  instance random p n w = (o, w1) ->
  exists pre, trace w1 = pre ++ trace w /\ Forall (own p) pre.
Proof.
  unfold instance, Node_enter. destruct (state n).
  - intros H; inv H. exists []. split; [reflexivity | constructor].
  - destruct (klass n); simpl;
      try (intros H; inv H; exists [EvEnter p]; split;
           [reflexivity | repeat constructor]).
    + destruct (threshold (kwargs n)); intros H; inv H;
        (exists [EvDraw p; EvEnter p]; split; [reflexivity | repeat constructor]).
    + destruct (steps (kwargs n)); intros H; inv H;
        (exists [EvEnter p]; split; [reflexivity | repeat constructor]).
Qed.

Lemma Node_tick_ret (p : path) (n : Node) (w : World) rs n1 w1 :
  Node_tick p n w = (Ret rs, n1, w1) ->
  exists b w0 b1 cs1 w2,
    instance random p n (emit (EvTick p) w) = (Ret b, w0) /\
    Behaviour_tick truthy Node_tick p (kwargs n) b (children n) w0
      = (Ret rs, b1, cs1, w2) /\
    n1 = mkNode (name n) (klass n) cs1 (kwargs n) (if fst rs then Some b1 else None) /\
    w1 = emit (EvReturn p (fst rs) (snd rs))
           (if fst rs then w2 else emit (EvExit p (snd rs)) w2).
Proof.
  rewrite Node_tick_unfold. destruct n as [nm k cs kw st]. unfold Node_tick_body.
  destruct (instance random p (mkNode nm k cs kw st) (emit (EvTick p) w))
    as [[b|e] w0] eqn:Hi; [|discriminate].
  destruct (Behaviour_tick truthy Node_tick p kw b cs w0) as [[[r b1] cs1] w2] eqn:Hb.
  destruct r as [[[] s]|e]; simpl; intros H; inv H;
    exists b, w0, b1, cs1, w2; auto.
Qed.

(** The events of a tick that returned: those of the behaviour's tick,
    between events of the node itself. *)
Lemma Node_tick_events (p : path) (w w0 w2 : World) (rs : status) (pre ev : list Event) :
  trace w0 = pre ++ trace (emit (EvTick p) w) ->
  trace w2 = ev ++ trace w0 ->
  new_events w (emit (EvReturn p (fst rs) (snd rs))
                  (if fst rs then w2 else emit (EvExit p (snd rs)) w2))
  = (EvReturn p (fst rs) (snd rs) :: (if fst rs then [] else [EvExit p (snd rs)]))
      ++ ev ++ pre ++ [EvTick p].
Proof.
  intros H0 H2. apply new_events_app.
  destruct (fst rs); simpl; rewrite H2, H0; simpl; now rewrite <- !app_assoc.
Qed.

Lemma pick_tick_events (A : Type) (f : Event -> option A) (p : path)
    (rs : status) (pre ev : list Event) :
  (forall e, own p e -> f e = None) -> Forall (own p) pre ->
  pick f ((EvReturn p (fst rs) (snd rs) :: (if fst rs then [] else [EvExit p (snd rs)]))
            ++ ev ++ pre ++ [EvTick p])
  = pick f ev.
Proof.
  intros Hf Hpre. rewrite !pick_app.
  rewrite (pick_none f (ev:=pre)), (pick_none f (ev:=[EvTick p])).
  - rewrite (pick_none f (ev:=EvReturn p (fst rs) (snd rs) :: _)).
    + now rewrite app_nil_r.
    + destruct (fst rs); repeat constructor; apply Hf; reflexivity.
  - repeat constructor. apply Hf; reflexivity.
  - eapply Forall_impl; [|exact Hpre]. exact Hf.
Qed.

(** Whatever the outcome, a tick is the entry, the tick of the instance and
    events of the node itself. *)
Lemma Node_tick_parts (p : path) (n : Node) (w : World) o n1 w1 :
  Node_tick p n w = (o, n1, w1) ->
  (exists e, o = Raise e /\ instance random p n (emit (EvTick p) w) = (Raise e, w1))
  \/
  exists b w0 b1 cs1 w2 post,
    instance random p n (emit (EvTick p) w) = (Ret b, w0) /\
    Behaviour_tick truthy Node_tick p (kwargs n) b (children n) w0 = (o, b1, cs1, w2) /\
    trace w1 = post ++ trace w2 /\ Forall (own p) post /\
    n1 = mkNode (name n) (klass n) cs1 (kwargs n)
           (match o with Ret (false, _) => None | _ => Some b1 end) /\
    post = post_events p o /\ ndraws w1 = ndraws w2 /\ ustate w1 = ustate w2.
Proof.
  rewrite Node_tick_unfold. destruct n as [nm k cs kw st]. unfold Node_tick_body.
  destruct (instance random p (mkNode nm k cs kw st) (emit (EvTick p) w))
    as [[b|e] w0] eqn:Hi.
  2:{ intros H; inv H. left. eauto. }
  destruct (Behaviour_tick truthy Node_tick p kw b cs w0) as [[[r b1] cs1] w2] eqn:Hb.
  right. exists b, w0, b1, cs1, w2.
  destruct r as [[[] s]|e]; simpl in H; inv H.
  - exists [EvReturn p true s]. repeat split; auto. repeat constructor.
  - exists [EvReturn p false s; EvExit p s]. repeat split; auto. repeat constructor.
  - exists []. repeat split; auto.
Qed.

Lemma Behaviour_tick_class (tick : Tick) (p : path) (kw : Kwargs St Val) b
    (cs : list Node) (w : World) o b1 cs1 w1 :
  Behaviour_tick truthy tick p kw b cs w = (o, b1, cs1, w1) -> class_of b1 = class_of b.
Proof.
  unfold Behaviour_tick. destruct b;
    repeat match goal with
           | |- context [match ?x with _ => _ end] => destruct x
           end;
    intros H; inv H; reflexivity.
Qed.

(** The instance of a node always has the class of the node. *)
Lemma Node_tick_well_typed (p : path) (n : Node) (w : World) o n1 w1 :
  Node_tick p n w = (o, n1, w1) -> well_typed n -> well_typed n1.
Proof.
  rewrite Node_tick_unfold. destruct n as [nm k cs kw st]. unfold Node_tick_body.
  destruct (instance random p (mkNode nm k cs kw st) (emit (EvTick p) w))
    as [[b|e] w0] eqn:Hi.
  2:{ intros H _; inv H. exact I. }
  destruct (Behaviour_tick truthy Node_tick p kw b cs w0) as [[[r b1] cs1] w2] eqn:Hb.
  intros H Hwt. pose proof (instance_class _ _ _ Hwt Hi) as Hc.
  apply Behaviour_tick_class in Hb. simpl in Hc.
  destruct r as [[[] s]|e]; simpl in H; inv H; unfold well_typed; simpl;
    try exact I; congruence.
Qed.

Lemma Node_tick_new_events (p : path) (w w0 w2 w1 : World) (pre ev post : list Event) :
  trace w0 = pre ++ trace (emit (EvTick p) w) ->
  trace w2 = ev ++ trace w0 ->
  trace w1 = post ++ trace w2 ->
  new_events w w1 = post ++ ev ++ pre ++ [EvTick p].
Proof.
  intros H0 H2 H1. apply new_events_app.
  rewrite H1, H2, H0. simpl. now rewrite <- !app_assoc.
Qed.

Lemma pick_parts (A : Type) (f : Event -> option A) (p : path) (w w0 w2 w1 : World)
    (pre ev post : list Event) :
  (forall e, own p e -> f e = None) ->
  trace w0 = pre ++ trace (emit (EvTick p) w) -> Forall (own p) pre ->
  trace w2 = ev ++ trace w0 ->
  trace w1 = post ++ trace w2 -> Forall (own p) post ->
  pick f (new_events w w1) = pick f ev.
Proof.
  intros Hf H0 Fpre H2 H1 Fpost.
  rewrite (@new_events_app w w1 (post ++ ev ++ pre ++ [EvTick p])).
  - rewrite !pick_app.
    rewrite (pick_none f (ev:=pre)), (pick_none f (ev:=[EvTick p])),
      (pick_none f (ev:=post)).
    + now rewrite app_nil_r.
    + eapply Forall_impl; [|exact Fpost]. exact Hf.
    + repeat constructor. apply Hf; reflexivity.
    + eapply Forall_impl; [|exact Fpre]. exact Hf.
  - rewrite H1, H2, H0. simpl. now rewrite <- !app_assoc.
Qed.

Lemma child_tick_segs (p : path) (i : nat) (c : Node) (w : World) o c1 w1 :
  Node_tick (p ++ [i]) c w = (o, c1, w1) ->
  exists ev, trace w1 = ev ++ trace w /\ segs p [(i, o)] ev.
Proof.
  intros Ht. destruct (Node_tick_trace c (p ++ [i]) w) as (mid & Hmid & Hint).
  rewrite Ht in Hmid. simpl in Hmid.
  exists (ret_events (p ++ [i]) o ++ mid ++ [EvTick (p ++ [i])]). split.
  - rewrite Hmid. now rewrite <- !app_assoc.
  - simpl. exists mid, []. auto.
Qed.

(** ** Caught and uncaught exceptions of the callables *)

(** C3: an exception raised by the callable of a [do] or of an [evalb]
    node is caught and the tick returns (false, false); raised by the
    callable of a [run] node on its first tick, it leaves the tick call. *)
Theorem callable_exception_catch_or_propagate
    (p : path) (nm : string) (f : Callable St Val) (w : World) (e : Exn) (s1 : St)
    (Hraise : f (ustate w) = (Raise e, s1)) :
  fst (fst (Node_tick p (do nm f) w)) = Ret (false, false) /\
  fst (fst (Node_tick p (evalb nm f) w)) = Ret (false, false) /\
  fst (fst (Node_tick p (run nm f) w)) = Raise e.
Proof.
  repeat split; rewrite Node_tick_unfold; cbn;
    unfold Do_tick, EvalB_tick, Run_tick, call_what; cbn;
    rewrite Hraise; reflexivity.
Qed.

(** ** The empty sequence *)

(** C2: the first tick of a [sequence] without children does not return
    (false, true): the local [success] is read before any assignment. *)
Theorem empty_sequence_raises (p : path) (nm : string) (w : World) :
  fst (fst (Node_tick p (sequence nm []) w)) = Raise UnboundLocalError.
Proof. reflexivity. Qed.

(** ** A running tick reports success *)

Section RunningChildren.
Variable tick : path -> Node -> World -> outcome status * Node * World.

Local Notation children_ok := (children_ok tick).

Lemma tick_first_ris p cs w :
  children_ok cs -> running_implies_success (fst (fst (tick_first tick p cs w))).
Proof.
  intros H. destruct cs as [|c rest]; cbn.
  - intros s Hs; discriminate.
  - inv H. specialize (H2 (p ++ [0]) w).
    destruct (tick (p ++ [0]) c w) as [[r c'] w1]; exact H2.
Qed.

Lemma Sequence_loop_ris p cs : forall i ptr succ w,
  children_ok cs ->
  running_implies_success (fst (fst (fst (Sequence_loop tick p i ptr succ cs w)))).
Proof.
  induction cs as [|c rest IH]; intros i ptr succ w H; cbn.
  - destruct succ; intros s Hs; discriminate.
  - inv H. destruct (i <? ptr).
    + specialize (IH (S i) ptr succ w H3).
      destruct (Sequence_loop tick p (S i) ptr succ rest w) as [[[r q] l] w1]; exact IH.
    + specialize (H2 (p ++ [i]) w).
      destruct (tick (p ++ [i]) c w) as [[r c1] w1]; cbn in H2.
      destruct r as [[[] s]|e]; cbn; try (intros ? ?; discriminate).
      * exact H2.
      * destruct s; cbn; try (intros ? ?; discriminate).
        specialize (IH (S i) (S ptr) (Some true) w1 H3).
        destruct (Sequence_loop tick p (S i) (S ptr) (Some true) rest w1) as [[[r q] l] w2];
          exact IH.
Qed.

Lemma Select_loop_ris p cs : forall i ptr succ w,
  children_ok cs ->
  running_implies_success (fst (fst (fst (Select_loop tick p i ptr succ cs w)))).
Proof.
  induction cs as [|c rest IH]; intros i ptr succ w H; cbn.
  - destruct succ; intros s Hs; discriminate.
  - inv H. destruct (i <? ptr).
    + specialize (IH (S i) ptr succ w H3).
      destruct (Select_loop tick p (S i) ptr succ rest w) as [[[r q] l] w1]; exact IH.
    + specialize (H2 (p ++ [i]) w).
      destruct (tick (p ++ [i]) c w) as [[r c1] w1]; cbn in H2.
      destruct r as [[[] s]|e]; cbn; try (intros ? ?; discriminate).
      * exact H2.
      * destruct s; cbn; try (intros ? ?; discriminate).
        specialize (IH (S i) (S ptr) (Some false) w1 H3).
        destruct (Select_loop tick p (S i) (S ptr) (Some false) rest w1) as [[[r q] l] w2];
          exact IH.
Qed.

Lemma Behaviour_tick_ris p kw b cs w :
  children_ok cs ->
  running_implies_success (fst (fst (fst (Behaviour_tick truthy tick p kw b cs w)))).
Proof.
  intros H. destruct b; cbn.
  - unfold Do_tick. destruct (call_what p kw w) as [[v|e] w1]; intros s Hs; inv Hs.
  - unfold Run_tick. destruct wait0.
    + destruct (call_what p kw w) as [[v|e] w1]; intros s Hs; inv Hs; reflexivity.
    + intros s Hs; inv Hs.
  - unfold Repeat_tick. destruct (tick_first tick p cs w) as [[r cs1] w1].
    destruct r as [[r s0]|e]; [destruct (negb r && negb s0)|]; intros s Hs; inv Hs; reflexivity.
  - unfold Chance_tick. destruct success; cbn.
    + pose proof (tick_first_ris p w H) as Hf.
      destruct (tick_first tick p cs w) as [[r cs1] w1]; exact Hf.
    + intros s Hs; inv Hs.
  - unfold NotB_tick. destruct (tick_first tick p cs w) as [[r cs1] w1].
    destruct r as [[r s0]|e]; [destruct r|]; intros s Hs; inv Hs; reflexivity.
  - unfold Wait_tick. destruct (count <=? 0)%Z; intros s Hs; inv Hs; reflexivity.
  - unfold EvalB_tick. destruct (call_what p kw w) as [[v|e] w1]; intros s Hs; inv Hs.
  - unfold Sequence_tick. pose proof (Sequence_loop_ris p 0 pointer None w H) as Hf.
    destruct (Sequence_loop tick p 0 pointer None cs w) as [[[r q] l] w1]; exact Hf.
  - unfold Select_tick. pose proof (Select_loop_ris p 0 pointer None w H) as Hf.
    destruct (Select_loop tick p 0 pointer None cs w) as [[[r q] l] w1]; exact Hf.
  - unfold UntilB_tick. destruct (UntilB_loop tick p 0 false cs w) as [[r cs1] w1].
    destruct r as [[]|e]; intros s Hs; inv Hs; reflexivity.
  - unfold WhileB_tick. destruct (WhileB_loop tick p 0 true cs w) as [[r cs1] w1].
    destruct r as [[]|e]; intros s Hs; inv Hs; reflexivity.
  - unfold Conditional_tick. destruct cs as [|c0 rest]; [intros s Hs; inv Hs|].
    inv H. destruct (tick (p ++ [0]) c0 w) as [[r c0'] w1].
    destruct r as [[[] s0]|e]; try (intros s Hs; inv Hs; reflexivity).
    destruct s0.
    + destruct rest as [|c1 rest2]; [intros s Hs; inv Hs|].
      destruct (Conditional_switch p last_run true (hd_error rest2) w1) as [[r2 lr] w2].
      destruct r2 as [o2|e]; [|intros s Hs; inv Hs].
      assert (Hx := Forall_inv H3 (p ++ [1]) w2). cbv beta in Hx.
      destruct (tick (p ++ [1]) c1 w2) as [[r3 c1'] w3]; exact Hx.
    + destruct rest as [|c1 [|c2 rest3]]; try (intros s Hs; inv Hs; fail).
      destruct (Conditional_switch p last_run false (Some c1) w1) as [[r2 lr] w2].
      destruct r2 as [o1|e]; [|intros s Hs; inv Hs].
      assert (Hx := Forall_inv (Forall_inv_tail H3) (p ++ [2]) w2). cbv beta in Hx.
      destruct (tick (p ++ [2]) c2 w2) as [[r3 c2'] w3]; exact Hx.
Qed.

End RunningChildren.

Lemma Node_tick_ris (n : Node) : forall p w,
  running_implies_success (fst (fst (Node_tick p n w))).
Proof.
  induction n as [nm k cs kw st IH] using Node_ind; intros p w.
  rewrite Node_tick_unfold. unfold Node_tick_body.
  destruct (instance random p (mkNode nm k cs kw st) (emit (EvTick p) w))
    as [[b|e] w1]; [|intros s Hs; inv Hs].
  pose proof (Behaviour_tick_ris p kw b w1 IH) as Hb.
  destruct (Behaviour_tick truthy Node_tick p kw b cs w1) as [[[r b1] cs1] w2].
  cbn in Hb. destruct r as [[[] s0]|e]; cbn.
  - intros s Hs; inv Hs. apply Hb; reflexivity.
  - intros s Hs; inv Hs.
  - intros s Hs; inv Hs.
Qed.

(** C9: a tick that returns running = true returns success = true, for
    every node whatever its state; so the success value that
    [Sequence.tick] and [Select.tick] hand on from a running child is
    true. *)
Theorem running_tick_reports_success (p : path) (n : Node) (w : World) :
  running_implies_success (fst (fst (Node_tick p n w))) /\
  (forall ptr, running_implies_success
     (fst (fst (fst (Sequence_tick Node_tick p ptr (children n) w))))) /\
  (forall ptr, running_implies_success
     (fst (fst (fst (Select_tick Node_tick p ptr (children n) w))))).
Proof.
  split; [apply Node_tick_ris|].
  assert (Hcs : children_ok Node_tick (children n)).
  { apply Forall_forall; intros c _ q w'. apply Node_tick_ris. }
  split; intros ptr.
  - apply Sequence_loop_ris; exact Hcs.
  - apply Select_loop_ris; exact Hcs.
Qed.

(** ** Waiting *)

Lemma Wait_tick_positive (c : Z) :
  (0 < c)%Z -> Wait_tick c = (Ret (true, true), (c - 1)%Z).
Proof.
  intros H. unfold Wait_tick.
  destruct (Z.leb_spec c 0); [lia | reflexivity].
Qed.

(** A wait node in the middle of its countdown. *)
Lemma waiting_counts_down (m : nat) : forall nm cs kw (w : World) (inputs : list St),
  List.length inputs = S m ->
  results (run_ticks (mkNode nm Wait cs kw (Some (WaitB Val (Z.of_nat m)))) w inputs)
  = List.repeat (Ret (true, true)) m ++ [Ret (false, true)].
Proof.
  induction m as [|m IH]; intros nm cs kw w inputs Hlen;
    destruct inputs as [|s rest]; try discriminate.
  - destruct rest; [|discriminate]. reflexivity.
  - injection Hlen as Hlen.
    cbn [run_ticks]. unfold tick_root. rewrite Node_tick_unfold.
    cbn [Node_tick_body Behaviour_tick instance state].
    rewrite Wait_tick_positive by lia. cbn iota beta.
    replace (Z.of_nat (S m) - 1)%Z with (Z.of_nat m) by lia.
    specialize (IH nm cs kw
      (emit (EvReturn [] true true) (emit (EvTick []) (set_ustate s w))) rest Hlen).
    unfold results in *.
    destruct (run_ticks _ _ rest) as [[rs n2] w2].
    cbn in *. now rewrite IH.
Qed.

(** C7: [wait n] ticked from idle returns (true, true) on the ticks 1 to
    [n] and (false, true) on the tick [n + 1]; with [n = 0] the first tick
    returns (false, true). *)
Theorem wait_runs_n_ticks_then_succeeds (n : nat) (w : World) (inputs : list St)
    (Hlen : List.length inputs = S n) :
  results (run_ticks (wait St Val (Z.of_nat n)) w inputs)
  = List.repeat (Ret (true, true)) n ++ [Ret (false, true)].
Proof.
  destruct inputs as [|s rest]; [discriminate|]. injection Hlen as Hlen.
  destruct n as [|n].
  - destruct rest; [|discriminate]. reflexivity.
  - unfold wait. cbn [run_ticks]. unfold tick_root. rewrite Node_tick_unfold.
    cbn [Node_tick_body Behaviour_tick instance Node_enter instantiate steps state klass kwargs].
    rewrite Wait_tick_positive by lia. cbn iota beta.
    replace (Z.of_nat (S n) - 1)%Z with (Z.of_nat n) by lia.
    pose proof (waiting_counts_down "wait" [] (mkKwargs None None (Some (Z.of_nat (S n))))
      (emit (EvReturn [] true true)
         (emit (EvEnter []) (emit (EvTick []) (set_ustate s w)))) rest Hlen) as IH.
    unfold results in *.
    destruct (run_ticks _ _ rest) as [[rs n2] w2].
    cbn in *. now rewrite IH.
Qed.

(** ** The parallel composite WhileB *)

Lemma failed_log_returns (log : list (nat * outcome status)) :
  existsb child_failed (log_returns log) = existsb failed log.
Proof.
  induction log as [|[i [[r s]|e]] log IH]; simpl; [reflexivity| |exact IH].
  rewrite IH. reflexivity.
Qed.

Lemma log_returns_indices (log : list (nat * outcome status)) :
  Forall (fun x => is_ret (snd x)) log -> map fst (log_returns log) = map fst log.
Proof.
  induction 1 as [|[i [[r s]|e]] log Hx _ IH]; simpl; [reflexivity| |destruct Hx].
  now rewrite IH.
Qed.

(** C5: a tick of a WhileB node that returns has ticked every child once,
    in the order of the list, and every one of these ticks returned; it
    returns (true, true) when no child finished with failure in this cycle
    and (false, true) when one did. *)
Theorem whileb_ticks_every_child (p : path) (n : Node) (w : World)
    (rs : status) (n1 : Node) (w1 : World)
    (Hk : klass n = WhileB) (Hwt : well_typed n)
    (Htick : Node_tick p n w = (Ret rs, n1, w1)) :
  pick (tick_of p) (new_events w w1) = seq 0 (List.length (children n)) /\
  map fst (pick (return_of p) (new_events w w1)) = seq 0 (List.length (children n)) /\
  (existsb child_failed (pick (return_of p) (new_events w w1)) = false ->
   rs = (true, true)) /\
  (existsb child_failed (pick (return_of p) (new_events w w1)) = true ->
   rs = (false, true)).
Proof.
  destruct (Node_tick_ret _ _ _ Htick) as (b & w0 & b1 & cs1 & w2 & Hi & Hb & -> & ->).
  pose proof (instance_class _ _ _ Hwt Hi) as Hc. rewrite Hk in Hc.
  destruct b; try discriminate. simpl in Hb. unfold WhileB_tick in Hb.
  destruct (WhileB_loop Node_tick p 0 true (children n) w0) as [[o l] w3] eqn:Hl.
  destruct (WhileB_loop_spec _ _ _ _ _ _ Hl) as (log & Hs & Hok).
  destruct o as [rep|e]; [|discriminate].
  destruct (Hok rep eq_refl) as (Hidx & Hret & Hrep). simpl in Hrep.
  destruct (ticks_some_segs Hs (children_trace _)) as (ev & Hev & Hsegs).
  destruct (instance_own _ _ _ Hi) as (pre & Hpre & Fpre).
  assert (Hw : w3 = w2) by (destruct rep; congruence). subst w3.
  rewrite (@Node_tick_events p w w0 w2 rs pre ev Hpre Hev).
  rewrite (@pick_tick_events _ (tick_of p) p rs pre ev (@tick_of_own p) Fpre).
  rewrite (@pick_tick_events _ (return_of p) p rs pre ev (@return_of_own p) Fpre).
  rewrite (@segs_ticks p log ev Hsegs), (@segs_returns p log ev Hsegs).
  rewrite failed_log_returns, (log_returns_indices Hret), Hidx.
  split; [reflexivity|]. split; [reflexivity|].
  split; intros Hf; rewrite Hf in Hrep; simpl in Hrep; subst rep;
    simpl in Hb; congruence.
Qed.

(** ** Sequence *)

Lemma passed_log_returns (ptr k : nat) (r s : bool) :
  log_returns (passed_log ptr k ++ [(ptr + k, Ret (r, s))])
  = passed ptr k ++ [(ptr + k, (r, s))].
Proof.
  unfold log_returns, passed_log, passed. rewrite flat_map_app. simpl. f_equal.
  induction (seq ptr k) as [|j l IH]; simpl; [reflexivity | now rewrite IH].
Qed.

Lemma passed_log_indices (ptr k : nat) (o : outcome status) :
  map fst (passed_log ptr k ++ [(ptr + k, o)]) = seq ptr (S k).
Proof.
  unfold passed_log. rewrite seq_S, map_app, map_map. cbn [map fst].
  now rewrite map_id.
Qed.

(** The children one run of the loop of [Sequence.tick] ticks, when the
    tick returns: none if the pointer is past the end, else the children
    from the pointer on, all finished with success but possibly the last. *)
Lemma Sequence_loop_log (tick : Tick) (p : path) (cs : list Node) :
  forall i ptr succ (w : World) rs ptr1 cs1 w1,
  Sequence_loop tick p i ptr succ cs w = (Ret rs, ptr1, cs1, w1) ->
  i <= ptr ->
  (succ = Some (snd rs) /\ fst rs = false /\ i + List.length cs <= ptr /\
   ticks_some tick p i cs w [] cs1 w1)
  \/
  exists k r s,
    ticks_some tick p i cs w (passed_log ptr k ++ [(ptr + k, Ret (r, s))]) cs1 w1 /\
    (r = true -> rs = (true, s) /\ ptr1 = ptr + k) /\
    (r = false -> s = false -> rs = (false, false)) /\
    (r = false -> s = true -> rs = (false, true) /\ ptr + S k = i + List.length cs).
Proof.
  induction cs as [|c rest IH]; intros i ptr succ w rs ptr1 cs1 w1; simpl.
  - destruct succ as [s|]; [|discriminate]. intros H Hi; inv H.
    left. repeat split; [simpl; lia | constructor].
  - destruct (Nat.ltb_spec i ptr) as [Hlt|Hge].
    + destruct (Sequence_loop tick p (S i) ptr succ rest w) as [[[r q] l] w2] eqn:Hl.
      intros H Hi; inv H.
      destruct (IH _ _ _ _ _ _ _ _ Hl Hlt) as [(Hs & Hr & Hlen & Ht)|(k & r & s & Ht & Ha & Hb & Hc)].
      * left. repeat split; auto; [lia | now constructor].
      * right. exists k, r, s. split; [now constructor|].
        split; [exact Ha|]. split; [exact Hb|].
        intros H1 H2. destruct (Hc H1 H2). split; [assumption | simpl; lia].
    + intros H Hi. assert (i = ptr) by lia. subst i.
      destruct (tick (p ++ [ptr]) c w) as [[r c1] w2] eqn:Htk.
      destruct r as [[[] s]|e]; [| |discriminate].
      * inv H. right. exists 0, true, s. rewrite Nat.add_0_r. simpl.
        split; [eapply ts_tick; [exact Htk | constructor]|].
        split; [auto|]. split; discriminate.
      * destruct s; simpl in H.
        -- destruct (Sequence_loop tick p (S ptr) (S ptr) (Some true) rest w2)
             as [[[r q] l] w3] eqn:Hl.
           inv H.
           destruct (IH _ _ _ _ _ _ _ _ Hl (le_n _))
             as [(Hs & Hr & Hlen & Ht)|(k & r & s & Ht & Ha & Hb & Hc)].
           ++ right. exists 0, false, true. rewrite Nat.add_0_r. simpl.
              split; [eapply ts_tick; [exact Htk | exact Ht]|].
              split; [discriminate|]. split; [discriminate|].
              intros _ _. split; [|lia].
              destruct rs as [x y]; simpl in *; congruence.
           ++ right. exists (S k), r, s.
              replace (ptr + S k) with (S ptr + k) by lia.
              split; [simpl; eapply ts_tick; [exact Htk | exact Ht]|].
              split; [intros H1; destruct (Ha H1); split; [assumption | lia]|].
              split; [exact Hb|].
              intros H1 H2. destruct (Hc H1 H2). split; [assumption | simpl; lia].
        -- inv H. right. exists 0, false, false. rewrite Nat.add_0_r. simpl.
           split; [eapply ts_tick; [exact Htk | constructor]|].
           split; [discriminate|]. split; [auto | discriminate].
Qed.

(** C4: a tick of a Sequence node that returns has ticked the children
    from the pointer on (0 for a new activation), in order and each once:
    all of them but the last finished with success; when the last one is
    running the tick returns (true, child_success) and the pointer stays on
    that child; when it finished with failure the tick returns
    (false, false), no later child having been ticked; when it finished with
    success it was the last child and the tick returns (false, true). *)
Theorem sequence_advances_over_children (p : path) (n : Node) (w : World)
    (rs : status) (n1 : Node) (w1 : World)
    (Hk : klass n = Sequence) (Hwt : well_typed n)
    (Htick : Node_tick p n w = (Ret rs, n1, w1)) :
  exists k r s,
    pick (tick_of p) (new_events w w1) = seq (pointer_of n) (S k) /\
    pick (return_of p) (new_events w w1)
      = passed (pointer_of n) k ++ [(pointer_of n + k, (r, s))] /\
    pointer_of n + k < List.length (children n) /\
    (r = true -> rs = (true, s) /\ pointer_of n1 = pointer_of n + k) /\
    (r = false -> s = false -> rs = (false, false)) /\
    (r = false -> s = true ->
     rs = (false, true) /\ pointer_of n + S k = List.length (children n)).
Proof.
  destruct (Node_tick_ret _ _ _ Htick) as (b & w0 & b1 & cs1 & w2 & Hi & Hb & -> & ->).
  pose proof (instance_class _ _ _ Hwt Hi) as Hc. rewrite Hk in Hc.
  destruct b; try discriminate. simpl in Hb. unfold Sequence_tick in Hb.
  destruct (Sequence_loop Node_tick p 0 pointer None (children n) w0)
    as [[[o q] l] w3] eqn:Hl.
  inv Hb.
  assert (Hptr : pointer_of n = pointer).
  { unfold pointer_of, instance, Node_enter in *. destruct (state n) as [b|].
    - inv Hi. reflexivity.
    - rewrite Hk in Hi. simpl in Hi. inv Hi. reflexivity. }
  rewrite Hptr.
  pose proof Hl as Hx. apply Sequence_loop_log in Hx; [|apply Nat.le_0_l].
  destruct Hx as [(Hs & _)|(k & r & s & Ht & Ha & Hb & Hc1)]; [discriminate|].
  destruct (ticks_some_segs Ht (children_trace _)) as (ev & Hev & Hsegs).
  destruct (instance_own _ _ _ Hi) as (pre & Hpre & Fpre).
  rewrite (@Node_tick_events p w w0 w2 rs pre ev Hpre Hev).
  rewrite (@pick_tick_events _ (tick_of p) p rs pre ev (@tick_of_own p) Fpre).
  rewrite (@pick_tick_events _ (return_of p) p rs pre ev (@return_of_own p) Fpre).
  rewrite (@segs_ticks p _ ev Hsegs), (@segs_returns p _ ev Hsegs).
  rewrite passed_log_indices, passed_log_returns.
  exists k, r, s. split; [reflexivity|]. split; [reflexivity|].
  assert (Hlt : pointer + k < List.length (children n)).
  { pose proof (ticks_some_below Ht) as Hbelow.
    rewrite Forall_forall in Hbelow.
    apply (Hbelow (pointer + k, Ret (r, s))).
    apply in_or_app; right; now left. }
  split; [exact Hlt|].
  split.
  { intros Hr. destruct (Ha Hr) as (-> & ->). split; [reflexivity|].
    unfold pointer_of. simpl. reflexivity. }
  split; [exact Hb|]. exact Hc1.
Qed.

(** ** Conditional *)

Lemma Conditional_switch_events (p : path) lr sel (other : option Node) (w : World)
    o lr1 w1 :
  Conditional_switch p lr sel other w = (o, lr1, w1) ->
  trace w1 = switch_events p lr sel ++ trace w /\ (is_ret o -> lr1 = Some sel).
Proof.
  unfold Conditional_switch, switch_events. destruct lr as [b|].
  - destruct (Bool.eqb sel b) eqn:Hb.
    + intros H; inv H. apply eqb_prop in Hb. subst. auto.
    + destruct other as [c|].
      * destruct (Node_exit c); intros H; inv H; simpl; split; auto; intros [].
      * intros H; inv H. simpl. split; auto; intros [].
  - intros H; inv H. auto.
Qed.

Lemma switch_events_deactivations (p : path) lr sel :
  pick (deactivate_of p) (switch_events p lr sel)
  = match lr with
    | Some b => if Bool.eqb sel b then [] else [branch_index b]
    | None => []
    end.
Proof.
  unfold switch_events. destruct lr as [b|]; [|reflexivity].
  destruct (Bool.eqb sel b); [reflexivity|]. simpl. now rewrite child_of_child.
Qed.

Lemma switch_events_returns (p : path) lr sel :
  pick (return_of p) (switch_events p lr sel) = [].
Proof.
  unfold switch_events. destruct lr as [b|]; [|reflexivity].
  destruct (Bool.eqb sel b); reflexivity.
Qed.

Lemma Conditional_tick_events (p : path) lr (c0 c1 c2 : Node) (w : World)
    o lr1 cs1 w1 :
  Conditional_tick Node_tick p lr [c0; c1; c2] w = (o, lr1, cs1, w1) ->
  exists ev,
    trace w1 = ev ++ trace w /\
    pick (deactivate_of p) ev
      = match lr, selected_branch p ev with
        | Some b, Some s => if Bool.eqb s b then [] else [branch_index b]
        | _, _ => []
        end /\
    (forall x s, o = Ret (true, x) -> selected_branch p ev = Some s -> lr1 = Some s).
Proof.
  unfold Conditional_tick.
  destruct (Node_tick (p ++ [0]) c0 w) as [[r c0'] w2] eqn:Ht0.
  destruct (child_tick_segs _ _ _ _ Ht0) as (ev0 & Hev0 & Hs0).
  pose proof (segs_returns _ _ _ Hs0) as Hr0.
  pose proof (segs_deactivations _ _ _ Hs0) as Hd0.
  destruct r as [[[] s]|e].
  - intros H; inv H. exists ev0. unfold selected_branch. rewrite Hr0, Hd0. simpl.
    split; [assumption|]. split; [|discriminate].
    match goal with |- _ = match ?x with _ => _ end => destruct x; reflexivity end.
  - assert (G : forall sel (cb : Node) ib (other : option Node)
                      (put : option Node -> Node -> list Node) r2 lr2 w3,
               Conditional_switch p lr sel other w2 = (r2, lr2, w3) ->
               s = sel ->
               (match r2 with
                | Raise e => (Raise e, lr2, c0' :: c1 :: c2 :: [], w3)
                | Ret o2 =>
                    let '(r3, cb', w4) := Node_tick (p ++ [ib]) cb w3 in
                    (r3, lr2, put o2 cb', w4)
                end) = (o, lr1, cs1, w1) ->
               exists ev,
                 trace w1 = ev ++ trace w /\
                 pick (deactivate_of p) ev
                   = match lr, selected_branch p ev with
                     | Some b, Some s => if Bool.eqb s b then [] else [branch_index b]
                     | _, _ => []
                     end /\
                 (forall x s, o = Ret (true, x) ->
                              selected_branch p ev = Some s -> lr1 = Some s)).
    { intros sel cb ib other put r2 lr2 w3 Hsw -> H.
      destruct (Conditional_switch_events _ _ _ _ _ Hsw) as (Hw3 & Hlr).
      destruct r2 as [o2|e].
      - destruct (Node_tick (p ++ [ib]) cb w3) as [[r3 cb'] w4] eqn:Ht.
        destruct (child_tick_segs _ _ _ _ Ht) as (ev3 & Hev3 & Hs3).
        inv H. exists (ev3 ++ switch_events p lr sel ++ ev0).
        unfold selected_branch. rewrite !pick_app, Hr0, Hd0.
        rewrite switch_events_returns, switch_events_deactivations.
        rewrite (segs_deactivations _ _ _ Hs3). simpl. rewrite app_nil_r.
        split; [rewrite Hev3, Hw3, Hev0; now rewrite <- !app_assoc|].
        split; [reflexivity|]. intros x s0 _ Hs; inv Hs. now apply Hlr.
      - inv H. exists (switch_events p lr sel ++ ev0).
        unfold selected_branch. rewrite !pick_app, Hr0, Hd0.
        rewrite switch_events_returns, switch_events_deactivations. simpl.
        split; [rewrite Hw3, Hev0; now rewrite <- !app_assoc|].
        split; [reflexivity | discriminate]. }
    destruct s.
    + destruct (Conditional_switch p lr true (hd_error [c2]) w2) as [[r2 lr2] w3] eqn:Hsw.
      intros H.
      apply (G true c1 1 (hd_error [c2]) (fun o2 cb' => c0' :: cb' :: put_head o2 [c2])
               r2 lr2 w3 Hsw eq_refl).
      destruct r2; exact H.
    + destruct (Conditional_switch p lr false (Some c1) w2) as [[r2 lr2] w3] eqn:Hsw.
      intros H.
      apply (G false c2 2 (Some c1) (fun o1 cb' => c0' :: put_head o1 [c1] ++ cb' :: [])
               r2 lr2 w3 Hsw eq_refl).
      destruct r2; exact H.
  - intros H; inv H. exists ev0. unfold selected_branch. rewrite Hr0, Hd0. simpl.
    split; [assumption|]. split; [|discriminate].
    match goal with |- _ = match ?x with _ => _ end => destruct x; reflexivity end.
Qed.

(** C6, amended: in a tick of a Conditional node, [Node.exit] is called on a
    branch exactly when the condition finished and the branch it selects is
    not the one [last_run] holds from an earlier tick of the same
    activation: then once, on that earlier branch; not at all when the two
    agree or when no branch has been selected yet in the activation.  A
    tick that leaves the node running records the branch it selected in
    [last_run]. *)
Theorem conditional_deactivates_on_switch (p : path) (n : Node) (w : World)
    (o : outcome status) (n1 : Node) (w1 : World) (c0 c1 c2 : Node)
    (Hk : klass n = Conditional) (Hwt : well_typed n)
    (Hcs : children n = [c0; c1; c2])
    (Htick : Node_tick p n w = (o, n1, w1)) :
  pick (deactivate_of p) (new_events w w1)
    = match last_run_of n, selected_branch p (new_events w w1) with
      | Some b, Some s => if Bool.eqb s b then [] else [branch_index b]
      | _, _ => []
      end /\
  (forall x s, o = Ret (true, x) ->
               selected_branch p (new_events w w1) = Some s ->
               last_run_of n1 = Some s).
Proof.
  destruct (Node_tick_parts _ _ _ Htick)
    as [(e & -> & Hi)|(b & w0 & b1 & cs1 & w2 & post & Hi & Hb & Hw1 & Fpost & -> & _)].
  { exfalso. unfold instance, Node_enter in Hi. rewrite Hk in Hi.
    destruct (state n); discriminate. }
  pose proof (instance_class _ _ _ Hwt Hi) as Hc. rewrite Hk in Hc.
  destruct b; try discriminate. simpl in Hb. rewrite Hcs in Hb.
  destruct (Conditional_tick Node_tick p last_run [c0; c1; c2] w0)
    as [[[r lr1] l] w3] eqn:Hct.
  inv Hb.
  assert (Hlr : last_run_of n = last_run).
  { unfold last_run_of, instance, Node_enter in *. destruct (state n) as [b|].
    - inv Hi. reflexivity.
    - rewrite Hk in Hi. simpl in Hi. inv Hi. reflexivity. }
  destruct (Conditional_tick_events _ _ _ _ _ _ Hct) as (ev & Hev & Hd & Hl).
  destruct (instance_own _ _ _ Hi) as (pre & Hpre & Fpre).
  unfold selected_branch in *.
  rewrite (@pick_parts _ (deactivate_of p) p w w0 w2 w1 pre ev post
             (@deactivate_of_own p) Hpre Fpre Hev Hw1 Fpost).
  rewrite (@pick_parts _ (return_of p) p w w0 w2 w1 pre ev post
             (@return_of_own p) Hpre Fpre Hev Hw1 Fpost).
  rewrite Hlr. split; [exact Hd|].
  intros x s Ho Hs. subst o. unfold last_run_of. simpl. eapply Hl; eauto.
Qed.

(** ** Chance *)

Lemma post_events_own (p : path) (o : outcome status) : Forall (own p) (post_events p o).
Proof. destruct o as [[[] s]|e]; repeat constructor. Qed.

Lemma post_events_draws (p : path) (o : outcome status) :
  pick (draw_at p) (post_events p o) = [].
Proof. destruct o as [[[] s]|e]; reflexivity. Qed.

(** C8: a Chance node draws once, in the tick that starts an activation,
    and that draw fixes the flag [draw <= threshold] of the activation; a
    tick of a live activation draws nothing.  With the flag false the tick
    returns (false, false) and the child is not ticked; with the flag true
    the child is ticked once and the tick returns what the child
    returned. *)
Theorem chance_draws_once_per_activation (p : path) (n : Node) (w : World)
    (o : outcome status) (n1 : Node) (w1 : World) (t : Q) (c : Node)
    (Hk : klass n = Chance) (Hwt : well_typed n)
    (Ht : threshold (kwargs n) = Some t) (Hcs : children n = [c])
    (Htick : Node_tick p n w = (o, n1, w1)) :
  pick (draw_at p) (new_events w w1) = (if active n then [] else [tt]) /\
  (success_allowed t n w = false ->
   o = Ret (false, false) /\ pick (tick_of p) (new_events w w1) = [] /\
   children n1 = children n) /\
  (success_allowed t n w = true ->
   pick (tick_of p) (new_events w w1) = [0] /\
   pick (return_of p) (new_events w w1)
     = match o with Ret rs => [(0, rs)] | Raise _ => [] end) /\
  (forall x, o = Ret (true, x) -> state n1 = Some (ChanceB Val (success_allowed t n w))).
Proof.
  assert (Hinst : exists pre w0,
            instance random p n (emit (EvTick p) w)
              = (Ret (ChanceB Val (success_allowed t n w)), w0) /\
            trace w0 = pre ++ trace (emit (EvTick p) w) /\
            pre = (if active n then [] else [EvDraw p; EvEnter p])).
  { unfold instance, Node_enter, success_allowed, active, well_typed in *.
    destruct (state n) as [b|].
    - rewrite Hk in Hwt. destruct b; try discriminate.
      exists [], (emit (EvTick p) w). repeat split.
    - rewrite Hk. simpl. rewrite Ht.
      exists [EvDraw p; EvEnter p]. eexists. repeat split. }
  destruct Hinst as (pre & w0 & Hi & Hpre & Hpre_eq).
  assert (Fpre : Forall (own p) pre).
  { subst pre. destruct (active n); repeat constructor. }
  assert (Dpre : pick (draw_at p) pre = if active n then [] else [tt]).
  { subst pre. destruct (active n); simpl; [reflexivity|]. now rewrite path_eqb_refl. }
  destruct (Node_tick_parts _ _ _ Htick)
    as [(e & -> & Hi')
       |(b & w0' & b1 & cs1 & w2 & post & Hi' & Hb & Hw1 & Fpost & -> & -> & _)];
    rewrite Hi in Hi'; [discriminate|].
  clear Hpre_eq.
  assert (Hbw : b = ChanceB Val (success_allowed t n w) /\ w0' = w0)
    by (split; congruence).
  destruct Hbw as [-> ->]. clear Hi'.
  simpl in Hb. rewrite Hcs in Hb. unfold Chance_tick in Hb.
  destruct (success_allowed t n w) eqn:Hs; simpl in Hb.
  - destruct (Node_tick (p ++ [0]) c w0) as [[r c'] w3] eqn:Htc. inv Hb.
    destruct (child_tick_segs _ _ _ _ Htc) as (ev & Hev & Hsegs).
    rewrite (@pick_parts _ (tick_of p) p w w0 w2 w1 pre ev _
               (@tick_of_own p) Hpre Fpre Hev Hw1 Fpost).
    rewrite (@pick_parts _ (return_of p) p w w0 w2 w1 pre ev _
               (@return_of_own p) Hpre Fpre Hev Hw1 Fpost).
    rewrite (@Node_tick_new_events p w w0 w2 w1 pre ev _ Hpre Hev Hw1).
    rewrite !pick_app, post_events_draws, (segs_draws _ _ _ Hsegs), Dpre.
    rewrite (segs_ticks _ _ _ Hsegs), (segs_returns _ _ _ Hsegs). simpl.
    rewrite ?app_nil_r.
    split; [reflexivity|]. split; [discriminate|].
    split; [split; [reflexivity | destruct o as [[r s]|e]; reflexivity]|].
    intros x ->. reflexivity.
  - inv Hb.
    assert (Hev : trace w2 = [] ++ trace w2) by reflexivity.
    rewrite (@pick_parts _ (tick_of p) p w w2 w2 w1 pre [] _
               (@tick_of_own p) Hpre Fpre Hev Hw1 Fpost).
    rewrite (@Node_tick_new_events p w w2 w2 w1 pre [] _ Hpre Hev Hw1).
    rewrite !pick_app, post_events_draws, Dpre. simpl. rewrite ?app_nil_r.
    split; [reflexivity|]. split; [|split; discriminate].
    repeat split; congruence.
Qed.

(** ** A Run node whose effect raises *)

Lemma run_ticks_app (n : Node) (w : World) (a b : list St) :
  run_ticks n w (a ++ b)
  = let '(rs1, n1, w1) := run_ticks n w a in
    let '(rs2, n2, w2) := run_ticks n1 w1 b in
    (rs1 ++ rs2, n2, w2).
Proof.
  revert n w. induction a as [|s a IH]; intros n w; simpl.
  - destruct (run_ticks n w b) as [[rs2 n2] w2]. reflexivity.
  - destruct (tick_root truthy random n s w) as [[r n1] w1].
    rewrite IH. destruct (run_ticks n1 w1 a) as [[rs1 n2] w2].
    destruct (run_ticks n2 w2 b) as [[rs2 n3] w3]. reflexivity.
Qed.

Section RunNode.
Variable nm : string.
Variable f : Callable St Val.

Local Notation run_node := (run_node nm f).

(** A tick of the node while its instance waits, with an effect that raises. *)
Lemma run_tick_raises (rv : option Val) (s : St) (w : World) :
  ~ is_ret (fst (f s)) ->
  tick_root truthy random (run_node (Some (RunB true rv))) s w
  = (run_outcome (fst (f s)), run_node (Some (RunB true rv)),
     mkWorld (snd (f s)) (ndraws w) (EvCall [] :: EvTick [] :: trace w)).
Proof.
  intros Hf. unfold tick_root. rewrite Node_tick_unfold. cbn.
  unfold Run_tick, call_what. cbn.
  destruct (f s) as [[v|e] s1]; [destruct Hf; exact I | reflexivity].
Qed.

Lemma run_first_tick_raises (s : St) (w : World) :
  ~ is_ret (fst (f s)) ->
  tick_root truthy random (run_node None) s w
  = (run_outcome (fst (f s)), run_node (Some (RunB true None)),
     mkWorld (snd (f s)) (ndraws w) (EvCall [] :: EvEnter [] :: EvTick [] :: trace w)).
Proof.
  intros Hf. unfold tick_root. rewrite Node_tick_unfold. cbn.
  unfold Run_tick, call_what. cbn.
  destruct (f s) as [[v|e] s1]; [destruct Hf; exact I | reflexivity].
Qed.

Lemma run_ticks_raising (rv : option Val) (bad : list St) : forall (w : World),
  Forall (fun s => ~ is_ret (fst (f s))) bad ->
  exists ev w1,
    run_ticks (run_node (Some (RunB true rv))) w bad
      = (map (fun s => run_outcome (fst (f s))) bad, run_node (Some (RunB true rv)), w1) /\
    trace w1 = ev ++ trace w /\
    pick (call_at []) ev = List.repeat tt (List.length bad) /\
    pick (enter_at []) ev = [].
Proof.
  induction bad as [|s bad IH]; intros w Hbad.
  - exists [], w. repeat split.
  - inv Hbad. simpl. rewrite (@run_tick_raises rv s w H1).
    destruct (IH (mkWorld (snd (f s)) (ndraws w) (EvCall [] :: EvTick [] :: trace w)) H2)
      as (ev & w1 & -> & Hev & Hc & He).
    exists (ev ++ [EvCall []; EvTick []]), w1. split; [reflexivity|].
    split; [rewrite Hev; simpl; now rewrite <- app_assoc|].
    rewrite !pick_app, Hc, He. simpl. split; reflexivity.
Qed.

Lemma run_tick_returns (rv : option Val) (s : St) (w : World) :
  is_ret (fst (f s)) ->
  exists v w1,
    tick_root truthy random (run_node (Some (RunB true rv))) s w
      = (Ret (true, true), run_node (Some (RunB false (Some v))), w1) /\
    trace w1 = [EvReturn [] true true; EvCall []; EvTick []] ++ trace w.
Proof.
  intros Hf. unfold tick_root. rewrite Node_tick_unfold. cbn.
  unfold Run_tick, call_what. cbn.
  destruct (f s) as [[v|e] s1]; [|destruct Hf].
  eexists _, _. split; reflexivity.
Qed.

Lemma run_first_tick_returns (s : St) (w : World) :
  is_ret (fst (f s)) ->
  exists v w1,
    tick_root truthy random (run_node None) s w
      = (Ret (true, true), run_node (Some (RunB false (Some v))), w1) /\
    trace w1 = [EvReturn [] true true; EvCall []; EvEnter []; EvTick []] ++ trace w.
Proof.
  intros Hf. unfold tick_root. rewrite Node_tick_unfold. cbn.
  unfold Run_tick, call_what. cbn.
  destruct (f s) as [[v|e] s1]; [|destruct Hf].
  eexists _, _. split; reflexivity.
Qed.

End RunNode.

(** C10: while the effect of a [run] node raises, every tick ends with that
    exception and leaves the instance in place with its [wait] flag set;
    the next tick calls the effect again.  Over the ticks up to the first
    one whose effect returns, the node is entered once and the effect is
    called once per raising tick and once more. *)
Theorem run_effect_called_again_after_raise (nm : string) (f : Callable St Val)
    (w : World) (bad : list St) (good : St)
    (Hbad : Forall (fun s => ~ is_ret (fst (f s))) bad)
    (Hgood : is_ret (fst (f good))) :
  (bad <> [] ->
   state (node_after (run_ticks (run nm f) w bad)) = Some (RunB true None)) /\
  results (run_ticks (run nm f) w (bad ++ [good]))
    = map (fun s => run_outcome (fst (f s))) bad ++ [Ret (true, true)] /\
  pick (call_at [])
    (new_events w (world_after (run_ticks (run nm f) w (bad ++ [good]))))
    = List.repeat tt (S (List.length bad)) /\
  pick (enter_at [])
    (new_events w (world_after (run_ticks (run nm f) w (bad ++ [good]))))
    = [tt].
Proof.
  change (run nm f) with (run_node nm f None).
  destruct bad as [|s bad].
  - split; [congruence|]. simpl.
    destruct (@run_first_tick_returns nm f good w Hgood) as (v & w1 & -> & Hw1).
    unfold results, world_after. simpl.
    rewrite (new_events_app _ _ _ Hw1). simpl. repeat split.
  - inv Hbad. rename H1 into Hs, H2 into Hbad.
    set (w0 := mkWorld (snd (f s)) (ndraws w)
                 (EvCall [] :: EvEnter [] :: EvTick [] :: trace w)).
    destruct (@run_ticks_raising nm f None bad w0 Hbad) as (ev & w1 & Hrun & Hev & Hc & He).
    split.
    + intros _. simpl. rewrite (@run_first_tick_raises nm f s w Hs).
      fold w0. rewrite Hrun. reflexivity.
    + rewrite <- app_comm_cons. cbn [run_ticks].
      rewrite (@run_first_tick_raises nm f s w Hs). fold w0.
      rewrite run_ticks_app, Hrun. simpl.
      destruct (@run_tick_returns nm f None good w1 Hgood) as (v & w2 & -> & Hw2).
      unfold results, world_after. simpl.
      assert (Htr : trace w2 = ([EvReturn [] true true; EvCall []; EvTick []] ++ ev
                                ++ [EvCall []; EvEnter []; EvTick []]) ++ trace w).
      { rewrite Hw2, Hev. unfold w0. simpl. now rewrite <- !app_assoc. }
      rewrite (new_events_app _ _ _ Htr). rewrite !pick_app, Hc, He. simpl.
      split; [reflexivity|]. split; [|reflexivity].
      f_equal. rewrite <- (repeat_cons (List.length bad) tt). reflexivity.
Qed.

(** ** Activations and the trace *)

Lemma life_skip (x : path) (ev tr : list Event) :
  Forall (fun e => ev_path e <> x) ev -> life x (ev ++ tr) = life x tr.
Proof.
  induction 1 as [|e ev He _ IH]; [reflexivity|].
  destruct e; simpl in *; rewrite ?(path_eqb_neq He); exact IH.
Qed.

Lemma within_app (p q : path) : within p (p ++ q).
Proof. now exists q. Qed.

Lemma follows_frame (p : path) (n : Node) (ev tr : list Event) :
  Forall (fun e => ~ within p (ev_path e)) ev ->
  activation_follows p n tr -> activation_follows p n (ev ++ tr).
Proof.
  intros F H q m Hq. rewrite life_skip; [now apply H|].
  eapply Forall_impl; [|exact F]. intros e He Heq. apply He.
  rewrite Heq. apply within_app.
Qed.

Lemma within_sibling (p : path) (i k : nat) (x : path) :
  within (p ++ [k]) x -> k <> i -> ~ within (p ++ [i]) x.
Proof.
  intros (r & ->) Hki (r' & Heq). rewrite <- !app_assoc in Heq.
  apply app_inv_head in Heq. simpl in Heq. congruence.
Qed.

Lemma own_not_within_child (p : path) (i : nat) (e : Event) :
  own p e -> ~ within (p ++ [i]) (ev_path e).
Proof.
  unfold own. intros -> (r & Heq). rewrite <- app_assoc in Heq.
  symmetry in Heq. exact (@app_cons_neq p i r Heq).
Qed.

Lemma children_follow_frame (p : path) (i : nat) (cs : list Node) (ev tr : list Event) :
  Forall (fun e => forall j, i <= j -> ~ within (p ++ [j]) (ev_path e)) ev ->
  children_follow p i cs tr -> children_follow p i cs (ev ++ tr).
Proof.
  intros F H j c Hj. apply follows_frame; [|now apply H].
  eapply Forall_impl; [|exact F]. intros e He. apply He. lia.
Qed.

Lemma children_follow_tail (p : path) (i : nat) (c : Node) (cs : list Node) tr :
  children_follow p i (c :: cs) tr -> children_follow p (S i) cs tr.
Proof.
  intros H j c' Hj. replace (S i + j) with (i + S j) by lia. now apply (H (S j)).
Qed.

Lemma children_follow_cons (p : path) (i : nat) (c : Node) (cs : list Node) tr :
  activation_follows (p ++ [i]) c tr -> children_follow p (S i) cs tr ->
  children_follow p i (c :: cs) tr.
Proof.
  intros Hc Hcs [|j] c' Hj; simpl in Hj.
  - inv Hj. now rewrite Nat.add_0_r.
  - replace (i + S j) with (S i + j) by lia. now apply Hcs.
Qed.

Lemma children_follow_head (p : path) (i : nat) (c : Node) (cs : list Node) tr :
  children_follow p i (c :: cs) tr -> activation_follows (p ++ [i]) c tr.
Proof. intros H. specialize (H 0 c eq_refl). now rewrite Nat.add_0_r in H. Qed.

(** The events of the ticks of children of index [i] or more. *)
Lemma ticks_some_owner (p : path) i (cs : list Node) (w : World) log cs1 w1 :
  ticks_some Node_tick p i cs w log cs1 w1 ->
  exists ev, trace w1 = ev ++ trace w /\
    Forall (fun e => exists k, i <= k /\ within (p ++ [k]) (ev_path e)) ev.
Proof.
  intros Hs. destruct (ticks_some_segs Hs (children_trace _)) as (ev & Hev & Hsegs).
  exists ev. split; [exact Hev|].
  pose proof (ticks_some_from Hs) as Hfrom. rewrite Forall_forall in Hfrom.
  eapply Forall_impl; [|exact (segs_owner _ _ _ Hsegs)].
  intros e (x & Hx & Hw). exists (fst x). split; [now apply Hfrom | exact Hw].
Qed.

Lemma child_tick_owner (p : path) (i : nat) (c : Node) (w : World) o c1 w1 :
  Node_tick (p ++ [i]) c w = (o, c1, w1) ->
  exists ev, trace w1 = ev ++ trace w /\
    Forall (fun e => within (p ++ [i]) (ev_path e)) ev.
Proof.
  intros Ht. destruct (child_tick_segs _ _ _ _ Ht) as (ev & Hev & Hsegs).
  exists ev. split; [exact Hev|].
  eapply Forall_impl; [|exact (segs_owner _ _ _ Hsegs)].
  intros e (x & [<-|[]] & Hw). exact Hw.
Qed.

Lemma ticks_some_follow (p : path) i (cs : list Node) (w : World) log cs1 w1 :
  ticks_some Node_tick p i cs w log cs1 w1 ->
  Forall (fun x => is_ret (snd x)) log ->
  Forall preserves cs ->
  children_follow p i cs (trace w) -> children_follow p i cs1 (trace w1).
Proof.
  induction 1 as [i cs w|i c rest w log rest1 w1 Hs IH
                 |i c rest w r c1 w1 log rest1 w2 Ht Hs IH]; intros Hret Hpres Hinv.
  - exact Hinv.
  - destruct (ticks_some_owner Hs) as (ev & Hev & Fev).
    apply children_follow_cons.
    + rewrite Hev. apply follows_frame; [|exact (children_follow_head Hinv)].
      eapply Forall_impl; [|exact Fev]. intros e (k & Hk & Hw).
      eapply within_sibling; [exact Hw | lia].
    + apply IH; [exact Hret | exact (Forall_inv_tail Hpres)|].
      exact (children_follow_tail Hinv).
  - inv Hret. destruct r as [rs|e]; [|contradiction].
    destruct (ticks_some_owner Hs) as (ev & Hev & Fev).
    destruct (child_tick_owner _ _ _ _ Ht) as (ev0 & Hev0 & Fev0).
    apply children_follow_cons.
    + rewrite Hev. apply follows_frame.
      * eapply Forall_impl; [|exact Fev]. intros e (k & Hk & Hw).
        eapply within_sibling; [exact Hw | lia].
      * exact (Forall_inv Hpres _ _ _ _ _ Ht (children_follow_head Hinv)).
    + apply IH; [assumption | exact (Forall_inv_tail Hpres)|].
      rewrite Hev0. apply children_follow_frame.
      * eapply Forall_impl; [|exact Fev0]. intros e Hw j Hj.
        eapply within_sibling; [exact Hw | lia].
      * exact (children_follow_tail Hinv).
Qed.

Lemma child_events_refl (p : path) (k : nat) (w : World) : child_events p k w w.
Proof. exists []. split; [reflexivity | constructor]. Qed.

Lemma follows_other_child (p : path) (i k : nat) (c : Node) (w w1 : World) :
  child_events p k w w1 -> k <> i ->
  activation_follows (p ++ [i]) c (trace w) ->
  activation_follows (p ++ [i]) c (trace w1).
Proof.
  intros (ev & -> & F) Hk H. apply follows_frame; [|exact H].
  eapply Forall_impl; [|exact F]. intros e Hw.
  eapply within_sibling; [exact Hw | exact Hk].
Qed.

Lemma children_follow_other_child (p : path) (i k : nat) (cs : list Node) (w w1 : World) :
  child_events p k w w1 -> k < i ->
  children_follow p i cs (trace w) -> children_follow p i cs (trace w1).
Proof.
  intros (ev & -> & F) Hk H. apply children_follow_frame; [|exact H].
  eapply Forall_impl; [|exact F]. intros e Hw j Hj.
  eapply within_sibling; [exact Hw | lia].
Qed.

Lemma children_follow_own (p : path) (i : nat) (cs : list Node) (ev tr : list Event) :
  Forall (own p) ev -> children_follow p i cs tr -> children_follow p i cs (ev ++ tr).
Proof.
  intros F H. apply children_follow_frame; [|exact H].
  eapply Forall_impl; [|exact F]. intros e He j _. now apply own_not_within_child.
Qed.

Lemma call_what_own (p : path) (kw : Kwargs St Val) (w : World) o w1 :
  call_what p kw w = (o, w1) -> exists ev, trace w1 = ev ++ trace w /\ Forall (own p) ev.
Proof.
  unfold call_what. destruct (what kw) as [f|].
  - destruct (f (ustate (emit (EvCall p) w))) as [o1 s1]. intros H; inv H.
    exists [EvCall p]. split; [reflexivity | repeat constructor].
  - intros H; inv H. exists []. split; [reflexivity | constructor].
Qed.

Lemma subnode_set_state (q : path) (c : Node) st :
  q <> [] -> subnode q (set_state c st) = subnode q c.
Proof. destruct q; [congruence|]. destruct c; reflexivity. Qed.

(** [Node.exit] called from outside, with its ghost event. *)
Lemma deactivated_follows (q : path) (c c1 : Node) (tr : list Event) :
  Node_exit c = Ret c1 ->
  activation_follows q c tr -> activation_follows q c1 (EvDeactivate q :: tr).
Proof.
  unfold Node_exit. destruct (state c) eqn:Hst; [|discriminate].
  intros H; inv H. intros Hc [|j r] m Hm.
  - simpl in Hm. inv Hm. rewrite app_nil_r. simpl. rewrite path_eqb_refl.
    unfold active. destruct c; simpl. split; discriminate.
  - rewrite subnode_set_state in Hm by discriminate.
    simpl. rewrite (path_eqb_neq (x:=q) (y:=q ++ j :: r)).
    + now apply Hc.
    + intros Heq. symmetry in Heq. exact (@app_cons_neq q j r Heq).
Qed.

(** The block [if selected != self.last_run], on the branch that is not
    selected, of index [k]. *)
Lemma Conditional_switch_follow (p : path) lr (sel : bool) (c : Node) (w : World)
    o lr1 w1 :
  Conditional_switch p lr sel (Some c) w = (Ret o, lr1, w1) ->
  activation_follows (p ++ [branch_index (negb sel)]) c (trace w) ->
  exists c1, o = Some c1 /\
    activation_follows (p ++ [branch_index (negb sel)]) c1 (trace w1) /\
    child_events p (branch_index (negb sel)) w w1.
Proof.
  unfold Conditional_switch. destruct lr as [b|].
  - destruct (Bool.eqb sel b) eqn:Hb.
    + intros H; inv H. eauto using child_events_refl.
    + destruct (Node_exit c) as [c1|e] eqn:Hx; intros H; inv H.
      assert (b = negb sel) by (destruct sel, b; simpl in Hb |- *; congruence). subst b.
      intros Hc. exists c1. split; [reflexivity|]. split.
      * simpl. now apply deactivated_follows with (c := c).
      * exists [EvDeactivate (p ++ [branch_index (negb sel)])].
        split; [reflexivity|]. repeat constructor. simpl. apply within_refl.
  - intros H; inv H. eauto using child_events_refl.
Qed.

Lemma Conditional_switch_none (p : path) lr (sel : bool) (w : World) o lr1 w1 :
  Conditional_switch p lr sel (@None Node) w = (Ret o, lr1, w1) -> o = None /\ w1 = w.
Proof.
  unfold Conditional_switch. destruct lr as [b|].
  - destruct (Bool.eqb sel b); intros H; inv H. auto.
  - intros H; inv H. auto.
Qed.

Lemma child_tick_events (p : path) (i : nat) (c : Node) (w : World) o c1 w1 :
  Node_tick (p ++ [i]) c w = (o, c1, w1) -> child_events p i w w1.
Proof. apply child_tick_owner. Qed.

Lemma Conditional_tick_follow (p : path) lr (cs : list Node) (w : World)
    rs lr1 cs1 w1 :
  Conditional_tick Node_tick p lr cs w = (Ret rs, lr1, cs1, w1) ->
  Forall preserves cs ->
  children_follow p 0 cs (trace w) -> children_follow p 0 cs1 (trace w1).
Proof.
  unfold Conditional_tick. destruct cs as [|c0 rest]; [discriminate|].
  destruct (Node_tick (p ++ [0]) c0 w) as [[r c0'] w2] eqn:Ht0.
  intros H Hpres Hinv.
  pose proof (child_tick_events _ _ _ _ Ht0) as E0.
  destruct r as [[r s]|e]; [|discriminate].
  pose proof (Forall_inv Hpres _ _ _ _ _ Ht0 (children_follow_head Hinv)) as F0.
  pose proof (children_follow_other_child E0 (Nat.lt_0_1) (children_follow_tail Hinv))
    as Frest.
  destruct r.
  { inv H. now apply children_follow_cons. }
  destruct s.
  - destruct rest as [|c1 rest2]; [discriminate|].
    destruct (Conditional_switch p lr true (hd_error rest2) w2) as [[r2 lr2] w3] eqn:Hsw.
    destruct r2 as [o2|e]; [|discriminate].
    destruct (Node_tick (p ++ [1]) c1 w3) as [[r3 c1'] w4] eqn:Ht1.
    inv H. pose proof (child_tick_events _ _ _ _ Ht1) as E1.
    assert (Hsw' : child_events p 2 w2 w3 /\
                   children_follow p 2 (put_head o2 rest2) (trace w3)).
    { pose proof (children_follow_tail Frest) as F2.
      destruct rest2 as [|c2 rest3]; simpl in Hsw.
      - apply Conditional_switch_none in Hsw. destruct Hsw as (-> & ->).
        split; [apply child_events_refl | exact F2].
      - eapply Conditional_switch_follow in Hsw; [|exact (children_follow_head F2)].
        destruct Hsw as (c2' & -> & Hc2 & E2).
        split; [exact E2|]. simpl. apply children_follow_cons; [exact Hc2|].
        exact (children_follow_other_child E2 (Nat.lt_succ_diag_r 2)
                 (children_follow_tail F2)). }
    destruct Hsw' as (E2 & F2).
    apply children_follow_cons.
    + apply (follows_other_child E1); [discriminate|].
      apply (follows_other_child E2); [discriminate | exact F0].
    + apply children_follow_cons.
      * apply (Forall_inv (Forall_inv_tail Hpres) _ _ _ _ _ Ht1).
        apply (follows_other_child E2); [discriminate|].
        exact (children_follow_head Frest).
      * exact (children_follow_other_child E1 (Nat.lt_succ_diag_r 1) F2).
  - destruct rest as [|c1 [|c2 rest3]]; try discriminate.
    destruct (Conditional_switch p lr false (Some c1) w2) as [[r2 lr2] w3] eqn:Hsw.
    destruct r2 as [o1|e]; [|discriminate].
    destruct (Node_tick (p ++ [2]) c2 w3) as [[r3 c2'] w4] eqn:Ht2.
    inv H. pose proof (child_tick_events _ _ _ _ Ht2) as E2.
    eapply Conditional_switch_follow in Hsw; [|exact (children_follow_head Frest)].
    destruct Hsw as (c1' & -> & Hc1 & E1).
    simpl in *. pose proof (children_follow_tail Frest) as F2.
    apply children_follow_cons.
    + apply (follows_other_child E2); [discriminate|].
      apply (follows_other_child E1); [discriminate | exact F0].
    + apply children_follow_cons.
      * apply (follows_other_child E2); [discriminate | exact Hc1].
      * apply children_follow_cons.
        -- apply (Forall_inv (Forall_inv_tail (Forall_inv_tail Hpres)) _ _ _ _ _ Ht2).
           apply (follows_other_child E1); [discriminate|].
           exact (children_follow_head F2).
        -- pose proof (children_follow_tail F2) as F3.
           apply (children_follow_other_child E2 (Nat.lt_succ_diag_r 2)).
           apply (children_follow_other_child E1); [lia | exact F3].
Qed.

Lemma Behaviour_tick_follow (p : path) (kw : Kwargs St Val) b (cs : list Node)
    (w : World) rs b1 cs1 w1 :
  Behaviour_tick truthy Node_tick p kw b cs w = (Ret rs, b1, cs1, w1) ->
  Forall preserves cs ->
  children_follow p 0 cs (trace w) -> children_follow p 0 cs1 (trace w1).
Proof.
  intros H Hpres Hinv. destruct b; simpl in H.
  - unfold Do_tick in H. destruct (call_what p kw w) as [o w2] eqn:Hc.
    destruct (call_what_own _ _ _ Hc) as (ev & Hev & F).
    destruct o; inv H; rewrite Hev; now apply children_follow_own.
  - unfold Run_tick in H. destruct wait0.
    + destruct (call_what p kw w) as [o w2] eqn:Hc.
      destruct (call_what_own _ _ _ Hc) as (ev & Hev & F).
      destruct o; inv H. rewrite Hev; now apply children_follow_own.
    + inv H. exact Hinv.
  - unfold Repeat_tick in H. destruct (tick_first Node_tick p cs w) as [[r l] w2] eqn:Hf.
    destruct (tick_first_spec _ _ _ _ Hf) as (log & Hs & Hok).
    destruct r as [[r s]|e]; [|discriminate].
    assert (l = cs1 /\ w2 = w1) as [<- <-]
      by (destruct (negb r && negb s); inv H; auto).
    exact (ticks_some_follow Hs (Hok I) Hpres Hinv).
  - unfold Chance_tick in H. destruct (negb success).
    + inv H. exact Hinv.
    + destruct (tick_first Node_tick p cs w) as [[r l] w2] eqn:Hf.
      destruct (tick_first_spec _ _ _ _ Hf) as (log & Hs & Hok). inv H.
      exact (ticks_some_follow Hs (Hok I) Hpres Hinv).
  - unfold NotB_tick in H. destruct (tick_first Node_tick p cs w) as [[r l] w2] eqn:Hf.
    destruct (tick_first_spec _ _ _ _ Hf) as (log & Hs & Hok).
    destruct r as [[r s]|e]; [|discriminate].
    assert (l = cs1 /\ w2 = w1) as [<- <-] by (destruct r; inv H; auto).
    exact (ticks_some_follow Hs (Hok I) Hpres Hinv).
  - destruct (Wait_tick count). inv H. exact Hinv.
  - unfold EvalB_tick in H. destruct (call_what p kw w) as [o w2] eqn:Hc.
    destruct (call_what_own _ _ _ Hc) as (ev & Hev & F).
    destruct o; inv H; rewrite Hev; now apply children_follow_own.
  - unfold Sequence_tick in H.
    destruct (Sequence_loop Node_tick p 0 pointer None cs w) as [[[r q] l] w2] eqn:Hl.
    destruct (Sequence_loop_spec _ _ _ _ _ _ _ Hl) as (log & Hs & Hok). inv H.
    exact (ticks_some_follow Hs (Hok I) Hpres Hinv).
  - unfold Select_tick in H.
    destruct (Select_loop Node_tick p 0 pointer None cs w) as [[[r q] l] w2] eqn:Hl.
    destruct (Select_loop_spec _ _ _ _ _ _ _ Hl) as (log & Hs & Hok). inv H.
    exact (ticks_some_follow Hs (Hok I) Hpres Hinv).
  - unfold UntilB_tick in H.
    destruct (UntilB_loop Node_tick p 0 false cs w) as [[r l] w2] eqn:Hl.
    destruct (UntilB_loop_spec _ _ _ _ _ _ Hl) as (log & Hs & Hok).
    destruct r as [ex|e]; [|discriminate].
    destruct (Hok ex eq_refl) as (_ & Hret & _).
    assert (l = cs1 /\ w2 = w1) as [<- <-] by (destruct ex; inv H; auto).
    exact (ticks_some_follow Hs Hret Hpres Hinv).
  - unfold WhileB_tick in H.
    destruct (WhileB_loop Node_tick p 0 true cs w) as [[r l] w2] eqn:Hl.
    destruct (WhileB_loop_spec _ _ _ _ _ _ Hl) as (log & Hs & Hok).
    destruct r as [rep|e]; [|discriminate].
    destruct (Hok rep eq_refl) as (_ & Hret & _).
    assert (l = cs1 /\ w2 = w1) as [<- <-] by (destruct rep; inv H; auto).
    exact (ticks_some_follow Hs Hret Hpres Hinv).
  - destruct (Conditional_tick Node_tick p last_run cs w) as [[[r lr] l] w2] eqn:Hc.
    inv H. eapply Conditional_tick_follow; eauto.
Qed.

Lemma follows_children (p : path) (n : Node) (tr : list Event) :
  activation_follows p n tr -> children_follow p 0 (children n) tr.
Proof.
  intros H j c Hj q m Hq. rewrite <- app_assoc. simpl.
  apply (H (j :: q)). simpl. now rewrite Hj.
Qed.

(** One tick that returns keeps the activations of the tree in step with
    the trace. *)
Lemma Node_tick_preserves (n : Node) : preserves n.
Proof.
  induction n as [nm k cs kw st IH] using Node_ind.
  intros p w rs n1 w1 Htick Hinv.
  destruct (Node_tick_parts _ _ _ Htick)
    as [(e & He & _)
       |(b & w0 & b1 & cs1 & w2 & post & Hi & Hb & Hw1 & Fpost & -> & Hpost & _)];
    [discriminate|].
  destruct (instance_own _ _ _ Hi) as (pre & Hpre & Fpre).
  simpl in Hb.
  assert (Hcs : children_follow p 0 cs1 (trace w2)).
  { eapply Behaviour_tick_follow; [exact Hb | exact IH |].
    rewrite Hpre. apply children_follow_own; [exact Fpre|].
    change (trace (emit (EvTick p) w)) with ([EvTick p] ++ trace w).
    apply children_follow_own; [repeat constructor|].
    exact (follows_children Hinv). }
  intros [|j q] m Hm.
  - simpl in Hm. inv Hm. rewrite app_nil_r, Hw1. destruct rs as [[] s]; simpl.
    + rewrite path_eqb_refl. unfold active. simpl. split; reflexivity.
    + rewrite path_eqb_refl. unfold active. simpl. split; discriminate.
  - rewrite Hw1, life_skip.
    + simpl in Hm. destruct (nth_error cs1 j) as [c|] eqn:Hj; [|discriminate].
      specialize (Hcs j c Hj q m Hm). rewrite <- app_assoc in Hcs. exact Hcs.
    + eapply Forall_impl; [|exact Fpost]. unfold own. intros e -> Heq.
      symmetry in Heq. exact (@app_cons_neq p j q Heq).
Qed.

Lemma idle_children (nm : string) k (cs : list Node) kw st :
  idle (mkNode nm k cs kw st) = true -> st = None /\ forallb (@idle St Val) cs = true.
Proof. simpl. destruct st; [discriminate | auto]. Qed.

Lemma idle_subnode (n : Node) : forall q m,
  idle n = true -> subnode q n = Some m -> active m = false.
Proof.
  induction n as [nm k cs kw st IH] using Node_ind. intros q m Hidle Hm.
  destruct (idle_children _ _ _ _ _ Hidle) as (-> & Hcs).
  destruct q as [|j q]; simpl in Hm.
  - inv Hm. reflexivity.
  - destruct (nth_error cs j) as [c|] eqn:Hj; [|discriminate].
    pose proof (nth_error_In _ _ Hj) as Hin.
    rewrite Forall_forall in IH. apply (IH c Hin q m); [|exact Hm].
    rewrite forallb_forall in Hcs. now apply Hcs.
Qed.

Lemma run_ticks_follow (inputs : list St) : forall (n : Node) (w : World),
  activation_follows [] n (trace w) ->
  Forall (fun r => is_ret r) (results (run_ticks n w inputs)) ->
  activation_follows [] (node_after (run_ticks n w inputs))
    (trace (world_after (run_ticks n w inputs))).
Proof.
  induction inputs as [|s inputs IH]; intros n w Hinv Hret; [exact Hinv|].
  simpl in *. unfold tick_root in *.
  destruct (Node_tick [] n (set_ustate s w)) as [[r n1] w1] eqn:Ht.
  specialize (IH n1 w1).
  destruct (run_ticks n1 w1 inputs) as [[rs n2] w2].
  unfold results, node_after, world_after in *. simpl in *.
  inv Hret. destruct r as [rs0|e]; [|contradiction].
  apply IH; [|assumption].
  eapply (@Node_tick_preserves n); [exact Ht | exact Hinv].
Qed.

(** C1, amended: in a tree that started idle and whose ticks so far all
    returned, a node has an instance exactly when the most recent of its
    completed ticks and of its deactivations by a Conditional is a tick
    that returned running = true. *)
Theorem active_iff_running_and_not_deactivated (root : Node) (s0 : St) (k : nat)
    (inputs : list St) (q : path) (m : Node)
    (Hidle : idle root = true)
    (Hret : Forall (fun r => is_ret r)
              (results (run_ticks root (mkWorld s0 k []) inputs)))
    (Hq : subnode q (node_after (run_ticks root (mkWorld s0 k []) inputs)) = Some m) :
  active m = true <->
  life q (trace (world_after (run_ticks root (mkWorld s0 k []) inputs)))
    = Some (Returned true).
Proof.
  assert (H0 : activation_follows [] root (trace (mkWorld s0 k []))).
  { intros q0 m0 Hm0. rewrite (idle_subnode _ _ Hidle Hm0). simpl.
    split; discriminate. }
  exact (@run_ticks_follow inputs root _ H0 Hret q m Hq).
Qed.

(** ** The path and the trace do not steer a tick *)

Lemma agree_refl (w : World) : agree w w.
Proof. split; reflexivity. Qed.

Lemma agree_emit (e1 e2 : Event) (w1 w2 : World) :
  agree w1 w2 -> agree (emit e1 w1) (emit e2 w2).
Proof. intros [Hu Hd]. split; assumption. Qed.

Lemma call_what_agree (p q : path) (kw : Kwargs St Val) (w1 w2 : World) :
  agree w1 w2 -> same_effect (call_what p kw w1) (call_what q kw w2).
Proof.
  intros [Hu Hd]. unfold call_what. destruct (what kw) as [f|].
  - simpl. rewrite Hu. destruct (f (ustate w2)) as [o s]. repeat split. exact Hd.
  - repeat split; assumption.
Qed.

Lemma instantiate_agree (p q : path) k (kw : Kwargs St Val) (w1 w2 : World) :
  agree w1 w2 ->
  same_effect (instantiate random p k kw w1) (instantiate random q k kw w2).
Proof.
  intros [Hu Hd]. destruct k; simpl; try (repeat split; assumption).
  - rewrite Hd. destruct (threshold kw); repeat split; simpl; congruence.
  - destruct (steps kw); repeat split; assumption.
Qed.

Lemma instance_agree (p q : path) (n : Node) (w1 w2 : World) :
  agree w1 w2 -> same_effect (instance random p n w1) (instance random q n w2).
Proof.
  intros H. unfold instance, Node_enter. destruct (state n).
  - split; [reflexivity | exact H].
  - apply instantiate_agree. now apply agree_emit.
Qed.

Section AgreeChildren.
Variable tick : Tick.

Local Notation children_agree := (children_agree tick).

Ltac same_tick Hc p q w1 w2 Hag o w w0 A :=
  let E := fresh "E" in
  let o' := fresh "o" in let c := fresh "c" in let c' := fresh "c" in
  destruct (Hc p q w1 w2 Hag) as [E A];
  destruct (tick p _ w1) as [[o' c'] w]; destruct (tick q _ w2) as [[o c] w0];
  simpl in E, A; injection E as -> ->.

Lemma tick_first_agree (p q : path) cs (w1 w2 : World) :
  children_agree cs -> agree w1 w2 ->
  same_effect (tick_first tick p cs w1) (tick_first tick q cs w2).
Proof.
  intros Hcs Hag. destruct cs as [|c rest]; simpl.
  - split; [reflexivity | exact Hag].
  - same_tick (Forall_inv Hcs) (p ++ [0]) (q ++ [0]) w1 w2 Hag o w w0 A.
    split; [reflexivity | exact A].
Qed.

Lemma Sequence_loop_agree (p q : path) cs : forall i ptr succ (w1 w2 : World),
  children_agree cs -> agree w1 w2 ->
  same_effect (Sequence_loop tick p i ptr succ cs w1)
    (Sequence_loop tick q i ptr succ cs w2).
Proof.
  induction cs as [|c rest IH]; intros i ptr succ w1 w2 Hcs Hag; simpl.
  - split; [reflexivity | exact Hag].
  - destruct (i <? ptr).
    + destruct (IH (S i) ptr succ w1 w2 (Forall_inv_tail Hcs) Hag) as [E A].
      destruct (Sequence_loop tick p (S i) ptr succ rest w1) as [[[? ?] ?] ?].
      destruct (Sequence_loop tick q (S i) ptr succ rest w2) as [[[? ?] ?] ?].
      simpl in E, A; inv E. split; [reflexivity | exact A].
    + same_tick (Forall_inv Hcs) (p ++ [i]) (q ++ [i]) w1 w2 Hag o w w0 A.
      destruct o as [[[] s]|e]; try (split; [reflexivity | exact A]).
      destruct s; simpl; try (split; [reflexivity | exact A]).
      destruct (IH (S i) (S ptr) (Some true) w w0 (Forall_inv_tail Hcs) A) as [E A1].
      destruct (Sequence_loop tick p (S i) (S ptr) (Some true) rest w) as [[[? ?] ?] ?].
      destruct (Sequence_loop tick q (S i) (S ptr) (Some true) rest w0) as [[[? ?] ?] ?].
      simpl in E, A1; inv E. split; [reflexivity | exact A1].
Qed.

Lemma Select_loop_agree (p q : path) cs : forall i ptr succ (w1 w2 : World),
  children_agree cs -> agree w1 w2 ->
  same_effect (Select_loop tick p i ptr succ cs w1)
    (Select_loop tick q i ptr succ cs w2).
Proof.
  induction cs as [|c rest IH]; intros i ptr succ w1 w2 Hcs Hag; simpl.
  - split; [reflexivity | exact Hag].
  - destruct (i <? ptr).
    + destruct (IH (S i) ptr succ w1 w2 (Forall_inv_tail Hcs) Hag) as [E A].
      destruct (Select_loop tick p (S i) ptr succ rest w1) as [[[? ?] ?] ?].
      destruct (Select_loop tick q (S i) ptr succ rest w2) as [[[? ?] ?] ?].
      simpl in E, A; inv E. split; [reflexivity | exact A].
    + same_tick (Forall_inv Hcs) (p ++ [i]) (q ++ [i]) w1 w2 Hag o w w0 A.
      destruct o as [[[] s]|e]; try (split; [reflexivity | exact A]).
      destruct s; simpl; try (split; [reflexivity | exact A]).
      destruct (IH (S i) (S ptr) (Some false) w w0 (Forall_inv_tail Hcs) A) as [E A1].
      destruct (Select_loop tick p (S i) (S ptr) (Some false) rest w) as [[[? ?] ?] ?].
      destruct (Select_loop tick q (S i) (S ptr) (Some false) rest w0) as [[[? ?] ?] ?].
      simpl in E, A1; inv E. split; [reflexivity | exact A1].
Qed.

Lemma UntilB_loop_agree (p q : path) cs : forall i ex (w1 w2 : World),
  children_agree cs -> agree w1 w2 ->
  same_effect (UntilB_loop tick p i ex cs w1) (UntilB_loop tick q i ex cs w2).
Proof.
  induction cs as [|c rest IH]; intros i ex w1 w2 Hcs Hag; simpl.
  - split; [reflexivity | exact Hag].
  - same_tick (Forall_inv Hcs) (p ++ [i]) (q ++ [i]) w1 w2 Hag o w w0 A.
    destruct o as [[r s]|e]; try (split; [reflexivity | exact A]).
    destruct (IH (S i) (if negb r then ex || s else ex) w w0 (Forall_inv_tail Hcs) A)
      as [E A1].
    destruct (UntilB_loop tick p (S i) _ rest w) as [[? ?] ?].
    destruct (UntilB_loop tick q (S i) _ rest w0) as [[? ?] ?].
    simpl in E, A1; inv E. split; [reflexivity | exact A1].
Qed.

Lemma WhileB_loop_agree (p q : path) cs : forall i rep (w1 w2 : World),
  children_agree cs -> agree w1 w2 ->
  same_effect (WhileB_loop tick p i rep cs w1) (WhileB_loop tick q i rep cs w2).
Proof.
  induction cs as [|c rest IH]; intros i rep w1 w2 Hcs Hag; simpl.
  - split; [reflexivity | exact Hag].
  - same_tick (Forall_inv Hcs) (p ++ [i]) (q ++ [i]) w1 w2 Hag o w w0 A.
    destruct o as [[r s]|e]; try (split; [reflexivity | exact A]).
    destruct (IH (S i) (if negb r then rep && s else rep) w w0 (Forall_inv_tail Hcs) A)
      as [E A1].
    destruct (WhileB_loop tick p (S i) _ rest w) as [[? ?] ?].
    destruct (WhileB_loop tick q (S i) _ rest w0) as [[? ?] ?].
    simpl in E, A1; inv E. split; [reflexivity | exact A1].
Qed.

Lemma Conditional_switch_agree (p q : path) lr sel (other : option Node) (w1 w2 : World) :
  agree w1 w2 ->
  same_effect (Conditional_switch p lr sel other w1) (Conditional_switch q lr sel other w2).
Proof.
  intros Hag. unfold Conditional_switch. destruct lr as [b|].
  - destruct (Bool.eqb sel b); [split; [reflexivity | exact Hag]|].
    destruct other as [c|]; [destruct (Node_exit c)|];
      (split; [reflexivity | now apply agree_emit]).
  - split; [reflexivity | exact Hag].
Qed.

Lemma Conditional_tick_agree (p q : path) lr cs (w1 w2 : World) :
  children_agree cs -> agree w1 w2 ->
  same_effect (Conditional_tick tick p lr cs w1) (Conditional_tick tick q lr cs w2).
Proof.
  intros Hcs Hag. unfold Conditional_tick. destruct cs as [|c0 rest].
  { split; [reflexivity | exact Hag]. }
  same_tick (Forall_inv Hcs) (p ++ [0]) (q ++ [0]) w1 w2 Hag o w w0 A.
  destruct o as [[[] s]|e]; try (split; [reflexivity | exact A]).
  destruct s.
  - destruct rest as [|c1 rest2]; [split; [reflexivity | exact A]|].
    destruct (Conditional_switch_agree p q lr true (hd_error rest2) A) as [E A1].
    destruct (Conditional_switch p lr true (hd_error rest2) w) as [[o2' lr2'] w3].
    destruct (Conditional_switch q lr true (hd_error rest2) w0) as [[o2 lr2] w4].
    simpl in E, A1; injection E as -> ->.
    destruct o2 as [o2|e]; [|split; [reflexivity | exact A1]].
    same_tick (Forall_inv (Forall_inv_tail Hcs)) (p ++ [1]) (q ++ [1]) w3 w4 A1
      o3 w5 w6 A2.
    split; [reflexivity | assumption].
  - destruct rest as [|c1 [|c2 rest3]]; try (split; [reflexivity | exact A]).
    destruct (Conditional_switch_agree p q lr false (Some c1) A) as [E A1].
    destruct (Conditional_switch p lr false (Some c1) w) as [[o2' lr2'] w3].
    destruct (Conditional_switch q lr false (Some c1) w0) as [[o2 lr2] w4].
    simpl in E, A1; injection E as -> ->.
    destruct o2 as [o1|e]; [|split; [reflexivity | exact A1]].
    same_tick (Forall_inv (Forall_inv_tail (Forall_inv_tail Hcs)))
      (p ++ [2]) (q ++ [2]) w3 w4 A1 o3 w5 w6 A2.
    split; [reflexivity | assumption].
Qed.

Ltac same_call f g x A :=
  let E := fresh "E" in
  let x' := fresh "x" in let wa := fresh "w" in let wb := fresh "w" in
  match goal with
  | H : same_effect f g |- _ =>
      destruct H as [E A]; destruct f as [x' wa]; destruct g as [x wb];
      simpl in E, A; subst x'
  end.

Lemma Behaviour_tick_agree (p q : path) (kw : Kwargs St Val) b cs (w1 w2 : World) :
  children_agree cs -> agree w1 w2 ->
  same_effect (Behaviour_tick truthy tick p kw b cs w1)
    (Behaviour_tick truthy tick q kw b cs w2).
Proof.
  intros Hcs Hag.
  pose proof (call_what_agree p q kw Hag) as Hcall.
  pose proof (tick_first_agree p q Hcs Hag) as Hfirst.
  destruct b; simpl.
  - unfold Do_tick. same_call (call_what p kw w1) (call_what q kw w2) o A.
    destruct o; (split; [reflexivity | exact A]).
  - unfold Run_tick. destruct wait0; [|split; [reflexivity | exact Hag]].
    same_call (call_what p kw w1) (call_what q kw w2) o A.
    destruct o; (split; [reflexivity | exact A]).
  - unfold Repeat_tick. same_call (tick_first tick p cs w1) (tick_first tick q cs w2) p0 A.
    destruct p0 as [[[r s]|e] l]; [destruct (negb r && negb s)|];
      (split; [reflexivity | exact A]).
  - unfold Chance_tick. destruct (negb success); [split; [reflexivity | exact Hag]|].
    same_call (tick_first tick p cs w1) (tick_first tick q cs w2) p0 A.
    destruct p0 as [r l]. split; [reflexivity | exact A].
  - unfold NotB_tick. same_call (tick_first tick p cs w1) (tick_first tick q cs w2) p0 A.
    destruct p0 as [[[[] s]|e] l]; (split; [reflexivity | exact A]).
  - destruct (Wait_tick count). split; [reflexivity | exact Hag].
  - unfold EvalB_tick. same_call (call_what p kw w1) (call_what q kw w2) o A.
    destruct o; (split; [reflexivity | exact A]).
  - unfold Sequence_tick.
    pose proof (Sequence_loop_agree p q 0 pointer None Hcs Hag) as H.
    same_call (Sequence_loop tick p 0 pointer None cs w1)
      (Sequence_loop tick q 0 pointer None cs w2) p0 A.
    destruct p0 as [[r ptr] l]. split; [reflexivity | exact A].
  - unfold Select_tick.
    pose proof (Select_loop_agree p q 0 pointer None Hcs Hag) as H.
    same_call (Select_loop tick p 0 pointer None cs w1)
      (Select_loop tick q 0 pointer None cs w2) p0 A.
    destruct p0 as [[r ptr] l]. split; [reflexivity | exact A].
  - unfold UntilB_tick. pose proof (UntilB_loop_agree p q 0 false Hcs Hag) as H.
    same_call (UntilB_loop tick p 0 false cs w1) (UntilB_loop tick q 0 false cs w2) p0 A.
    destruct p0 as [[[]|e] l]; (split; [reflexivity | exact A]).
  - unfold WhileB_tick. pose proof (WhileB_loop_agree p q 0 true Hcs Hag) as H.
    same_call (WhileB_loop tick p 0 true cs w1) (WhileB_loop tick q 0 true cs w2) p0 A.
    destruct p0 as [[[]|e] l]; (split; [reflexivity | exact A]).
  - pose proof (Conditional_tick_agree p q last_run Hcs Hag) as H.
    same_call (Conditional_tick tick p last_run cs w1)
      (Conditional_tick tick q last_run cs w2) p0 A.
    destruct p0 as [[r lr] l]. split; [reflexivity | exact A].
Qed.

End AgreeChildren.

Lemma Node_tick_agree (n : Node) : forall p q (w1 w2 : World),
  agree w1 w2 -> same_effect (Node_tick p n w1) (Node_tick q n w2).
Proof.
  induction n as [nm k cs kw st IH] using Node_ind. intros p q w1 w2 Hag.
  rewrite !Node_tick_unfold. unfold Node_tick_body.
  destruct (instance_agree p q (mkNode nm k cs kw st)
              (agree_emit (EvTick p) (EvTick q) Hag)) as [E A].
  destruct (instance random p (mkNode nm k cs kw st) (emit (EvTick p) w1)) as [ob w3].
  destruct (instance random q (mkNode nm k cs kw st) (emit (EvTick q) w2)) as [ob' w4].
  simpl in E, A. subst ob'.
  destruct ob as [b|e]; [|split; [reflexivity | exact A]].
  destruct (Behaviour_tick_agree p q kw b IH A) as [E1 A1].
  destruct (Behaviour_tick truthy Node_tick p kw b cs w3) as [[[r b1] cs1] w5].
  destruct (Behaviour_tick truthy Node_tick q kw b cs w4) as [[[r' b1'] cs1'] w6].
  simpl in E1, A1. inv E1.
  destruct r' as [[[] s]|e]; simpl; (split; [reflexivity|]);
    repeat apply agree_emit; exact A1.
Qed.

(** X1: what a tick returns, what it does to the tree, to the state of the
    caller and to the random stream is the same wherever the node sits in
    a tree and whatever has been logged before: the parent chain only feeds
    the text of the log. *)
Theorem tick_independent_of_position (p q : path) (n : Node) (w1 w2 : World)
    (Hstate : ustate w1 = ustate w2) (Hdraws : ndraws w1 = ndraws w2) :
  fst (Node_tick p n w1) = fst (Node_tick q n w2) /\
  ustate (snd (Node_tick p n w1)) = ustate (snd (Node_tick q n w2)) /\
  ndraws (snd (Node_tick p n w1)) = ndraws (snd (Node_tick q n w2)).
Proof.
  destruct (Node_tick_agree n p q (conj Hstate Hdraws)) as [E [Hu Hd]]. auto.
Qed.

(** ** Select and UntilB *)

Lemma rejected_log_returns (ptr k : nat) (r s : bool) :
  log_returns (rejected_log ptr k ++ [(ptr + k, Ret (r, s))])
  = rejected ptr k ++ [(ptr + k, (r, s))].
Proof.
  unfold log_returns, rejected_log, rejected. rewrite flat_map_app. simpl. f_equal.
  induction (seq ptr k) as [|j l IH]; simpl; [reflexivity | now rewrite IH].
Qed.

Lemma rejected_log_indices (ptr k : nat) (o : outcome status) :
  map fst (rejected_log ptr k ++ [(ptr + k, o)]) = seq ptr (S k).
Proof.
  unfold rejected_log. rewrite seq_S, map_app, map_map. cbn [map fst].
  now rewrite map_id.
Qed.

Lemma Select_loop_log (tick : Tick) (p : path) (cs : list Node) :
  forall i ptr succ (w : World) rs ptr1 cs1 w1,
  Select_loop tick p i ptr succ cs w = (Ret rs, ptr1, cs1, w1) ->
  i <= ptr ->
  (succ = Some (snd rs) /\ fst rs = false /\ i + List.length cs <= ptr /\
   ticks_some tick p i cs w [] cs1 w1)
  \/
  exists k r s,
    ticks_some tick p i cs w (rejected_log ptr k ++ [(ptr + k, Ret (r, s))]) cs1 w1 /\
    (r = true -> rs = (true, s) /\ ptr1 = ptr + k) /\
    (r = false -> s = true -> rs = (false, true)) /\
    (r = false -> s = false -> rs = (false, false) /\ ptr + S k = i + List.length cs).
Proof.
  induction cs as [|c rest IH]; intros i ptr succ w rs ptr1 cs1 w1; simpl.
  - destruct succ as [s|]; [|discriminate]. intros H Hi; inv H.
    left. repeat split; [simpl; lia | constructor].
  - destruct (Nat.ltb_spec i ptr) as [Hlt|Hge].
    + destruct (Select_loop tick p (S i) ptr succ rest w) as [[[r q] l] w2] eqn:Hl.
      intros H Hi; inv H.
      destruct (IH _ _ _ _ _ _ _ _ Hl Hlt)
        as [(Hs & Hr & Hlen & Ht)|(k & r & s & Ht & Ha & Hb & Hc)].
      * left. repeat split; auto; [lia | now constructor].
      * right. exists k, r, s. split; [now constructor|].
        split; [exact Ha|]. split; [exact Hb|].
        intros H1 H2. destruct (Hc H1 H2). split; [assumption | simpl; lia].
    + intros H Hi. assert (i = ptr) by lia. subst i.
      destruct (tick (p ++ [ptr]) c w) as [[r c1] w2] eqn:Htk.
      destruct r as [[[] s]|e]; [| |discriminate].
      * inv H. right. exists 0, true, s. rewrite Nat.add_0_r. simpl.
        split; [eapply ts_tick; [exact Htk | constructor]|].
        split; [auto|]. split; discriminate.
      * destruct s; simpl in H.
        -- inv H. right. exists 0, false, true. rewrite Nat.add_0_r. simpl.
           split; [eapply ts_tick; [exact Htk | constructor]|].
           split; [discriminate|]. split; [auto | discriminate].
        -- destruct (Select_loop tick p (S ptr) (S ptr) (Some false) rest w2)
             as [[[r q] l] w3] eqn:Hl.
           inv H.
           destruct (IH _ _ _ _ _ _ _ _ Hl (le_n _))
             as [(Hs & Hr & Hlen & Ht)|(k & r & s & Ht & Ha & Hb & Hc)].
           ++ right. exists 0, false, false. rewrite Nat.add_0_r. simpl.
              split; [eapply ts_tick; [exact Htk | exact Ht]|].
              split; [discriminate|]. split; [discriminate|].
              intros _ _. split; [|lia].
              destruct rs as [x y]; simpl in *; congruence.
           ++ right. exists (S k), r, s.
              replace (ptr + S k) with (S ptr + k) by lia.
              split; [simpl; eapply ts_tick; [exact Htk | exact Ht]|].
              split; [intros H1; destruct (Ha H1); split; [assumption | lia]|].
              split; [exact Hb|].
              intros H1 H2. destruct (Hc H1 H2). split; [assumption | simpl; lia].
Qed.

(** X2: a tick of a Select node that returns has ticked the children from
    the pointer on, in order and each once: all of them but the last
    finished with failure; when the last one is running the tick returns
    (true, child_success) and the pointer stays on that child; when it
    finished with success the tick returns (false, true), no later child
    having been ticked; when it finished with failure it was the last
    child and the tick returns (false, false). *)
Theorem select_advances_over_children (p : path) (n : Node) (w : World)
    (rs : status) (n1 : Node) (w1 : World)
    (Hk : klass n = Select) (Hwt : well_typed n)
    (Htick : Node_tick p n w = (Ret rs, n1, w1)) :
  exists k r s,
    pick (tick_of p) (new_events w w1) = seq (pointer_of n) (S k) /\
    pick (return_of p) (new_events w w1)
      = rejected (pointer_of n) k ++ [(pointer_of n + k, (r, s))] /\
    pointer_of n + k < List.length (children n) /\
    (r = true -> rs = (true, s) /\ pointer_of n1 = pointer_of n + k) /\
    (r = false -> s = true -> rs = (false, true)) /\
    (r = false -> s = false ->
     rs = (false, false) /\ pointer_of n + S k = List.length (children n)).
Proof.
  destruct (Node_tick_ret _ _ _ Htick) as (b & w0 & b1 & cs1 & w2 & Hi & Hb & -> & ->).
  pose proof (instance_class _ _ _ Hwt Hi) as Hc. rewrite Hk in Hc.
  destruct b; try discriminate. simpl in Hb. unfold Select_tick in Hb.
  destruct (Select_loop Node_tick p 0 pointer None (children n) w0)
    as [[[o q] l] w3] eqn:Hl.
  inv Hb.
  assert (Hptr : pointer_of n = pointer).
  { unfold pointer_of, instance, Node_enter in *. destruct (state n) as [b|].
    - inv Hi. reflexivity.
    - rewrite Hk in Hi. simpl in Hi. inv Hi. reflexivity. }
  rewrite Hptr.
  pose proof Hl as Hx. apply Select_loop_log in Hx; [|apply Nat.le_0_l].
  destruct Hx as [(Hs & _)|(k & r & s & Ht & Ha & Hb & Hc1)]; [discriminate|].
  destruct (ticks_some_segs Ht (children_trace _)) as (ev & Hev & Hsegs).
  destruct (instance_own _ _ _ Hi) as (pre & Hpre & Fpre).
  rewrite (@Node_tick_events p w w0 w2 rs pre ev Hpre Hev).
  rewrite (@pick_tick_events _ (tick_of p) p rs pre ev (@tick_of_own p) Fpre).
  rewrite (@pick_tick_events _ (return_of p) p rs pre ev (@return_of_own p) Fpre).
  rewrite (@segs_ticks p _ ev Hsegs), (@segs_returns p _ ev Hsegs).
  rewrite rejected_log_indices, rejected_log_returns.
  exists k, r, s. split; [reflexivity|]. split; [reflexivity|].
  assert (Hlt : pointer + k < List.length (children n)).
  { pose proof (ticks_some_below Ht) as Hbelow.
    rewrite Forall_forall in Hbelow.
    apply (Hbelow (pointer + k, Ret (r, s))).
    apply in_or_app; right; now left. }
  split; [exact Hlt|].
  split.
  { intros Hr. destruct (Ha Hr) as (-> & ->). split; [reflexivity|].
    unfold pointer_of. simpl. reflexivity. }
  split; [exact Hb|]. exact Hc1.
Qed.

Lemma succeeded_log_returns (log : list (nat * outcome status)) :
  existsb child_succeeded (log_returns log) = existsb succeeded log.
Proof.
  induction log as [|[i [[r s]|e]] log IH]; simpl; [reflexivity| |exact IH].
  rewrite IH. reflexivity.
Qed.

(** X3: a tick of an UntilB node that returns has ticked every child once,
    in the order of the list, and every one of these ticks returned; it
    returns (false, true) when a child finished with success in this cycle
    and (true, true) when none did. *)
Theorem untilb_ticks_every_child (p : path) (n : Node) (w : World)
    (rs : status) (n1 : Node) (w1 : World)
    (Hk : klass n = UntilB) (Hwt : well_typed n)
    (Htick : Node_tick p n w = (Ret rs, n1, w1)) :
  pick (tick_of p) (new_events w w1) = seq 0 (List.length (children n)) /\
  map fst (pick (return_of p) (new_events w w1)) = seq 0 (List.length (children n)) /\
  (existsb child_succeeded (pick (return_of p) (new_events w w1)) = true ->
   rs = (false, true)) /\
  (existsb child_succeeded (pick (return_of p) (new_events w w1)) = false ->
   rs = (true, true)).
Proof.
  destruct (Node_tick_ret _ _ _ Htick) as (b & w0 & b1 & cs1 & w2 & Hi & Hb & -> & ->).
  pose proof (instance_class _ _ _ Hwt Hi) as Hc. rewrite Hk in Hc.
  destruct b; try discriminate. simpl in Hb. unfold UntilB_tick in Hb.
  destruct (UntilB_loop Node_tick p 0 false (children n) w0) as [[o l] w3] eqn:Hl.
  destruct (UntilB_loop_spec _ _ _ _ _ _ Hl) as (log & Hs & Hok).
  destruct o as [ex|e]; [|discriminate].
  destruct (Hok ex eq_refl) as (Hidx & Hret & Hex). simpl in Hex.
  destruct (ticks_some_segs Hs (children_trace _)) as (ev & Hev & Hsegs).
  destruct (instance_own _ _ _ Hi) as (pre & Hpre & Fpre).
  assert (Hw : w3 = w2) by (destruct ex; congruence). subst w3.
  rewrite (@Node_tick_events p w w0 w2 rs pre ev Hpre Hev).
  rewrite (@pick_tick_events _ (tick_of p) p rs pre ev (@tick_of_own p) Fpre).
  rewrite (@pick_tick_events _ (return_of p) p rs pre ev (@return_of_own p) Fpre).
  rewrite (@segs_ticks p log ev Hsegs), (@segs_returns p log ev Hsegs).
  rewrite succeeded_log_returns, (log_returns_indices Hret), Hidx.
  split; [reflexivity|]. split; [reflexivity|].
  split; intros Hf; rewrite Hf in Hex; simpl in Hex; subst ex;
    simpl in Hb; congruence.
Qed.

(** ** Sequence and Select without children *)

Lemma childless_sequence_raises (nm : string) (kw : Kwargs St Val) (inputs : list St) :
  forall st (w : World),
  st = None \/ st = Some (SequenceB Val 0) ->
  results (run_ticks (mkNode nm Sequence [] kw st) w inputs)
  = List.repeat (Raise UnboundLocalError) (List.length inputs).
Proof.
  induction inputs as [|s inputs IH]; intros st w Hst; [reflexivity|].
  assert (Ht : exists w1, tick_root truthy random (mkNode nm Sequence [] kw st) s w
                 = (Raise UnboundLocalError,
                    mkNode nm Sequence [] kw (Some (SequenceB Val 0)), w1))
    by (destruct Hst as [-> | ->]; eexists; reflexivity).
  destruct Ht as (w1 & Ht). simpl. rewrite Ht.
  specialize (IH (Some (SequenceB Val 0)) w1 (or_intror eq_refl)).
  unfold results in *.
  destruct (run_ticks _ w1 inputs) as [[rs n2] w2]. simpl in *. now rewrite IH.
Qed.

Lemma childless_select_raises (nm : string) (kw : Kwargs St Val) (inputs : list St) :
  forall st (w : World),
  st = None \/ st = Some (SelectB Val 0) ->
  results (run_ticks (mkNode nm Select [] kw st) w inputs)
  = List.repeat (Raise UnboundLocalError) (List.length inputs).
Proof.
  induction inputs as [|s inputs IH]; intros st w Hst; [reflexivity|].
  assert (Ht : exists w1, tick_root truthy random (mkNode nm Select [] kw st) s w
                 = (Raise UnboundLocalError,
                    mkNode nm Select [] kw (Some (SelectB Val 0)), w1))
    by (destruct Hst as [-> | ->]; eexists; reflexivity).
  destruct Ht as (w1 & Ht). simpl. rewrite Ht.
  specialize (IH (Some (SelectB Val 0)) w1 (or_intror eq_refl)).
  unfold results in *.
  destruct (run_ticks _ w1 inputs) as [[rs n2] w2]. simpl in *. now rewrite IH.
Qed.

(** X4: a [sequence] or a [select] built without children raises
    UnboundLocalError on every tick, not only on the first: the instance
    stays in place and the loop is skipped again. *)
Theorem childless_sequence_and_select_always_raise (nm : string) (w : World)
    (inputs : list St) :
  results (run_ticks (sequence nm []) w inputs)
    = List.repeat (Raise UnboundLocalError) (List.length inputs) /\
  results (run_ticks (select nm []) w inputs)
    = List.repeat (Raise UnboundLocalError) (List.length inputs).
Proof.
  split.
  - apply childless_sequence_raises. now left.
  - apply childless_select_raises. now left.
Qed.

(** ** Repeat and NotB *)

Lemma Node_tick_active (p : path) (n : Node) (w : World) rs n1 w1 :
  Node_tick p n w = (Ret rs, n1, w1) -> active n1 = fst rs.
Proof.
  intros H. destruct (Node_tick_ret _ _ _ H) as (b & w0 & b1 & cs1 & w2 & _ & _ & -> & _).
  unfold active. simpl. destruct (fst rs); reflexivity.
Qed.

(** X5: a tick of a Repeat node that returns has ticked its child once; it
    returns (false, false) when the child finished with failure and
    (true, true) otherwise, so a Repeat node never finishes with success.
    The child is left without an instance when it finished: the next tick
    of the Repeat node starts it anew. *)
Theorem repeat_runs_until_child_fails (p : path) (n : Node) (w : World)
    (rs : status) (n1 : Node) (w1 : World)
    (Hk : klass n = Repeat) (Hwt : well_typed n)
    (Htick : Node_tick p n w = (Ret rs, n1, w1)) :
  exists r s c1,
    pick (tick_of p) (new_events w w1) = [0] /\
    pick (return_of p) (new_events w w1) = [(0, (r, s))] /\
    hd_error (children n1) = Some c1 /\ active c1 = r /\
    rs = (if negb r && negb s then (false, false) else (true, true)) /\
    rs <> (false, true).
Proof.
  destruct (Node_tick_ret _ _ _ Htick) as (b & w0 & b1 & cs1 & w2 & Hi & Hb & -> & ->).
  pose proof (instance_class _ _ _ Hwt Hi) as Hc. rewrite Hk in Hc.
  destruct b; try discriminate. simpl in Hb. unfold Repeat_tick, tick_first in Hb.
  destruct (children n) as [|c rest]; [discriminate|].
  destruct (Node_tick (p ++ [0]) c w0) as [[o c1] w3] eqn:Htc.
  destruct o as [[r s]|e]; [|discriminate].
  assert (Hx : cs1 = c1 :: rest /\ w3 = w2 /\
               rs = if negb r && negb s then (false, false) else (true, true))
    by (destruct (negb r && negb s); inv Hb; auto).
  destruct Hx as (-> & -> & Hrs).
  destruct (child_tick_segs _ _ _ _ Htc) as (ev & Hev & Hsegs).
  destruct (instance_own _ _ _ Hi) as (pre & Hpre & Fpre).
  rewrite (@Node_tick_events p w w0 w2 rs pre ev Hpre Hev).
  rewrite (@pick_tick_events _ (tick_of p) p rs pre ev (@tick_of_own p) Fpre).
  rewrite (@pick_tick_events _ (return_of p) p rs pre ev (@return_of_own p) Fpre).
  rewrite (@segs_ticks p _ ev Hsegs), (@segs_returns p _ ev Hsegs).
  exists r, s, c1. repeat split; auto.
  - exact (Node_tick_active _ _ _ Htc).
  - rewrite Hrs. destruct (negb r && negb s); discriminate.
Qed.

(** One NotB node: the tick of the child, in a world that agrees with the
    given one, and its outcome negated. *)
Lemma notb_node_tick (p : path) (nm : string) (kw : Kwargs St Val) st (c : Node)
    (w : World) :
  well_typed (notb_node nm kw st c) ->
  exists w0 st1,
    agree w w0 /\
    fst (Node_tick p (notb_node nm kw st c) w)
      = (negated (fst (fst (Node_tick (p ++ [0]) c w0))),
         notb_node nm kw st1 (snd (fst (Node_tick (p ++ [0]) c w0)))) /\
    agree (snd (Node_tick (p ++ [0]) c w0)) (snd (Node_tick p (notb_node nm kw st c) w)) /\
    well_typed (notb_node nm kw st1 (snd (fst (Node_tick (p ++ [0]) c w0)))).
Proof.
  intros Hwt. unfold notb_node in *.
  assert (Hi : exists w0, agree w w0 /\
             instance random p (mkNode nm NotB [c] kw st) (emit (EvTick p) w)
               = (Ret (NotBB Val), w0)).
  { unfold instance, well_typed in *. simpl in *. destruct st as [b|].
    - destruct b; try discriminate. eexists. split; [|reflexivity]. split; reflexivity.
    - eexists. split; [|reflexivity]. split; reflexivity. }
  destruct Hi as (w0 & Hag & Hi). exists w0.
  rewrite Node_tick_unfold. unfold Node_tick_body. rewrite Hi.
  simpl. unfold NotB_tick, tick_first.
  destruct (Node_tick (p ++ [0]) c w0) as [[o c1] w1].
  destruct o as [[[] s]|e]; simpl.
  - exists (Some (NotBB Val)). split; [exact Hag|]. split; [reflexivity|].
    split; [split; reflexivity | reflexivity].
  - exists None. split; [exact Hag|]. split; [reflexivity|].
    split; [split; reflexivity | exact I].
  - exists (Some (NotBB Val)). split; [exact Hag|]. split; [reflexivity|].
    split; [split; reflexivity | reflexivity].
Qed.

Lemma negated_twice (o : outcome status) :
  running_implies_success o -> negated (negated o) = o.
Proof.
  destruct o as [[[] s]|e]; simpl; intros H.
  - now rewrite (H s eq_refl).
  - now rewrite negb_involutive.
  - reflexivity.
Qed.

(** X6: two NotB nodes on top of each other change nothing: a tick of
    [notb (notb c)], in any of its states, returns what a tick of [c]
    returns, leaves [c], the state of the caller and the random stream as
    that tick leaves them, and is again two NotB nodes on top of the child. *)
Theorem double_negation (p q : path) (nm1 nm2 : string) (kw1 kw2 : Kwargs St Val)
    (st1 st2 : option (Behaviour Val)) (c : Node) (w : World)
    (H1 : well_typed (notb_node nm1 kw1 st1 (notb_node nm2 kw2 st2 c)))
    (H2 : well_typed (notb_node nm2 kw2 st2 c)) :
  fst (fst (Node_tick p (notb_node nm1 kw1 st1 (notb_node nm2 kw2 st2 c)) w))
    = fst (fst (Node_tick q c w)) /\
  (exists st3 st4,
     snd (fst (Node_tick p (notb_node nm1 kw1 st1 (notb_node nm2 kw2 st2 c)) w))
     = notb_node nm1 kw1 st3 (notb_node nm2 kw2 st4 (snd (fst (Node_tick q c w)))) /\
     well_typed (notb_node nm1 kw1 st3 (notb_node nm2 kw2 st4 (snd (fst (Node_tick q c w))))) /\
     well_typed (notb_node nm2 kw2 st4 (snd (fst (Node_tick q c w))))) /\
  agree (snd (Node_tick q c w))
    (snd (Node_tick p (notb_node nm1 kw1 st1 (notb_node nm2 kw2 st2 c)) w)).
Proof.
  destruct (notb_node_tick p nm1 kw1 st1 (notb_node nm2 kw2 st2 c) w H1)
    as (w0 & st3 & Hag0 & Hout & Hag1 & Hwt1).
  destruct (notb_node_tick (p ++ [0]) nm2 kw2 st2 c w0 H2)
    as (w2 & st4 & Hag2 & Hin & Hag3 & Hwt2).
  assert (Hag : agree w w2) by (destruct Hag0, Hag2; split; congruence).
  destruct (Node_tick_agree c q ((p ++ [0]) ++ [0]) Hag) as [E A].
  pose proof (Node_tick_ris c ((p ++ [0]) ++ [0]) w2) as Hris.
  destruct (Node_tick p (notb_node nm1 kw1 st1 (notb_node nm2 kw2 st2 c)) w)
    as [[ox nx] wx].
  destruct (Node_tick (p ++ [0]) (notb_node nm2 kw2 st2 c) w0) as [[oy ny] wy].
  destruct (Node_tick ((p ++ [0]) ++ [0]) c w2) as [[oz nz] wz].
  destruct (Node_tick q c w) as [[ot nt] wt].
  cbn [fst snd] in *. inv Hout. inv Hin. inv E. split; [|split].
  - now apply negated_twice.
  - exists st3, st4. auto.
  - destruct A, Hag3, Hag1. split; congruence.
Qed.

(** ** Trees whose ticks cannot raise *)

Lemma sound_unfold (nm : string) k (cs : list Node) (kw : Kwargs St Val) st :
  sound (mkNode nm k cs kw st) <->
  sound_here k (List.length cs) kw /\
  match st with
  | Some b => sound_instance k cs b
  | None => True
  end /\
  Forall (@sound St Val) cs.
Proof.
  simpl. split; intros (H1 & H2 & H3); (split; [exact H1|]; split; [exact H2|]);
    clear H1 H2.
  - induction cs as [|c t IH]; [constructor|]. destruct H3 as [Hc Ht].
    constructor; [exact Hc | exact (IH Ht)].
  - induction H3 as [|c t Hc Ht IH]; [exact I|]. split; [exact Hc | exact IH].
Qed.

Lemma sound_exit (c : Node) : sound c -> sound (set_state c None).
Proof.
  destruct c as [nm k cs kw st]. unfold set_state. rewrite !sound_unfold.
  intros (H1 & _ & H3). auto.
Qed.

Lemma instance_sound (p : path) (nm : string) k (cs : list Node) (kw : Kwargs St Val)
    st (w : World) :
  sound (mkNode nm k cs kw st) ->
  exists b w1,
    instance random p (mkNode nm k cs kw st) w = (Ret b, w1) /\ sound_instance k cs b.
Proof.
  intros H. apply sound_unfold in H. destruct H as (Hh & Hi & _).
  unfold instance, Node_enter. simpl. destruct st as [b|]; [eauto|].
  destruct k; simpl in *;
    try (eexists _, _; split; [reflexivity|]; split; [reflexivity | try exact I; lia]).
  - destruct Hh as [_ Ht]. destruct (threshold kw) as [t|]; [|congruence].
    eexists _, _. split; [reflexivity|]. split; [reflexivity | exact I].
  - destruct (steps kw) as [c|]; [|congruence].
    eexists _, _. split; [reflexivity|]. split; [reflexivity | exact I].
Qed.

Section SoundChildren.
Variable tick : Tick.

Local Notation children_return := (children_return tick).

Lemma tick_first_sound (p : path) (cs : list Node) (w : World) :
  1 <= List.length cs -> children_return cs -> Forall (@sound St Val) cs ->
  exists rs cs1 w1,
    tick_first tick p cs w = (Ret rs, cs1, w1) /\
    Forall (@sound St Val) cs1 /\ List.length cs1 = List.length cs.
Proof.
  destruct cs as [|c rest]; simpl; [lia|]. intros _ Hc Hs.
  destruct (Forall_inv Hc (p ++ [0]) w) as (rs & c1 & w1 & Ht & Hs1 & _).
  rewrite Ht. exists rs, (c1 :: rest), w1. split; [reflexivity|].
  split; [constructor; [exact Hs1 | exact (Forall_inv_tail Hs)] | reflexivity].
Qed.

Lemma Sequence_loop_sound (p : path) (cs : list Node) : forall i ptr succ (w : World),
  children_return cs -> Forall (@sound St Val) cs ->
  succ <> None \/ i <= ptr < i + List.length cs ->
  exists rs ptr1 cs1 w1,
    Sequence_loop tick p i ptr succ cs w = (Ret rs, ptr1, cs1, w1) /\
    Forall (@sound St Val) cs1 /\ List.length cs1 = List.length cs /\
    (fst rs = true -> ptr1 < i + List.length cs).
Proof.
  induction cs as [|c rest IH]; intros i ptr succ w Hc Hs Hp; simpl.
  - destruct succ as [s|]; [|destruct Hp; [congruence | simpl in *; lia]].
    exists (false, s), ptr, [], w. split; [reflexivity|]. split; [constructor|].
    split; [reflexivity | discriminate].
  - destruct (Nat.ltb_spec i ptr) as [Hlt|Hge].
    + destruct (IH (S i) ptr succ w (Forall_inv_tail Hc) (Forall_inv_tail Hs))
        as (rs & ptr1 & cs1 & w1 & E & F & L & R).
      { destruct Hp; [now left | right; simpl in *; lia]. }
      rewrite E. exists rs, ptr1, (c :: cs1), w1. split; [reflexivity|].
      split; [constructor; [exact (Forall_inv Hs) | exact F]|].
      split; [simpl; now rewrite L|]. intros Hr. specialize (R Hr). lia.
    + destruct (Forall_inv Hc (p ++ [i]) w) as ([r s] & c1 & w1 & Ht & Hs1 & _).
      rewrite Ht. destruct r.
      * exists (true, s), ptr, (c1 :: rest), w1. split; [reflexivity|].
        split; [constructor; [exact Hs1 | exact (Forall_inv_tail Hs)]|].
        split; [reflexivity | intros _; lia].
      * destruct s; simpl.
        -- destruct (IH (S i) (S ptr) (Some true) w1
                       (Forall_inv_tail Hc) (Forall_inv_tail Hs))
             as (rs & ptr1 & cs1 & w2 & E & F & L & R); [left; discriminate|].
           rewrite E. exists rs, ptr1, (c1 :: cs1), w2. split; [reflexivity|].
           split; [constructor; [exact Hs1 | exact F]|].
           split; [simpl; now rewrite L|]. intros Hr. specialize (R Hr). lia.
        -- exists (false, false), ptr, (c1 :: rest), w1. split; [reflexivity|].
           split; [constructor; [exact Hs1 | exact (Forall_inv_tail Hs)]|].
           split; [reflexivity | discriminate].
Qed.

Lemma Select_loop_sound (p : path) (cs : list Node) : forall i ptr succ (w : World),
  children_return cs -> Forall (@sound St Val) cs ->
  succ <> None \/ i <= ptr < i + List.length cs ->
  exists rs ptr1 cs1 w1,
    Select_loop tick p i ptr succ cs w = (Ret rs, ptr1, cs1, w1) /\
    Forall (@sound St Val) cs1 /\ List.length cs1 = List.length cs /\
    (fst rs = true -> ptr1 < i + List.length cs).
Proof.
  induction cs as [|c rest IH]; intros i ptr succ w Hc Hs Hp; simpl.
  - destruct succ as [s|]; [|destruct Hp; [congruence | simpl in *; lia]].
    exists (false, s), ptr, [], w. split; [reflexivity|]. split; [constructor|].
    split; [reflexivity | discriminate].
  - destruct (Nat.ltb_spec i ptr) as [Hlt|Hge].
    + destruct (IH (S i) ptr succ w (Forall_inv_tail Hc) (Forall_inv_tail Hs))
        as (rs & ptr1 & cs1 & w1 & E & F & L & R).
      { destruct Hp; [now left | right; simpl in *; lia]. }
      rewrite E. exists rs, ptr1, (c :: cs1), w1. split; [reflexivity|].
      split; [constructor; [exact (Forall_inv Hs) | exact F]|].
      split; [simpl; now rewrite L|]. intros Hr. specialize (R Hr). lia.
    + destruct (Forall_inv Hc (p ++ [i]) w) as ([r s] & c1 & w1 & Ht & Hs1 & _).
      rewrite Ht. destruct r.
      * exists (true, s), ptr, (c1 :: rest), w1. split; [reflexivity|].
        split; [constructor; [exact Hs1 | exact (Forall_inv_tail Hs)]|].
        split; [reflexivity | intros _; lia].
      * destruct s; simpl.
        -- exists (false, true), ptr, (c1 :: rest), w1. split; [reflexivity|].
           split; [constructor; [exact Hs1 | exact (Forall_inv_tail Hs)]|].
           split; [reflexivity | discriminate].
        -- destruct (IH (S i) (S ptr) (Some false) w1
                       (Forall_inv_tail Hc) (Forall_inv_tail Hs))
             as (rs & ptr1 & cs1 & w2 & E & F & L & R); [left; discriminate|].
           rewrite E. exists rs, ptr1, (c1 :: cs1), w2. split; [reflexivity|].
           split; [constructor; [exact Hs1 | exact F]|].
           split; [simpl; now rewrite L|]. intros Hr. specialize (R Hr). lia.
Qed.

Lemma UntilB_loop_sound (p : path) (cs : list Node) : forall i ex (w : World),
  children_return cs -> Forall (@sound St Val) cs ->
  exists ex1 cs1 w1,
    UntilB_loop tick p i ex cs w = (Ret ex1, cs1, w1) /\
    Forall (@sound St Val) cs1 /\ List.length cs1 = List.length cs.
Proof.
  induction cs as [|c rest IH]; intros i ex w Hc Hs; simpl.
  - exists ex, [], w. split; [reflexivity|]. split; [constructor | reflexivity].
  - destruct (Forall_inv Hc (p ++ [i]) w) as ([r s] & c1 & w1 & Ht & Hs1 & _).
    rewrite Ht.
    destruct (IH (S i) (if negb r then ex || s else ex) w1
                (Forall_inv_tail Hc) (Forall_inv_tail Hs)) as (ex1 & cs1 & w2 & E & F & L).
    rewrite E. exists ex1, (c1 :: cs1), w2. split; [reflexivity|].
    split; [constructor; [exact Hs1 | exact F] | simpl; now rewrite L].
Qed.

Lemma WhileB_loop_sound (p : path) (cs : list Node) : forall i rep (w : World),
  children_return cs -> Forall (@sound St Val) cs ->
  exists rep1 cs1 w1,
    WhileB_loop tick p i rep cs w = (Ret rep1, cs1, w1) /\
    Forall (@sound St Val) cs1 /\ List.length cs1 = List.length cs.
Proof.
  induction cs as [|c rest IH]; intros i rep w Hc Hs; simpl.
  - exists rep, [], w. split; [reflexivity|]. split; [constructor | reflexivity].
  - destruct (Forall_inv Hc (p ++ [i]) w) as ([r s] & c1 & w1 & Ht & Hs1 & _).
    rewrite Ht.
    destruct (IH (S i) (if negb r then rep && s else rep) w1
                (Forall_inv_tail Hc) (Forall_inv_tail Hs)) as (rep1 & cs1 & w2 & E & F & L).
    rewrite E. exists rep1, (c1 :: cs1), w2. split; [reflexivity|].
    split; [constructor; [exact Hs1 | exact F] | simpl; now rewrite L].
Qed.

Lemma Conditional_tick_sound (p : path) lr (cs : list Node) (w : World) :
  3 <= List.length cs -> children_return cs -> Forall (@sound St Val) cs ->
  (forall x, lr = Some x ->
     exists c, nth_error cs (branch_index x) = Some c /\ active c = true) ->
  exists rs lr1 cs1 w1,
    Conditional_tick tick p lr cs w = (Ret rs, lr1, cs1, w1) /\
    Forall (@sound St Val) cs1 /\ List.length cs1 = List.length cs /\
    (fst rs = true -> forall x, lr1 = Some x ->
       exists c, nth_error cs1 (branch_index x) = Some c /\ active c = true).
Proof.
  destruct cs as [|c0 [|c1 [|c2 rest]]]; simpl; try lia. intros _ Hc Hs Hlr.
  inversion Hc as [|? ? Hc0 Hc']; subst. inversion Hc' as [|? ? Hc1 Hc'']; subst.
  inversion Hc'' as [|? ? Hc2 _]; subst.
  inversion Hs as [|? ? Hs0 Hs']; subst. inversion Hs' as [|? ? Hs1 Hs'']; subst.
  inversion Hs'' as [|? ? Hs2 Hsr]; subst.
  destruct (Hc0 (p ++ [0]) w) as ([r s] & c0' & w1 & Ht0 & Hs0' & _). rewrite Ht0.
  destruct r.
  { exists (true, true), lr, (c0' :: c1 :: c2 :: rest), w1. split; [reflexivity|].
    split; [repeat (constructor; [assumption|]); assumption|].
    split; [reflexivity|]. intros _ x Hx. destruct (Hlr x Hx) as (c & Hn & Ha).
    exists c. split; [|exact Ha]. destruct x; exact Hn. }
  destruct s.
  - assert (Hsw : exists o2 w2,
              Conditional_switch p lr true (Some c2) w1 = (Ret o2, Some true, w2) /\
              Forall (@sound St Val) (put_head o2 (c2 :: rest)) /\
              List.length (put_head o2 (c2 :: rest)) = S (List.length rest)).
    { unfold Conditional_switch. destruct lr as [[]|]; simpl.
      - eexists _, _. split; [reflexivity|]. simpl.
        split; [constructor; assumption | reflexivity].
      - destruct (Hlr false eq_refl) as (c & Hn & Ha). simpl in Hn. inv Hn.
        unfold Node_exit. unfold active in Ha. destruct (state c); [|discriminate].
        eexists _, _. split; [reflexivity|]. simpl.
        split; [constructor; [now apply sound_exit | assumption] | reflexivity].
      - eexists _, _. split; [reflexivity|]. simpl.
        split; [constructor; assumption | reflexivity]. }
    destruct Hsw as (o2 & w2 & -> & Hput & Hlen).
    destruct (Hc1 (p ++ [1]) w2) as (rs & c1' & w3 & Ht1 & Hs1' & Ha1). rewrite Ht1.
    exists rs, (Some true), (c0' :: c1' :: put_head o2 (c2 :: rest)), w3.
    split; [reflexivity|].
    split; [constructor; [|constructor]; assumption|].
    split; [simpl; now rewrite Hlen|].
    intros Hr x Hx. inv Hx. exists c1'. split; [reflexivity|]. now rewrite Ha1.
  - assert (Hsw : exists o1 w2,
              Conditional_switch p lr false (Some c1) w1 = (Ret o1, Some false, w2) /\
              Forall (@sound St Val) (put_head o1 [c1]) /\
              List.length (put_head o1 [c1]) = 1).
    { unfold Conditional_switch. destruct lr as [[]|]; simpl.
      - destruct (Hlr true eq_refl) as (c & Hn & Ha). simpl in Hn. inv Hn.
        unfold Node_exit. unfold active in Ha. destruct (state c); [|discriminate].
        eexists _, _. split; [reflexivity|]. simpl.
        split; [constructor; [now apply sound_exit | constructor] | reflexivity].
      - eexists _, _. split; [reflexivity|]. simpl.
        split; [constructor; [assumption | constructor] | reflexivity].
      - eexists _, _. split; [reflexivity|]. simpl.
        split; [constructor; [assumption | constructor] | reflexivity]. }
    destruct Hsw as (o1 & w2 & -> & Hput & Hlen).
    destruct (Hc2 (p ++ [2]) w2) as (rs & c2' & w3 & Ht2 & Hs2' & Ha2). rewrite Ht2.
    exists rs, (Some false), (c0' :: put_head o1 [c1] ++ c2' :: rest), w3.
    split; [reflexivity|].
    split; [constructor; [assumption|]; apply Forall_app; split;
            [assumption | constructor; assumption]|].
    split; [simpl; rewrite length_app, Hlen; reflexivity|].
    intros Hr x Hx. inv Hx. exists c2'. split; [|now rewrite Ha2].
    simpl. destruct (put_head o1 [c1]) as [|a [|? ?]]; try discriminate. reflexivity.
Qed.

Lemma Behaviour_tick_sound (p : path) k (kw : Kwargs St Val) b (cs : list Node)
    (w : World) :
  sound_here k (List.length cs) kw -> sound_instance k cs b ->
  children_return cs -> Forall (@sound St Val) cs ->
  exists rs b1 cs1 w1,
    Behaviour_tick truthy tick p kw b cs w = (Ret rs, b1, cs1, w1) /\
    Forall (@sound St Val) cs1 /\ List.length cs1 = List.length cs /\
    (fst rs = true -> sound_instance k cs1 b1).
Proof.
  intros Hh [Hk Hb] Hc Hs. destruct b; simpl in Hk; subst k; simpl in Hh, Hb; simpl.
  - unfold Do_tick. destruct (call_what p kw w) as [[v|e] w1];
      eexists _, _, _, _; (split; [reflexivity|]); (split; [exact Hs|]);
      (split; [reflexivity | discriminate]).
  - destruct Hh as (f & Hf & Hnr). unfold Run_tick. destruct wait0.
    + unfold call_what. rewrite Hf.
      specialize (Hnr (ustate (emit (EvCall p) w))).
      destruct (f (ustate (emit (EvCall p) w))) as [[v|e] s1]; [|destruct Hnr].
      eexists _, _, _, _. split; [reflexivity|]. split; [exact Hs|].
      split; [reflexivity|]. intros _. split; [reflexivity | exact I].
    + eexists _, _, _, _. split; [reflexivity|]. split; [exact Hs|].
      split; [reflexivity | discriminate].
  - unfold Repeat_tick.
    destruct (tick_first_sound p w Hh Hc Hs) as ([r s] & cs1 & w1 & E & F & L).
    rewrite E. destruct (negb r && negb s);
      eexists _, _, _, _; (split; [reflexivity|]); (split; [exact F|]);
      (split; [exact L|]); intros _; (split; [reflexivity | exact I]).
  - destruct Hh as [Hh _]. unfold Chance_tick. destruct success; simpl.
    + destruct (tick_first_sound p w Hh Hc Hs) as (rs & cs1 & w1 & E & F & L).
      rewrite E. eexists _, _, _, _. split; [reflexivity|]. split; [exact F|].
      split; [exact L|]. intros _. split; [reflexivity | exact I].
    + eexists _, _, _, _. split; [reflexivity|]. split; [exact Hs|].
      split; [reflexivity | discriminate].
  - unfold NotB_tick.
    destruct (tick_first_sound p w Hh Hc Hs) as ([r s] & cs1 & w1 & E & F & L).
    rewrite E. destruct r;
      eexists _, _, _, _; (split; [reflexivity|]); (split; [exact F|]);
      (split; [exact L|]); intros _; (split; [reflexivity | exact I]).
  - unfold Wait_tick. destruct (count <=? 0)%Z;
      eexists _, _, _, _; (split; [reflexivity|]); (split; [exact Hs|]);
      (split; [reflexivity|]); intros _; (split; [reflexivity | exact I]).
  - unfold EvalB_tick. destruct (call_what p kw w) as [[v|e] w1];
      eexists _, _, _, _; (split; [reflexivity|]); (split; [exact Hs|]);
      (split; [reflexivity | discriminate]).
  - unfold Sequence_tick.
    destruct (@Sequence_loop_sound p cs 0 pointer None w Hc Hs)
      as (rs & ptr1 & cs1 & w1 & E & F & L & R); [right; simpl; lia|].
    rewrite E. eexists _, _, _, _. split; [reflexivity|]. split; [exact F|].
    split; [exact L|]. intros Hr. split; [reflexivity|]. rewrite L. exact (R Hr).
  - unfold Select_tick.
    destruct (@Select_loop_sound p cs 0 pointer None w Hc Hs)
      as (rs & ptr1 & cs1 & w1 & E & F & L & R); [right; simpl; lia|].
    rewrite E. eexists _, _, _, _. split; [reflexivity|]. split; [exact F|].
    split; [exact L|]. intros Hr. split; [reflexivity|]. rewrite L. exact (R Hr).
  - unfold UntilB_tick.
    destruct (UntilB_loop_sound p 0 false w Hc Hs) as (ex1 & cs1 & w1 & E & F & L).
    rewrite E. destruct ex1;
      eexists _, _, _, _; (split; [reflexivity|]); (split; [exact F|]);
      (split; [exact L|]); intros _; (split; [reflexivity | exact I]).
  - unfold WhileB_tick.
    destruct (WhileB_loop_sound p 0 true w Hc Hs) as (rep1 & cs1 & w1 & E & F & L).
    rewrite E. destruct rep1;
      eexists _, _, _, _; (split; [reflexivity|]); (split; [exact F|]);
      (split; [exact L|]); intros _; (split; [reflexivity | exact I]).
  - destruct (@Conditional_tick_sound p last_run cs w Hh Hc Hs)
      as (rs & lr1 & cs1 & w1 & E & F & L & R); [intros x ->; exact Hb|].
    rewrite E. eexists _, _, _, _. split; [reflexivity|]. split; [exact F|].
    split; [exact L|]. intros Hr. split; [reflexivity|].
    destruct lr1 as [x|]; [exact (R Hr x eq_refl) | exact I].
Qed.

End SoundChildren.

(** A tick of a sound tree returns, leaves the tree sound, and leaves the
    node with an instance exactly when it is running. *)
Lemma Node_tick_sound (n : Node) : sound n -> forall p (w : World),
  exists rs n1 w1,
    Node_tick p n w = (Ret rs, n1, w1) /\ sound n1 /\ active n1 = fst rs.
Proof.
  induction n as [nm k cs kw st IH] using Node_ind. intros Hs p w.
  pose proof Hs as Hs'. apply sound_unfold in Hs'. destruct Hs' as (Hh & _ & Hcs).
  assert (Hc : children_return Node_tick cs).
  { unfold children_return. rewrite Forall_forall in *.
    intros c Hin q w0. exact (IH c Hin (Hcs c Hin) q w0). }
  rewrite Node_tick_unfold. unfold Node_tick_body.
  destruct (instance_sound p (emit (EvTick p) w) Hs) as (b & w1 & -> & Hb).
  destruct (@Behaviour_tick_sound Node_tick p k kw b cs w1 Hh Hb Hc Hcs)
    as ([r s] & b1 & cs1 & w2 & -> & F & L & R).
  destruct r; simpl.
  - eexists _, _, _. split; [reflexivity|]. split; [|reflexivity].
    apply sound_unfold. rewrite L. split; [exact Hh|].
    split; [exact (R eq_refl) | exact F].
  - eexists _, _, _. split; [reflexivity|]. split; [|reflexivity].
    apply sound_unfold. rewrite L. auto.
Qed.


(** ** A tick changes instances only *)

Lemma erase_set_state (c : Node) st : erase (set_state c st) = erase c.
Proof. destruct c; reflexivity. Qed.

(** The behaviours other than Conditional: at most one call of the
    callable, then one pass over the children. *)
Lemma Behaviour_tick_children (tick : Tick) (p : path) (kw : Kwargs St Val) b
    (cs : list Node) (w : World) o b1 cs1 w1 :
  Behaviour_tick truthy tick p kw b cs w = (o, b1, cs1, w1) ->
  class_of b <> Conditional ->
  exists w0 log,
    (w0 = w \/ w0 = snd (call_what p kw w)) /\
    ticks_some tick p 0 cs w0 log cs1 w1.
Proof.
  destruct b; simpl; intros H Hk; try (exfalso; apply Hk; reflexivity).
  - unfold Do_tick in H. destruct (call_what p kw w) as [o1 w2]. exists w2, [].
    destruct o1; inv H; (split; [now right | constructor]).
  - unfold Run_tick in H. destruct wait0.
    + destruct (call_what p kw w) as [o1 w2]. exists w2, [].
      destruct o1; inv H; (split; [now right | constructor]).
    + inv H. exists w1, []. split; [now left | constructor].
  - unfold Repeat_tick in H. destruct (tick_first tick p cs w) as [[r l] w2] eqn:Hf.
    destruct (tick_first_spec _ _ _ _ Hf) as (log & Hs & _). exists w, log.
    split; [now left|].
    destruct r as [[r s]|e]; [destruct (negb r && negb s)|]; inv H; exact Hs.
  - unfold Chance_tick in H. destruct (negb success).
    + inv H. exists w1, []. split; [now left | constructor].
    + destruct (tick_first tick p cs w) as [[r l] w2] eqn:Hf.
      destruct (tick_first_spec _ _ _ _ Hf) as (log & Hs & _). inv H.
      exists w, log. split; [now left | exact Hs].
  - unfold NotB_tick in H. destruct (tick_first tick p cs w) as [[r l] w2] eqn:Hf.
    destruct (tick_first_spec _ _ _ _ Hf) as (log & Hs & _). exists w, log.
    split; [now left|].
    destruct r as [[[] s]|e]; inv H; exact Hs.
  - destruct (Wait_tick count). inv H. exists w1, []. split; [now left | constructor].
  - unfold EvalB_tick in H. destruct (call_what p kw w) as [o1 w2]. exists w2, [].
    destruct o1; inv H; (split; [now right | constructor]).
  - unfold Sequence_tick in H.
    destruct (Sequence_loop tick p 0 pointer None cs w) as [[[r q] l] w2] eqn:Hl.
    destruct (Sequence_loop_spec _ _ _ _ _ _ _ Hl) as (log & Hs & _). inv H.
    exists w, log. split; [now left | exact Hs].
  - unfold Select_tick in H.
    destruct (Select_loop tick p 0 pointer None cs w) as [[[r q] l] w2] eqn:Hl.
    destruct (Select_loop_spec _ _ _ _ _ _ _ Hl) as (log & Hs & _). inv H.
    exists w, log. split; [now left | exact Hs].
  - unfold UntilB_tick in H. destruct (UntilB_loop tick p 0 false cs w) as [[r l] w2] eqn:Hl.
    destruct (UntilB_loop_spec _ _ _ _ _ _ Hl) as (log & Hs & _). exists w, log.
    split; [now left|]. destruct r as [[]|e]; inv H; exact Hs.
  - unfold WhileB_tick in H. destruct (WhileB_loop tick p 0 true cs w) as [[r l] w2] eqn:Hl.
    destruct (WhileB_loop_spec _ _ _ _ _ _ Hl) as (log & Hs & _). exists w, log.
    split; [now left|]. destruct r as [[]|e]; inv H; exact Hs.
Qed.

Lemma ticks_some_keep (tick : Tick) (p : path) i (cs : list Node) (w : World)
    log cs1 w1 :
  ticks_some tick p i cs w log cs1 w1 -> children_keep tick cs ->
  map (@erase St Val) cs1 = map (@erase St Val) cs.
Proof.
  induction 1 as [i cs w|i c rest w log rest1 w1 Hs IH
                 |i c rest w r c1 w1 log rest1 w2 Ht Hs IH]; intros Hc.
  - reflexivity.
  - simpl. now rewrite (IH (Forall_inv_tail Hc)).
  - simpl. rewrite (IH (Forall_inv_tail Hc)).
    pose proof (Forall_inv Hc (p ++ [i]) w) as E. rewrite Ht in E. simpl in E.
    now rewrite E.
Qed.

Lemma Conditional_switch_keep (p : path) lr sel (other : option Node) (w : World)
    o lr1 w1 :
  Conditional_switch p lr sel other w = (Ret o, lr1, w1) ->
  option_map (@erase St Val) o = option_map (@erase St Val) other.
Proof.
  unfold Conditional_switch. destruct lr as [b|].
  - destruct (Bool.eqb sel b); [intros H; inv H; reflexivity|].
    destruct other as [c|]; [|discriminate].
    unfold Node_exit. destruct (state c); [|discriminate]. intros H; inv H.
    simpl. now rewrite erase_set_state.
  - intros H; inv H. reflexivity.
Qed.

Lemma put_head_keep (o : option Node) (l : list Node) :
  option_map (@erase St Val) o = option_map (@erase St Val) (hd_error l) ->
  map (@erase St Val) (put_head o l) = map (@erase St Val) l.
Proof.
  destruct o as [c|], l as [|a t]; simpl; intros H; try reflexivity.
  injection H as E. now rewrite E.
Qed.

Lemma Conditional_tick_keep (tick : Tick) (p : path) lr (cs : list Node) (w : World)
    o lr1 cs1 w1 :
  children_keep tick cs ->
  Conditional_tick tick p lr cs w = (o, lr1, cs1, w1) ->
  map (@erase St Val) cs1 = map (@erase St Val) cs.
Proof.
  intros Hc. unfold Conditional_tick. destruct cs as [|c0 rest].
  { intros H; inv H. reflexivity. }
  pose proof (Forall_inv Hc (p ++ [0]) w) as E0.
  destruct (tick (p ++ [0]) c0 w) as [[r c0'] w2]. simpl in E0.
  destruct r as [[[] s]|e]; try (intros H; inv H; simpl; now rewrite E0).
  destruct s.
  - destruct rest as [|c1 rest2]; [intros H; inv H; simpl; now rewrite E0|].
    destruct (Conditional_switch p lr true (hd_error rest2) w2) as [[r2 lr2] w3] eqn:Hsw.
    destruct r2 as [o2|e]; [|intros H; inv H; simpl; now rewrite E0].
    pose proof (Forall_inv (Forall_inv_tail Hc) (p ++ [1]) w3) as E1.
    destruct (tick (p ++ [1]) c1 w3) as [[r3 c1'] w4]. simpl in E1.
    intros H; inv H. simpl.
    rewrite E0, E1, (put_head_keep _ _ (Conditional_switch_keep _ _ _ _ _ Hsw)).
    reflexivity.
  - destruct rest as [|c1 [|c2 rest3]]; try (intros H; inv H; simpl; now rewrite E0).
    destruct (Conditional_switch p lr false (Some c1) w2) as [[r2 lr2] w3] eqn:Hsw.
    destruct r2 as [o1|e]; [|intros H; inv H; simpl; now rewrite E0].
    pose proof (Forall_inv (Forall_inv_tail (Forall_inv_tail Hc)) (p ++ [2]) w3) as E2.
    destruct (tick (p ++ [2]) c2 w3) as [[r3 c2'] w4]. simpl in E2.
    intros H; inv H. simpl. rewrite map_app. simpl.
    rewrite E0, E2, (put_head_keep o1 [c1] (Conditional_switch_keep _ _ _ _ _ Hsw)).
    reflexivity.
Qed.

Lemma Behaviour_tick_keep (tick : Tick) (p : path) (kw : Kwargs St Val) b
    (cs : list Node) (w : World) o b1 cs1 w1 :
  children_keep tick cs ->
  Behaviour_tick truthy tick p kw b cs w = (o, b1, cs1, w1) ->
  map (@erase St Val) cs1 = map (@erase St Val) cs.
Proof.
  intros Hc Hb.
  destruct b;
    try (destruct (Behaviour_tick_children _ _ _ _ _ _ Hb) as (w0 & log & _ & Hs);
         [simpl; discriminate | exact (ticks_some_keep Hs Hc)]).
  simpl in Hb.
  destruct (Conditional_tick tick p last_run cs w) as [[[r lr] l] w2] eqn:Hct.
  inv Hb. eapply Conditional_tick_keep; eauto.
Qed.

Lemma Node_tick_keep (n : Node) : forall p (w : World),
  erase (snd (fst (Node_tick p n w))) = erase n.
Proof.
  induction n as [nm k cs kw st IH] using Node_ind. intros p w.
  rewrite Node_tick_unfold. unfold Node_tick_body.
  destruct (instance random p (mkNode nm k cs kw st) (emit (EvTick p) w))
    as [[b|e] w0]; [|reflexivity].
  destruct (Behaviour_tick truthy Node_tick p kw b cs w0) as [[[r b1] cs1] w2] eqn:Hb.
  pose proof (@Behaviour_tick_keep Node_tick p kw b cs w0 r b1 cs1 w2 IH Hb) as E.
  destruct r as [[[] s]|e]; simpl; now rewrite E.
Qed.

Lemma run_ticks_keep (inputs : list St) : forall (n : Node) (w : World),
  erase (node_after (run_ticks n w inputs)) = erase n.
Proof.
  induction inputs as [|s inputs IH]; intros n w; [reflexivity|].
  simpl. unfold tick_root. pose proof (Node_tick_keep n [] (set_ustate s w)) as E.
  destruct (Node_tick [] n (set_ustate s w)) as [[r n1] w1]. simpl in E.
  specialize (IH n1 w1). unfold node_after in *.
  destruct (run_ticks n1 w1 inputs) as [[rs n2] w2]. simpl in *. congruence.
Qed.

(** X8: ticking changes nothing but instances.  However often a tree is
    ticked, with whatever states, and whether the ticks return or raise,
    its nodes keep their names, classes, kwargs and children: with every
    [state] put back to [None] it is the tree it was. *)
Theorem ticks_change_only_instances (n : Node) (w : World) (inputs : list St) :
  erase (node_after (run_ticks n w inputs)) = erase n.
Proof. apply run_ticks_keep. Qed.

(** ** Trees without a Conditional node *)

Lemma quietly_refl (w : World) : quietly w w.
Proof. exists []. split; [reflexivity | constructor]. Qed.

Lemma quietly_trans (w w1 w2 : World) :
  quietly w w1 -> quietly w1 w2 -> quietly w w2.
Proof.
  intros (ev1 & H1 & F1) (ev2 & H2 & F2). exists (ev2 ++ ev1). split.
  - rewrite H2, H1. now rewrite app_assoc.
  - apply Forall_app; auto.
Qed.

Lemma quietly_emit (e : Event) (w : World) : quiet e -> quietly w (emit e w).
Proof. intros H. exists [e]. split; [reflexivity | now constructor]. Qed.

Lemma call_what_quiet (p : path) (kw : Kwargs St Val) (w : World) :
  quietly w (snd (call_what p kw w)).
Proof.
  unfold call_what. destruct (what kw) as [f|]; [|apply quietly_refl].
  simpl. destruct (f (ustate w)) as [o s]. simpl.
  exists [EvCall p]. split; [reflexivity | repeat constructor].
Qed.

Lemma instance_quiet (p : path) (n : Node) (w : World) :
  quietly w (snd (instance random p n w)).
Proof.
  unfold instance, Node_enter. destruct (state n); [apply quietly_refl|].
  apply quietly_trans with (emit (EvEnter p) w); [apply quietly_emit; exact I|].
  destruct (klass n); simpl; try apply quietly_refl.
  - destruct (threshold (kwargs n));
      (exists [EvDraw p]; split; [reflexivity | repeat constructor]).
  - destruct (steps (kwargs n)); apply quietly_refl.
Qed.

Lemma ticks_some_quiet (tick : Tick) (p : path) i (cs : list Node) (w : World)
    log cs1 w1 :
  ticks_some tick p i cs w log cs1 w1 -> children_quiet tick cs ->
  forallb (@conditional_free St Val) cs = true ->
  quietly w w1 /\ forallb (@conditional_free St Val) cs1 = true.
Proof.
  induction 1 as [i cs w|i c rest w log rest1 w1 Hs IH
                 |i c rest w r c1 w1 log rest1 w2 Ht Hs IH]; intros Hc Hf.
  - split; [apply quietly_refl | exact Hf].
  - simpl in Hf. apply andb_prop in Hf. destruct Hf as [Hf1 Hf2].
    destruct (IH (Forall_inv_tail Hc) Hf2) as [Q F]. split; [exact Q|].
    simpl. now rewrite Hf1, F.
  - simpl in Hf. apply andb_prop in Hf. destruct Hf as [Hf1 Hf2].
    destruct (Forall_inv Hc (p ++ [i]) w) as [Q1 F1]. rewrite Ht in Q1, F1.
    simpl in Q1, F1.
    destruct (IH (Forall_inv_tail Hc) Hf2) as [Q F].
    split; [eapply quietly_trans; eauto|]. simpl. now rewrite F1, F.
Qed.

(** A tick of a tree without Conditional adds no deactivation to the trace
    and leaves such a tree. *)
Lemma Node_tick_quiet (n : Node) : conditional_free n = true -> forall p (w : World),
  quietly w (snd (Node_tick p n w)) /\
  conditional_free (snd (fst (Node_tick p n w))) = true.
Proof.
  induction n as [nm k cs kw st IH] using Node_ind. intros Hf p w.
  simpl in Hf. apply andb_prop in Hf. destruct Hf as [Hf Hcs].
  apply andb_prop in Hf. destruct Hf as [Hk Hst].
  assert (Hc : children_quiet Node_tick cs).
  { unfold children_quiet. rewrite Forall_forall in *. rewrite forallb_forall in Hcs.
    intros c Hin. exact (IH c Hin (Hcs c Hin)). }
  rewrite Node_tick_unfold. unfold Node_tick_body.
  pose proof (instance_quiet p (mkNode nm k cs kw st) (emit (EvTick p) w)) as Qi.
  assert (Q0 : quietly w (emit (EvTick p) w)) by (apply quietly_emit; exact I).
  destruct (instance random p (mkNode nm k cs kw st) (emit (EvTick p) w))
    as [[b|e] w0] eqn:Hi; simpl in Qi.
  2:{ simpl. split; [eapply quietly_trans; eauto|]. rewrite Hk, Hcs. reflexivity. }
  assert (Hb0 : is_conditional (class_of b) = false).
  { unfold instance, Node_enter in Hi. simpl in Hi. destruct st as [b0|].
    - inv Hi. now apply negb_true_iff in Hst.
    - apply instantiate_class in Hi. rewrite Hi. now apply negb_true_iff in Hk. }
  destruct (Behaviour_tick truthy Node_tick p kw b cs w0) as [[[r b1] cs1] w2] eqn:Hb.
  pose proof (Behaviour_tick_class _ _ _ _ _ _ Hb) as Hcl.
  destruct (Behaviour_tick_children _ _ _ _ _ _ Hb) as (w3 & log & Hw3 & Hs).
  { intros E. rewrite E in Hb0. discriminate. }
  destruct (ticks_some_quiet Hs Hc Hcs) as [Q F].
  assert (Q3 : quietly w0 w3).
  { destruct Hw3 as [->| ->]; [apply quietly_refl | apply call_what_quiet]. }
  assert (Q2 : quietly w w2) by eauto using quietly_trans.
  destruct r as [[[] s]|e]; simpl.
  - split; [eapply quietly_trans; [exact Q2 | apply quietly_emit; exact I]|].
    rewrite Hk, F, Hcl, Hb0. reflexivity.
  - split; [|rewrite Hk, F; reflexivity].
    eapply quietly_trans; [exact Q2|].
    eapply quietly_trans; apply quietly_emit; exact I.
  - split; [exact Q2|]. rewrite Hk, F, Hcl, Hb0. reflexivity.
Qed.

Lemma life_quiet (q : path) (tr : list Event) :
  Forall quiet tr -> life q tr = option_map Returned (last_return q tr).
Proof.
  induction 1 as [|e tr He _ IH]; [reflexivity|].
  destruct e; simpl; try exact IH.
  - destruct He.
  - destruct (path_eqb p q); [reflexivity | exact IH].
Qed.

Lemma run_ticks_quiet (inputs : list St) : forall (n : Node) (w : World),
  conditional_free n = true -> Forall quiet (trace w) ->
  Forall quiet (trace (world_after (run_ticks n w inputs))).
Proof.
  induction inputs as [|s inputs IH]; intros n w Hf Hq; [exact Hq|].
  simpl. unfold tick_root.
  destruct (@Node_tick_quiet n Hf [] (set_ustate s w)) as [(ev & Hev & Fev) Hf1].
  destruct (Node_tick [] n (set_ustate s w)) as [[r n1] w1]. simpl in *.
  specialize (IH n1 w1 Hf1). unfold world_after in *.
  destruct (run_ticks n1 w1 inputs) as [[rs n2] w2]. simpl in *.
  apply IH. rewrite Hev. apply Forall_app; auto.
Qed.

(** X9: in a tree without a Conditional node that started idle and whose
    ticks so far all returned, a node has an instance exactly when its most
    recent completed tick returned running = true: nothing but a
    Conditional ever calls [Node.exit] on another node. *)
Theorem conditional_free_active_iff_running (root : Node) (s0 : St) (k : nat)
    (inputs : list St)
    (Hfree : conditional_free root = true)
    (Hidle : idle root = true)
    (Hret : Forall (fun r => is_ret r)
              (results (run_ticks root (mkWorld s0 k []) inputs))) :
  active_iff_last_tick_running
    (node_after (run_ticks root (mkWorld s0 k []) inputs))
    (trace (world_after (run_ticks root (mkWorld s0 k []) inputs))).
Proof.
  assert (H0 : activation_follows [] root (trace (mkWorld s0 k []))).
  { intros q0 m0 Hm0. rewrite (idle_subnode _ _ Hidle Hm0). simpl.
    split; discriminate. }
  pose proof (@run_ticks_follow inputs root _ H0 Hret) as Hfol.
  pose proof (@run_ticks_quiet inputs root (mkWorld s0 k []) Hfree (Forall_nil _)) as Hq.
  intros q m Hm. rewrite (Hfol q m Hm). simpl. rewrite (life_quiet q Hq).
  destruct (last_return q _) as [[]|]; simpl; split; congruence.
Qed.

(** ** The condition and the branch of a Conditional *)

Lemma switch_events_ticks (p : path) lr sel :
  pick (tick_of p) (switch_events p lr sel) = [].
Proof.
  unfold switch_events. destruct lr as [b|]; [|reflexivity].
  destruct (Bool.eqb sel b); reflexivity.
Qed.

Lemma Conditional_tick_branch (p : path) lr (c0 c1 c2 : Node) (w : World)
    rs lr1 cs1 w1 :
  Conditional_tick Node_tick p lr [c0; c1; c2] w = (Ret rs, lr1, cs1, w1) ->
  exists ev,
    trace w1 = ev ++ trace w /\
    ((exists s, pick (tick_of p) ev = [0] /\
                pick (return_of p) ev = [(0, (true, s))] /\ rs = (true, true)) \/
     (exists s, pick (tick_of p) ev = [0; branch_index s] /\
                pick (return_of p) ev = [(0, (false, s)); (branch_index s, rs)])).
Proof.
  unfold Conditional_tick.
  destruct (Node_tick (p ++ [0]) c0 w) as [[r c0'] w2] eqn:Ht0.
  destruct (child_tick_segs _ _ _ _ Ht0) as (ev0 & Hev0 & Hs0).
  pose proof (segs_returns _ _ _ Hs0) as Hr0.
  pose proof (segs_ticks _ _ _ Hs0) as Hk0.
  destruct r as [[[] s]|e]; [| |discriminate].
  - intros H; inv H. exists ev0. split; [assumption|]. left. exists s. auto.
  - assert (G : forall (cb : Node) (other : option Node)
                      (put : option Node -> Node -> list Node) r2 lr2 w3,
               Conditional_switch p lr s other w2 = (r2, lr2, w3) ->
               (match r2 with
                | Raise e => (Raise e, lr2, c0' :: c1 :: c2 :: [], w3)
                | Ret o2 =>
                    let '(r3, cb', w4) := Node_tick (p ++ [branch_index s]) cb w3 in
                    (r3, lr2, put o2 cb', w4)
                end) = (Ret rs, lr1, cs1, w1) ->
               exists ev,
                 trace w1 = ev ++ trace w /\
                 pick (tick_of p) ev = [0; branch_index s] /\
                 pick (return_of p) ev = [(0, (false, s)); (branch_index s, rs)]).
    { intros cb other put r2 lr2 w3 Hsw H.
      destruct (Conditional_switch_events _ _ _ _ _ Hsw) as (Hw3 & _).
      destruct r2 as [o2|e]; [|discriminate].
      destruct (Node_tick (p ++ [branch_index s]) cb w3) as [[r3 cb'] w4] eqn:Ht.
      destruct (child_tick_segs _ _ _ _ Ht) as (ev3 & Hev3 & Hs3).
      inv H. exists (ev3 ++ switch_events p lr s ++ ev0).
      split; [rewrite Hev3, Hw3, Hev0; now rewrite <- !app_assoc|].
      rewrite !pick_app, Hr0, Hk0, switch_events_returns, switch_events_ticks,
        (segs_ticks _ _ _ Hs3), (segs_returns _ _ _ Hs3).
      simpl. split; reflexivity. }
    intros H.
    assert (G' : exists ev,
               trace w1 = ev ++ trace w /\
               pick (tick_of p) ev = [0; branch_index s] /\
               pick (return_of p) ev = [(0, (false, s)); (branch_index s, rs)]).
    { destruct s.
      - destruct (Conditional_switch p lr true (hd_error [c2]) w2) as [[r2 lr2] w3] eqn:Hsw.
        apply (G c1 (hd_error [c2]) (fun o2 cb' => c0' :: cb' :: put_head o2 [c2])
                 r2 lr2 w3 Hsw).
        destruct r2; exact H.
      - destruct (Conditional_switch p lr false (Some c1) w2) as [[r2 lr2] w3] eqn:Hsw.
        apply (G c2 (Some c1) (fun o1 cb' => c0' :: put_head o1 [c1] ++ cb' :: [])
                 r2 lr2 w3 Hsw).
        destruct r2; exact H. }
    destruct G' as (ev & Hev & Ht & Hr). exists ev. split; [exact Hev|].
    right. exists s. auto.
Qed.

(** X10: a tick of a Conditional node that returns has ticked the
    condition first, once.  When the condition is running, no branch is
    ticked and the tick returns (true, true).  When it finished, the branch
    its success selects, [children[1]] on success and [children[2]] on
    failure, is ticked once and nothing else is; the Conditional returns
    what that branch returned. *)
Theorem conditional_returns_what_its_branch_returns (p : path) (n : Node) (w : World)
    (rs : status) (n1 : Node) (w1 : World) (c0 c1 c2 : Node)
    (Hk : klass n = Conditional) (Hwt : well_typed n)
    (Hcs : children n = [c0; c1; c2])
    (Htick : Node_tick p n w = (Ret rs, n1, w1)) :
  (exists s, pick (tick_of p) (new_events w w1) = [0] /\
             pick (return_of p) (new_events w w1) = [(0, (true, s))] /\
             rs = (true, true)) \/
  (exists s, pick (tick_of p) (new_events w w1) = [0; branch_index s] /\
             pick (return_of p) (new_events w w1)
               = [(0, (false, s)); (branch_index s, rs)]).
Proof.
  destruct (Node_tick_ret _ _ _ Htick) as (b & w0 & b1 & cs1 & w2 & Hi & Hb & -> & ->).
  pose proof (instance_class _ _ _ Hwt Hi) as Hc. rewrite Hk in Hc.
  destruct b; try discriminate. simpl in Hb. rewrite Hcs in Hb.
  destruct (Conditional_tick Node_tick p last_run [c0; c1; c2] w0)
    as [[[r lr1] l] w3] eqn:Hct.
  assert (Hx : r = Ret rs /\ w3 = w2) by (inv Hb; auto).
  destruct Hx as [-> ->].
  destruct (@Conditional_tick_branch p last_run c0 c1 c2 w0 rs lr1 l w2 Hct)
    as (ev & Hev & Hd).
  destruct (instance_own _ _ _ Hi) as (pre & Hpre & Fpre).
  rewrite (@Node_tick_events p w w0 w2 rs pre ev Hpre Hev).
  rewrite (@pick_tick_events _ (tick_of p) p rs pre ev (@tick_of_own p) Fpre).
  rewrite (@pick_tick_events _ (return_of p) p rs pre ev (@return_of_own p) Fpre).
  exact Hd.
Qed.

(** ** The leaves Do and EvalB *)


(** ** A Run node ticked over and over *)

Lemma pair_induction (A : Type) (P : list A -> Prop) :
  P [] -> (forall a, P [a]) -> (forall a b l, P l -> P (a :: b :: l)) ->
  forall l, P l.
Proof.
  intros H0 H1 H2 l.
  assert (H : P l /\ forall a, P (a :: l)).
  { induction l as [|b l [IH1 IH2]]; [split; auto|].
    split; [apply IH2|]. intros a. apply H2. exact IH1. }
  exact (proj1 H).
Qed.

Lemma run_second_tick (nm : string) (f : Callable St Val) (rv : option Val)
    (s : St) (w : World) :
  tick_root truthy random (run_node nm f (Some (RunB false rv))) s w
  = (Ret (false, true), run_node nm f None,
     mkWorld s (ndraws w)
       (EvReturn [] false true :: EvExit [] true :: EvTick [] :: trace w)).
Proof. reflexivity. Qed.

Lemma in_turn_step (k : nat) :
  in_turn (S (S k)) = Ret (true, true) :: Ret (false, true) :: in_turn k.
Proof.
  unfold in_turn. simpl. do 2 f_equal.
  rewrite <- !seq_shift, !map_map. reflexivity.
Qed.

Lemma run_ticks_in_turn (nm : string) (f : Callable St Val) (inputs : list St) :
  forall w : World,
    Forall (fun s => is_ret (fst (f s))) (odd_ticks inputs) ->
    exists ev w1 st,
      run_ticks (run_node nm f None) w inputs
        = (in_turn (List.length inputs), run_node nm f st, w1) /\
      (if Nat.odd (List.length inputs) then st <> None else st = None) /\
      trace w1 = ev ++ trace w /\
      pick (call_at []) ev = map (fun _ => tt) (odd_ticks inputs).
Proof.
  induction inputs as [|a|a b l IH] using pair_induction; intros w Hf.
  - exists [], w, None. repeat split.
  - inv Hf. destruct (@run_first_tick_returns nm f a w H1) as (v & w1 & E & Htr).
    cbn [run_ticks]. rewrite E. eexists _, w1, _. split; [reflexivity|].
    split; [simpl; discriminate|]. split; [exact Htr | reflexivity].
  - simpl in Hf. inv Hf.
    destruct (@run_first_tick_returns nm f a w H1) as (v & w1 & E & Htr).
    cbn [run_ticks]. rewrite E, run_second_tick.
    destruct (IH (mkWorld b (ndraws w1)
                    (EvReturn [] false true :: EvExit [] true :: EvTick [] :: trace w1)) H2)
      as (ev & w2 & st & E2 & Hst & Htr2 & Hc).
    rewrite E2. eexists _, w2, st.
    split; [cbn [List.length]; now rewrite in_turn_step|].
    split; [exact Hst|]. split.
    + rewrite Htr2. cbn [trace]. rewrite Htr.
      change (EvReturn [] false true :: EvExit [] true :: EvTick [] ::
              [EvReturn [] true true; EvCall []; EvEnter []; EvTick []] ++ trace w)
        with ([EvReturn [] false true; EvExit [] true; EvTick [];
               EvReturn [] true true; EvCall []; EvEnter []; EvTick []] ++ trace w).
      rewrite app_assoc. reflexivity.
    + rewrite pick_app, Hc. reflexivity.
Qed.

(** X12: a [run] node ticked over and over, its effect returning each time
    it is called: the ticks return (true, true) and (false, true) in turn;
    the effect is called on the ticks 1, 3, 5, ... only, once each, and
    the node is without an instance after every second tick, so that the
    next tick starts it anew. *)
Theorem run_calls_effect_every_second_tick (nm : string) (f : Callable St Val)
    (w : World) (inputs : list St)
    (Hf : Forall (fun s => is_ret (fst (f s))) (odd_ticks inputs)) :
  results (run_ticks (run nm f) w inputs) = in_turn (List.length inputs) /\
  active (node_after (run_ticks (run nm f) w inputs)) = Nat.odd (List.length inputs) /\
  pick (call_at []) (new_events w (world_after (run_ticks (run nm f) w inputs)))
    = map (fun _ => tt) (odd_ticks inputs).
Proof.
  change (run nm f) with (run_node nm f None).
  destruct (@run_ticks_in_turn nm f inputs w Hf) as (ev & w1 & st & E & Hst & Htr & Hc).
  rewrite E. unfold results, node_after, world_after. simpl.
  split; [reflexivity|]. split.
  - unfold active. simpl. destruct (Nat.odd (List.length inputs)), st; congruence.
  - now rewrite (new_events_app _ _ _ Htr).
Qed.

(** ** A Wait node ticked over and over *)

Lemma waiting_restarts (m : nat) : forall nm cs kw (w : World) (inputs : list St),
  List.length inputs = S m ->
  exists w1,
    run_ticks (mkNode nm Wait cs kw (Some (WaitB Val (Z.of_nat m)))) w inputs
    = (List.repeat (Ret (true, true)) m ++ [Ret (false, true)],
       mkNode nm Wait cs kw None, w1).
Proof.
  induction m as [|m IH]; intros nm cs kw w inputs Hlen;
    destruct inputs as [|s rest]; try discriminate.
  - destruct rest; [|discriminate]. eexists. reflexivity.
  - injection Hlen as Hlen.
    cbn [run_ticks]. unfold tick_root. rewrite Node_tick_unfold.
    cbn [Node_tick_body Behaviour_tick instance state].
    rewrite Wait_tick_positive by lia. cbn iota beta.
    replace (Z.of_nat (S m) - 1)%Z with (Z.of_nat m) by lia.
    destruct (IH nm cs kw
      (emit (EvReturn [] true true) (emit (EvTick []) (set_ustate s w))) rest Hlen)
      as (w1 & E).
    rewrite E. eexists. reflexivity.
Qed.

Lemma wait_one_cycle (c : Z) (w : World) (inputs : list St) :
  List.length inputs = S (Z.to_nat c) ->
  exists w1, run_ticks (wait St Val c) w inputs = (count_down c, wait St Val c, w1).
Proof.
  unfold count_down.
  destruct inputs as [|s rest]; [discriminate|]. intros Hlen. injection Hlen as Hlen.
  unfold wait. cbn [run_ticks]. unfold tick_root. rewrite Node_tick_unfold.
  cbn [Node_tick_body Behaviour_tick instance Node_enter instantiate steps state
       klass kwargs].
  destruct (Z.leb_spec c 0) as [Hc|Hc].
  - replace (Z.to_nat c) with 0 in * by lia. destruct rest; [|discriminate].
    unfold Wait_tick. destruct (Z.leb_spec c 0); [|lia]. eexists. reflexivity.
  - rewrite Wait_tick_positive by lia. cbn iota beta.
    destruct (Z.to_nat c) as [|m] eqn:Hm; [lia|].
    replace (c - 1)%Z with (Z.of_nat m) by lia.
    destruct (@waiting_restarts m "wait" [] (mkKwargs None None (Some c))
      (emit (EvReturn [] true true)
         (emit (EvEnter []) (emit (EvTick []) (set_ustate s w)))) rest Hlen)
      as (w1 & E).
    rewrite E. eexists. reflexivity.
Qed.

(** X13: [wait c] ticked over and over counts down again and again: each
    run of [c + 1] ticks returns (true, true) [c] times and then
    (false, true), and leaves the node as [wait c] made it, for every
    integer [c]; with [c <= 0] every tick returns (false, true). *)
Theorem wait_counts_down_again (c : Z) (m : nat) (w : World) (inputs : list St)
    (Hlen : List.length inputs = m * S (Z.to_nat c)) :
  results (run_ticks (wait St Val c) w inputs)
    = List.concat (List.repeat (count_down c) m) /\
  node_after (run_ticks (wait St Val c) w inputs) = wait St Val c.
Proof.
  revert w inputs Hlen. induction m as [|m IH]; intros w inputs Hlen.
  - destruct inputs; [|discriminate]. split; reflexivity.
  - rewrite <- (firstn_skipn (S (Z.to_nat c)) inputs). rewrite run_ticks_app.
    destruct (@wait_one_cycle c w (firstn (S (Z.to_nat c)) inputs)) as (w1 & E).
    { rewrite length_firstn. simpl in Hlen. lia. }
    rewrite E.
    destruct (IH w1 (skipn (S (Z.to_nat c)) inputs)) as [Hr Hn].
    { rewrite length_skipn. simpl in Hlen. lia. }
    unfold results, node_after in *.
    destruct (run_ticks (wait St Val c) w1 (skipn (S (Z.to_nat c)) inputs))
      as [[rs n2] w2].
    simpl in *. rewrite Hr. split; [reflexivity | exact Hn].
Qed.

(** ** The two log lines of Node.tick *)

Lemma inwardly_refl (p : path) (w : World) : inwardly p w w.
Proof. exists []. split; [reflexivity | constructor]. Qed.

Lemma inwardly_trans (p : path) (w w1 w2 : World) :
  inwardly p w w1 -> inwardly p w1 w2 -> inwardly p w w2.
Proof.
  intros (ev1 & H1 & F1) (ev2 & H2 & F2). exists (ev2 ++ ev1). split.
  - rewrite H2, H1. now rewrite app_assoc.
  - apply Forall_app; auto.
Qed.

Lemma call_what_inner (p : path) (kw : Kwargs St Val) (w : World) :
  inwardly p w (snd (call_what p kw w)).
Proof.
  unfold call_what. destruct (what kw) as [f|]; [|apply inwardly_refl].
  simpl. destruct (f (ustate w)) as [o s]. simpl.
  exists [EvCall p]. split; [reflexivity|]. constructor; [now left | constructor].
Qed.

Lemma child_tick_inner (p : path) (i : nat) (c : Node) (w : World) o c1 w1 :
  Node_tick (p ++ [i]) c w = (o, c1, w1) -> inwardly p w w1.
Proof.
  intros Ht. destruct (child_tick_owner _ _ _ _ Ht) as (ev & Hev & F).
  exists ev. split; [exact Hev|]. eapply Forall_impl; [|exact F].
  intros e He. right; right. now exists i.
Qed.

Lemma ticks_some_inner (p : path) i (cs : list Node) (w : World) log cs1 w1 :
  ticks_some Node_tick p i cs w log cs1 w1 -> inwardly p w w1.
Proof.
  intros Hs. destruct (ticks_some_owner Hs) as (ev & Hev & F).
  exists ev. split; [exact Hev|]. eapply Forall_impl; [|exact F].
  intros e (k & _ & He). right; right. now exists k.
Qed.

Lemma Conditional_switch_inner (p : path) lr sel (other : option Node) (w : World)
    o lr1 w1 :
  Conditional_switch p lr sel other w = (o, lr1, w1) -> inwardly p w w1.
Proof.
  intros H. destruct (Conditional_switch_events _ _ _ _ _ H) as (Hw1 & _).
  exists (switch_events p lr sel). split; [exact Hw1|].
  unfold switch_events. destruct lr as [b|]; [|constructor].
  destruct (Bool.eqb sel b); [constructor|].
  constructor; [|constructor]. right; left. eexists. reflexivity.
Qed.

Lemma Conditional_tick_inner (p : path) lr (cs : list Node) (w : World)
    o lr1 cs1 w1 :
  Conditional_tick Node_tick p lr cs w = (o, lr1, cs1, w1) -> inwardly p w w1.
Proof.
  unfold Conditional_tick. destruct cs as [|c0 rest].
  { intros H; inv H. apply inwardly_refl. }
  destruct (Node_tick (p ++ [0]) c0 w) as [[r c0'] w2] eqn:Ht0.
  pose proof (child_tick_inner _ _ _ _ Ht0) as E0.
  destruct r as [[[] s]|e]; try (intros H; inv H; exact E0).
  destruct s.
  - destruct rest as [|c1 rest2]; [intros H; inv H; exact E0|].
    destruct (Conditional_switch p lr true (hd_error rest2) w2) as [[r2 lr2] w3] eqn:Hsw.
    pose proof (Conditional_switch_inner _ _ _ _ _ Hsw) as E1.
    destruct r2 as [o2|e]; [|intros H; inv H; eapply inwardly_trans; eauto].
    destruct (Node_tick (p ++ [1]) c1 w3) as [[r3 c1'] w4] eqn:Ht1.
    intros H; inv H.
    pose proof (child_tick_inner _ _ _ _ Ht1) as E2.
    eauto using inwardly_trans.
  - destruct rest as [|c1 [|c2 rest3]]; try (intros H; inv H; exact E0).
    destruct (Conditional_switch p lr false (Some c1) w2) as [[r2 lr2] w3] eqn:Hsw.
    pose proof (Conditional_switch_inner _ _ _ _ _ Hsw) as E1.
    destruct r2 as [o1|e]; [|intros H; inv H; eapply inwardly_trans; eauto].
    destruct (Node_tick (p ++ [2]) c2 w3) as [[r3 c2'] w4] eqn:Ht2.
    intros H; inv H.
    pose proof (child_tick_inner _ _ _ _ Ht2) as E2.
    eauto using inwardly_trans.
Qed.

Lemma Behaviour_tick_inner (p : path) (kw : Kwargs St Val) b (cs : list Node)
    (w : World) o b1 cs1 w1 :
  Behaviour_tick truthy Node_tick p kw b cs w = (o, b1, cs1, w1) -> inwardly p w w1.
Proof.
  intros Hb.
  destruct b;
    try (destruct (Behaviour_tick_children _ _ _ _ _ _ Hb) as (w0 & log & Hw0 & Hs);
         [simpl; discriminate|];
         apply inwardly_trans with w0; [|exact (ticks_some_inner Hs)];
         destruct Hw0 as [-> | ->]; [apply inwardly_refl | apply call_what_inner]).
  simpl in Hb.
  destruct (Conditional_tick Node_tick p last_run cs w) as [[[r lr] l] w2] eqn:Hct.
  inv Hb. eapply Conditional_tick_inner; eauto.
Qed.

Lemma inner_enter (p : path) (e : Event) : inner p e -> enter_at p e = None.
Proof.
  intros [-> | [(x & ->) | (k & Hk)]]; try reflexivity.
  destruct e; simpl in *; try reflexivity. now rewrite (within_child_neq _ _ Hk).
Qed.

Lemma inner_exit (p : path) (e : Event) : inner p e -> exit_at p e = None.
Proof.
  intros [-> | [(x & ->) | (k & Hk)]]; try reflexivity.
  destruct e; simpl in *; try reflexivity. now rewrite (within_child_neq _ _ Hk).
Qed.

Lemma instance_enter (p : path) (n : Node) (w : World) o w1 :
  instance random p n w = (o, w1) ->
  exists pre,
    trace w1 = pre ++ trace w /\
    pick (enter_at p) pre = (if active n then [] else [tt]) /\
    pick (exit_at p) pre = [].
Proof.
  unfold instance, Node_enter, active. destruct (state n).
  - intros H; inv H. exists []. repeat split.
  - destruct (klass n); simpl;
      try solve [intros H; inv H; exists [EvEnter p]; simpl; rewrite path_eqb_refl;
                 repeat split].
    + destruct (threshold (kwargs n)); intros H; inv H;
        (exists [EvDraw p; EvEnter p]; simpl; rewrite path_eqb_refl; repeat split).
    + destruct (steps (kwargs n)); intros H; inv H;
        (exists [EvEnter p]; simpl; rewrite path_eqb_refl; repeat split).
Qed.

Lemma post_events_exit (p : path) (o : outcome status) :
  pick (enter_at p) (post_events p o) = [] /\
  pick (exit_at p) (post_events p o)
    = match o with
      | Ret (false, s) => [s]
      | _ => []
      end.
Proof.
  destruct o as [[[] s]|e]; simpl; rewrite ?path_eqb_refl; split; reflexivity.
Qed.


(** ** A Chance node that lets its child through *)

(** X15: a Chance node whose draw allows it is a pass-through: its tick
    returns or raises exactly what the tick of its child does, leaves the
    child, the state of the caller and the random stream as that tick
    leaves them, the one draw of a new activation apart. *)
Theorem chance_passes_child_through (p q : path) (n : Node) (w : World) (t : Q)
    (c : Node)
    (Hk : klass n = Chance) (Hwt : well_typed n)
    (Ht : threshold (kwargs n) = Some t) (Hcs : children n = [c])
    (Hok : success_allowed t n w = true) :
  fst (fst (Node_tick p n w)) = fst (fst (Node_tick q c (after_draw n w))) /\
  children (snd (fst (Node_tick p n w)))
    = [snd (fst (Node_tick q c (after_draw n w)))] /\
  agree (snd (Node_tick q c (after_draw n w))) (snd (Node_tick p n w)).
Proof.
  destruct n as [nm k cs kw st]. simpl in Hk, Ht, Hcs. subst k cs.
  unfold well_typed in Hwt. simpl in Hwt.
  unfold success_allowed in Hok. simpl in Hok.
  assert (Hi : exists w0,
             instance random p (mkNode nm Chance [c] kw st) (emit (EvTick p) w)
               = (Ret (ChanceB Val true), w0) /\
             agree w0 (after_draw (mkNode nm Chance [c] kw st) w)).
  { unfold instance, Node_enter, after_draw, active. simpl. destruct st as [b|].
    - destruct b; try discriminate. subst success.
      eexists. split; [reflexivity | split; reflexivity].
    - rewrite Ht, Hok. eexists. split; [reflexivity | split; reflexivity]. }
  destruct Hi as (w0 & Hi & Hag).
  rewrite (Node_tick_unfold p (mkNode nm Chance [c] kw st) w).
  unfold Node_tick_body. rewrite Hi.
  cbn [Behaviour_tick Chance_tick tick_first negb].
  destruct (Node_tick_agree c (p ++ [0]) q Hag) as [E A].
  destruct (Node_tick (p ++ [0]) c w0) as [[o c1] w1].
  destruct (Node_tick q c (after_draw (mkNode nm Chance [c] kw st) w))
    as [[o' c1'] w1'].
  simpl in E, A. inv E.
  destruct o' as [[[] s]|e]; simpl; (split; [reflexivity|]);
    (split; [reflexivity|]); destruct A; split; symmetry; assumption.
Qed.

(** ** Full names *)

Lemma spaceless_underscored (s : string) : spaceless (underscored s) = true.
Proof.
  induction s as [|a r IH]; [reflexivity|]. simpl.
  destruct (Ascii.eqb a " ") eqn:E; simpl; [exact IH|]. now rewrite E.
Qed.

Lemma spaceless_append (a b : string) :
  spaceless (String.append a b) = spaceless a && spaceless b.
Proof.
  induction a as [|x r IH]; [reflexivity|]. simpl. rewrite IH. now rewrite andb_assoc.
Qed.

Lemma fullname_up_spaceless (root : Node) (rq : list nat) :
  match fullname_up root rq with
  | Some s => spaceless s = true
  | None => True
  end.
Proof.
  induction rq as [|i rp IH]; [apply spaceless_underscored|].
  cbn [fullname_up]. destruct (fullname_up root rp) as [pre|]; [|exact I].
  destruct (subnode (rev (i :: rp)) root) as [m|]; [|exact I].
  rewrite !spaceless_append, IH, spaceless_underscored. reflexivity.
Qed.

Lemma name_erase (n : Node) : name (erase n) = name n.
Proof. destruct n; reflexivity. Qed.

Lemma subnode_erase (q : path) : forall n : Node,
  subnode q (erase n) = option_map (@erase St Val) (subnode q n).
Proof.
  induction q as [|i q IH]; intros n; [reflexivity|].
  destruct n as [nm k cs kw st]. simpl. rewrite nth_error_map.
  destruct (nth_error cs i) as [c|]; [apply IH | reflexivity].
Qed.

Lemma fullname_up_erase (root : Node) (rq : list nat) :
  fullname_up (erase root) rq = fullname_up root rq.
Proof.
  induction rq as [|i rp IH]; [simpl; now rewrite name_erase|].
  cbn [fullname_up]. rewrite IH, subnode_erase.
  destruct (fullname_up root rp) as [pre|]; [|reflexivity].
  destruct (subnode (rev (i :: rp)) root) as [m|]; [|reflexivity].
  simpl. now rewrite name_erase.
Qed.

(** X16: the full name of a node, the names on the way down from the root
    joined by dots, holds no space, whatever the names are; and no tick
    changes the full name of any node. *)
Theorem fullname_spaceless_and_stable (n : Node) (w : World) (inputs : list St)
    (q : path) :
  match fullname n q with
  | Some s => spaceless s = true
  | None => True
  end /\
  fullname (node_after (run_ticks n w inputs)) q = fullname n q.
Proof.
  split; [apply fullname_up_spaceless|]. unfold fullname.
  rewrite <- (fullname_up_erase (node_after (run_ticks n w inputs))).
  rewrite <- (fullname_up_erase n). f_equal. apply run_ticks_keep.
Qed.

(** ** A finished tree is as new *)

Lemma idle_but_all (cs : list Node) : forall q,
  forallb (@idle St Val) cs = true -> idle_but q cs = true.
Proof.
  induction cs as [|c t IH]; intros q H; [destruct q; reflexivity|].
  simpl in H. apply andb_prop in H. destruct H as [Hc Ht].
  destruct q; simpl; [exact Ht|]. rewrite Hc. now apply IH.
Qed.

Lemma idle_erase (n : Node) : idle n = true -> erase n = n.
Proof.
  induction n as [nm k cs kw st IH] using Node_ind. intros Hi.
  apply idle_children in Hi. destruct Hi as [-> Hcs]. simpl. f_equal.
  induction IH as [|c t Hc _ IHt]; [reflexivity|].
  simpl in Hcs. apply andb_prop in Hcs. destruct Hcs as [H1 H2].
  simpl. now rewrite (Hc H1), (IHt H2).
Qed.

Lemma run_ticks_results_length (inputs : list St) : forall (n : Node) (w : World),
  List.length (results (run_ticks n w inputs)) = List.length inputs.
Proof.
  induction inputs as [|s inputs IH]; intros n w; [reflexivity|].
  simpl. destruct (tick_root truthy random n s w) as [[r n1] w1].
  specialize (IH n1 w1). unfold results in *.
  destruct (run_ticks n1 w1 inputs) as [[rs n2] w2]. simpl in *. now rewrite IH.
Qed.

Section TidyChildren.
Variable tick : Tick.

Local Notation children_tidy := (children_tidy tick).

Lemma tick_first_tidy (p : path) (cs : list Node) (w : World) o cs1 w1 :
  tick_first tick p cs w = (o, cs1, w1) ->
  children_tidy cs -> forallb (@tidy St Val) cs = true -> idle_but 0 cs = true ->
  forallb (@tidy St Val) cs1 = true /\ idle_but 0 cs1 = true /\
  (forall s, o = Ret (false, s) -> forallb (@idle St Val) cs1 = true).
Proof.
  unfold tick_first. destruct cs as [|c rest].
  - intros H _ _ _. inv H. repeat split.
  - destruct (tick (p ++ [0]) c w) as [[r c1] w2] eqn:Ht. intros H Hc Hcs Hi. inv H.
    simpl in Hcs, Hi. apply andb_prop in Hcs. destruct Hcs as [Tc Tr].
    destruct (Forall_inv Hc Tc (p ++ [0]) w) as [T F]. rewrite Ht in T, F.
    simpl in T, F. simpl. rewrite T, Tr. split; [reflexivity|]. split; [exact Hi|].
    intros s ->. now rewrite (F s eq_refl).
Qed.

Lemma Sequence_loop_tidy (p : path) (cs : list Node) :
  forall i ptr succ (w : World) o ptr1 cs1 w1,
  Sequence_loop tick p i ptr succ cs w = (o, ptr1, cs1, w1) ->
  children_tidy cs -> forallb (@tidy St Val) cs = true ->
  i <= ptr -> idle_but (ptr - i) cs = true ->
  forallb (@tidy St Val) cs1 = true /\ i <= ptr1 /\
  match o with
  | Ret (false, _) => forallb (@idle St Val) cs1 = true
  | _ => idle_but (ptr1 - i) cs1 = true
  end.
Proof.
  induction cs as [|c rest IH]; intros i ptr succ w o ptr1 cs1 w1 H Hc Hcs Hle Hi;
    simpl in H.
  - destruct succ; inv H; (split; [reflexivity|]); (split; [assumption|]);
      [reflexivity | destruct (ptr1 - i); reflexivity].
  - simpl in Hcs. apply andb_prop in Hcs. destruct Hcs as [Tc Tr].
    destruct (Nat.ltb_spec i ptr) as [Hlt|Hge].
    + destruct (Sequence_loop tick p (S i) ptr succ rest w) as [[[r q] l] w2] eqn:Hl.
      inv H. replace (ptr - i) with (S (ptr - S i)) in Hi by lia. simpl in Hi.
      apply andb_prop in Hi. destruct Hi as [Ic Ir].
      destruct (IH _ _ _ _ _ _ _ _ Hl (Forall_inv_tail Hc) Tr Hlt Ir) as (T & L & M).
      simpl. rewrite Tc, T. split; [reflexivity|]. split; [lia|].
      replace (ptr1 - i) with (S (ptr1 - S i)) by lia.
      destruct o as [[[] s]|e]; simpl; rewrite Ic, M; reflexivity.
    + assert (i = ptr) by lia. subst i. rewrite Nat.sub_diag in Hi. simpl in Hi.
      destruct (tick (p ++ [ptr]) c w) as [[r c1] w2] eqn:Ht.
      destruct (Forall_inv Hc Tc (p ++ [ptr]) w) as [T F]. rewrite Ht in T, F.
      simpl in T, F.
      destruct r as [[[] s]|e].
      * inv H. simpl. rewrite T, Tr, Nat.sub_diag. auto.
      * destruct s; simpl in H.
        -- destruct (Sequence_loop tick p (S ptr) (S ptr) (Some true) rest w2)
             as [[[r q] l] w3] eqn:Hl.
           inv H.
           destruct (IH _ _ _ _ _ _ _ _ Hl (Forall_inv_tail Hc) Tr (le_n _)) as (T1 & L & M).
           { apply idle_but_all. exact Hi. }
           simpl. rewrite T, T1. split; [reflexivity|]. split; [lia|].
           replace (ptr1 - ptr) with (S (ptr1 - S ptr)) by lia.
           destruct o as [[[] s]|e]; simpl; rewrite (F true eq_refl), M; reflexivity.
        -- inv H. simpl. rewrite T, Tr, (F false eq_refl), Hi. auto.
      * inv H. simpl. rewrite T, Tr, Nat.sub_diag. auto.
Qed.

Lemma Select_loop_tidy (p : path) (cs : list Node) :
  forall i ptr succ (w : World) o ptr1 cs1 w1,
  Select_loop tick p i ptr succ cs w = (o, ptr1, cs1, w1) ->
  children_tidy cs -> forallb (@tidy St Val) cs = true ->
  i <= ptr -> idle_but (ptr - i) cs = true ->
  forallb (@tidy St Val) cs1 = true /\ i <= ptr1 /\
  match o with
  | Ret (false, _) => forallb (@idle St Val) cs1 = true
  | _ => idle_but (ptr1 - i) cs1 = true
  end.
Proof.
  induction cs as [|c rest IH]; intros i ptr succ w o ptr1 cs1 w1 H Hc Hcs Hle Hi;
    simpl in H.
  - destruct succ; inv H; (split; [reflexivity|]); (split; [assumption|]);
      [reflexivity | destruct (ptr1 - i); reflexivity].
  - simpl in Hcs. apply andb_prop in Hcs. destruct Hcs as [Tc Tr].
    destruct (Nat.ltb_spec i ptr) as [Hlt|Hge].
    + destruct (Select_loop tick p (S i) ptr succ rest w) as [[[r q] l] w2] eqn:Hl.
      inv H. replace (ptr - i) with (S (ptr - S i)) in Hi by lia. simpl in Hi.
      apply andb_prop in Hi. destruct Hi as [Ic Ir].
      destruct (IH _ _ _ _ _ _ _ _ Hl (Forall_inv_tail Hc) Tr Hlt Ir) as (T & L & M).
      simpl. rewrite Tc, T. split; [reflexivity|]. split; [lia|].
      replace (ptr1 - i) with (S (ptr1 - S i)) by lia.
      destruct o as [[[] s]|e]; simpl; rewrite Ic, M; reflexivity.
    + assert (i = ptr) by lia. subst i. rewrite Nat.sub_diag in Hi. simpl in Hi.
      destruct (tick (p ++ [ptr]) c w) as [[r c1] w2] eqn:Ht.
      destruct (Forall_inv Hc Tc (p ++ [ptr]) w) as [T F]. rewrite Ht in T, F.
      simpl in T, F.
      destruct r as [[[] s]|e].
      * inv H. simpl. rewrite T, Tr, Nat.sub_diag. auto.
      * destruct s; simpl in H.
        -- inv H. simpl. rewrite T, Tr, (F true eq_refl), Hi. auto.
        -- destruct (Select_loop tick p (S ptr) (S ptr) (Some false) rest w2)
             as [[[r q] l] w3] eqn:Hl.
           inv H.
           destruct (IH _ _ _ _ _ _ _ _ Hl (Forall_inv_tail Hc) Tr (le_n _)) as (T1 & L & M).
           { apply idle_but_all. exact Hi. }
           simpl. rewrite T, T1. split; [reflexivity|]. split; [lia|].
           replace (ptr1 - ptr) with (S (ptr1 - S ptr)) by lia.
           destruct o as [[[] s]|e]; simpl; rewrite (F false eq_refl), M; reflexivity.
      * inv H. simpl. rewrite T, Tr, Nat.sub_diag. auto.
Qed.

Lemma Behaviour_tick_tidy (p : path) (kw : Kwargs St Val) b (cs : list Node)
    (w : World) o b1 cs1 w1 :
  Behaviour_tick truthy tick p kw b cs w = (o, b1, cs1, w1) ->
  children_tidy cs -> forallb (@tidy St Val) cs = true ->
  sequential (class_of b) = true -> left_idle b cs = true ->
  forallb (@tidy St Val) cs1 = true /\ left_by o b1 cs1 = true.
Proof.
  intros H Hc Hcs Hk Hi. destruct b; simpl in H; try discriminate Hk;
    unfold left_idle in Hi; simpl in Hi.
  - unfold Do_tick in H. destruct (call_what p kw w) as [[v|e] w2]; inv H; auto.
  - unfold Run_tick in H. destruct wait0.
    + destruct (call_what p kw w) as [[v|e] w2]; inv H; auto.
    + inv H. auto.
  - unfold Repeat_tick in H. destruct (tick_first tick p cs w) as [[r l] w2] eqn:Hf.
    destruct (@tick_first_tidy p cs w r l w2 Hf Hc Hcs Hi) as (T & L & F).
    destruct r as [[[] []]|e]; simpl in H; inv H; (split; [exact T|]);
      try exact L. exact (F false eq_refl).
  - unfold Chance_tick in H. destruct success; simpl in H.
    + destruct (tick_first tick p cs w) as [[r l] w2] eqn:Hf.
      destruct (@tick_first_tidy p cs w r l w2 Hf Hc Hcs Hi) as (T & L & F).
      inv H. split; [exact T|]. destruct o as [[[] s]|e]; simpl; try exact L.
      exact (F s eq_refl).
    + inv H. auto.
  - unfold NotB_tick in H. destruct (tick_first tick p cs w) as [[r l] w2] eqn:Hf.
    destruct (@tick_first_tidy p cs w r l w2 Hf Hc Hcs Hi) as (T & L & F).
    destruct r as [[[] s]|e]; inv H; (split; [exact T|]); try exact L.
    exact (F s eq_refl).
  - unfold Wait_tick in H. destruct (count <=? 0)%Z; inv H; auto.
  - unfold EvalB_tick in H. destruct (call_what p kw w) as [[v|e] w2]; inv H; auto.
  - unfold Sequence_tick in H.
    destruct (Sequence_loop tick p 0 pointer None cs w) as [[[r q] l] w2] eqn:Hl.
    inv H. rewrite <- (Nat.sub_0_r pointer) in Hi.
    destruct (@Sequence_loop_tidy p cs 0 pointer None w _ _ _ _ Hl Hc Hcs (Nat.le_0_l _) Hi)
      as (T & _ & M).
    split; [exact T|]. rewrite Nat.sub_0_r in M.
    destruct o as [[[] s]|e]; exact M.
  - unfold Select_tick in H.
    destruct (Select_loop tick p 0 pointer None cs w) as [[[r q] l] w2] eqn:Hl.
    inv H. rewrite <- (Nat.sub_0_r pointer) in Hi.
    destruct (@Select_loop_tidy p cs 0 pointer None w _ _ _ _ Hl Hc Hcs (Nat.le_0_l _) Hi)
      as (T & _ & M).
    split; [exact T|]. rewrite Nat.sub_0_r in M.
    destruct o as [[[] s]|e]; exact M.
Qed.

End TidyChildren.

(** A tick keeps a tidy tree tidy, and leaves it idle when it finishes. *)
Lemma Node_tick_tidy (n : Node) : tidy n = true -> forall p (w : World),
  tidy (snd (fst (Node_tick p n w))) = true /\
  forall s, fst (fst (Node_tick p n w)) = Ret (false, s) ->
            idle (snd (fst (Node_tick p n w))) = true.
Proof.
  induction n as [nm k cs kw st IH] using Node_ind. intros Ht p w.
  simpl in Ht. apply andb_prop in Ht. destruct Ht as [Ht Hst].
  apply andb_prop in Ht. destruct Ht as [Hk Hcs].
  rewrite Node_tick_unfold. unfold Node_tick_body.
  destruct (instance random p (mkNode nm k cs kw st) (emit (EvTick p) w))
    as [[b|e] w0] eqn:Hi.
  2:{ simpl. unfold instance in Hi. simpl in Hi. destruct st; [discriminate|].
      rewrite Hk, Hcs, Hst. split; [reflexivity | discriminate]. }
  assert (Hb0 : sequential (class_of b) = true /\ left_idle b cs = true).
  { unfold instance, Node_enter in Hi. simpl in Hi. destruct st as [b0|].
    - inv Hi. now apply andb_prop in Hst.
    - apply instantiate_class in Hi. rewrite Hi. split; [exact Hk|].
      unfold left_idle. destruct (current b); [now apply idle_but_all | exact Hst]. }
  destruct Hb0 as [Kb Lb].
  destruct (Behaviour_tick truthy Node_tick p kw b cs w0) as [[[r b1] cs1] w2] eqn:Hb.
  pose proof (Behaviour_tick_class _ _ _ _ _ _ Hb) as Hcl.
  destruct (@Behaviour_tick_tidy Node_tick p kw b cs w0 r b1 cs1 w2 Hb IH Hcs Kb Lb)
    as [T L].
  destruct r as [[[] s]|e]; simpl in L |- *.
  - rewrite Hk, T, Hcl, Kb, L. split; [reflexivity | discriminate].
  - rewrite Hk, T, L. split; [reflexivity | intros _ _; reflexivity].
  - rewrite Hk, T, Hcl, Kb, L. split; [reflexivity | discriminate].
Qed.

Lemma run_ticks_finished (inputs : list St) : forall (n : Node) (w : World) (b : bool),
  tidy n = true ->
  last (results (run_ticks n w inputs)) (Ret (true, true)) = Ret (false, b) ->
  idle (node_after (run_ticks n w inputs)) = true.
Proof.
  induction inputs as [|s rest IH]; intros n w b Ht Hl; [discriminate|].
  simpl in *. unfold tick_root in *.
  destruct (@Node_tick_tidy n Ht [] (set_ustate s w)) as [T F].
  destruct (Node_tick [] n (set_ustate s w)) as [[r n1] w1]. simpl in T, F.
  specialize (IH n1 w1 b T).
  pose proof (run_ticks_results_length rest n1 w1) as Hlen.
  unfold results, node_after in *.
  destruct (run_ticks n1 w1 rest) as [[rs n2] w2] eqn:E. simpl in *.
  destruct rs as [|r2 rs].
  - destruct rest; [|discriminate]. simpl in E. inv E. eapply F; eauto.
  - apply IH. exact Hl.
Qed.

(** X17: a tree of Do, Run, Repeat, Chance, NotB, Wait, EvalB, Sequence
    and Select nodes is as new when it finishes.  Started without
    instances, or in any state in which only the current child of a node
    may have one, it is, after a run of ticks the last of which returned
    running = false, the tree the builders made: no node has an instance,
    so that the next tick starts everything anew. *)
Theorem finished_tree_is_as_new (n : Node) (w : World) (inputs : list St) (b : bool)
    (Htidy : tidy n = true)
    (Hlast : last (results (run_ticks n w inputs)) (Ret (true, true)) = Ret (false, b)) :
  node_after (run_ticks n w inputs) = erase n.
Proof.
  rewrite <- (run_ticks_keep inputs n w). symmetry. apply idle_erase.
  exact (@run_ticks_finished inputs n w b Htidy Hlast).
Qed.

(** ** The laws of De Morgan *)

Lemma negations_notb (cs : list Node) : negations cs (map (@notb St Val) cs).
Proof.
  induction cs as [|c cs IH]; [constructor|].
  simpl. exact (neg_cons c None I IH).
Qed.

Lemma agree_trans (w1 w2 w3 : World) : agree w1 w2 -> agree w2 w3 -> agree w1 w3.
Proof. intros [A B] [C D]. split; congruence. Qed.

Lemma agree_sym (w1 w2 : World) : agree w1 w2 -> agree w2 w1.
Proof. intros [A B]. split; congruence. Qed.

(** The tick of a negated child beside the tick of the child. *)
Lemma negation_tick (p q : path) st (c : Node) (w w' : World) :
  well_typed (notb_node "not" (no_kwargs St Val) st c) -> agree w w' ->
  exists st1 w1',
    Node_tick q (notb_node "not" (no_kwargs St Val) st c) w'
      = (negated (fst (fst (Node_tick p c w))),
         notb_node "not" (no_kwargs St Val) st1 (snd (fst (Node_tick p c w))), w1') /\
    well_typed (notb_node "not" (no_kwargs St Val) st1 (snd (fst (Node_tick p c w)))) /\
    agree (snd (Node_tick p c w)) w1'.
Proof.
  intros Hwt Hag.
  destruct (notb_node_tick q "not" (no_kwargs St Val) st c w' Hwt)
    as (w0 & st1 & Hag0 & Hout & Hag1 & Hwt1).
  destruct (Node_tick_agree c p (q ++ [0]) (agree_trans Hag Hag0)) as [E A].
  rewrite <- E in Hout, Hwt1.
  destruct (Node_tick q (notb_node "not" (no_kwargs St Val) st c) w') as [[o n1] w1'].
  simpl in Hout, Hag1. inv Hout. exists st1, w1'. split; [reflexivity|].
  split; [exact Hwt1|]. exact (agree_trans A Hag1).
Qed.

Lemma not_all_loop (pL pR : path) (cs : list Node) :
  forall ns i ptr succ (w w' : World),
    negations cs ns -> agree w w' ->
    exists o ptr1 cs1 ns1 w1 w1',
      Sequence_loop Node_tick pL i ptr succ cs w = (o, ptr1, cs1, w1) /\
      Select_loop Node_tick pR i ptr (option_map negb succ) ns w'
        = (negated o, ptr1, ns1, w1') /\
      negations cs1 ns1 /\ agree w1 w1'.
Proof.
  induction cs as [|c rest IH]; intros ns i ptr succ w w' Hn Hag; inv Hn;
    cbn [Sequence_loop Select_loop].
  - exists (match succ with Some s => Ret (false, s) | None => Raise UnboundLocalError end),
      ptr, [], [], w, w'.
    split; [reflexivity|]. split; [destruct succ; reflexivity|].
    split; [constructor | exact Hag].
  - destruct (i <? ptr).
    + destruct (IH ns0 (S i) ptr succ w w' H3 Hag)
        as (o & ptr1 & cs1 & ns1 & w1 & w1' & E1 & E2 & N & A).
      rewrite E1, E2. eexists _, _, _, _, _, _. split; [reflexivity|].
      split; [reflexivity|]. split; [constructor; assumption | exact A].
    + destruct (@negation_tick (pL ++ [i]) (pR ++ [i]) st c w w' H1 Hag)
        as (st1 & w1' & E & Hwt1 & A).
      rewrite E.
      destruct (Node_tick (pL ++ [i]) c w) as [[r c1] w1]. simpl in *.
      destruct r as [[[] s]|e]; simpl.
      * eexists _, _, _, _, _, _. split; [reflexivity|]. split; [reflexivity|].
        split; [constructor; assumption | exact A].
      * destruct s; simpl.
        -- destruct (IH ns0 (S i) (S ptr) (Some true) w1 w1' H3 A)
             as (o & ptr1 & cs1 & ns1 & w2 & w2' & E1 & E2 & N & A2).
           simpl in E2. rewrite E1, E2. eexists _, _, _, _, _, _.
           split; [reflexivity|]. split; [reflexivity|].
           split; [constructor; assumption | exact A2].
        -- eexists _, _, _, _, _, _. split; [reflexivity|]. split; [reflexivity|].
           split; [constructor; assumption | exact A].
      * eexists _, _, _, _, _, _. split; [reflexivity|]. split; [reflexivity|].
        split; [constructor; assumption | exact A].
Qed.

Lemma not_any_loop (pL pR : path) (cs : list Node) :
  forall ns i ptr succ (w w' : World),
    negations cs ns -> agree w w' ->
    exists o ptr1 cs1 ns1 w1 w1',
      Select_loop Node_tick pL i ptr succ cs w = (o, ptr1, cs1, w1) /\
      Sequence_loop Node_tick pR i ptr (option_map negb succ) ns w'
        = (negated o, ptr1, ns1, w1') /\
      negations cs1 ns1 /\ agree w1 w1'.
Proof.
  induction cs as [|c rest IH]; intros ns i ptr succ w w' Hn Hag; inv Hn;
    cbn [Sequence_loop Select_loop].
  - exists (match succ with Some s => Ret (false, s) | None => Raise UnboundLocalError end),
      ptr, [], [], w, w'.
    split; [reflexivity|]. split; [destruct succ; reflexivity|].
    split; [constructor | exact Hag].
  - destruct (i <? ptr).
    + destruct (IH ns0 (S i) ptr succ w w' H3 Hag)
        as (o & ptr1 & cs1 & ns1 & w1 & w1' & E1 & E2 & N & A).
      rewrite E1, E2. eexists _, _, _, _, _, _. split; [reflexivity|].
      split; [reflexivity|]. split; [constructor; assumption | exact A].
    + destruct (@negation_tick (pL ++ [i]) (pR ++ [i]) st c w w' H1 Hag)
        as (st1 & w1' & E & Hwt1 & A).
      rewrite E.
      destruct (Node_tick (pL ++ [i]) c w) as [[r c1] w1]. simpl in *.
      destruct r as [[[] s]|e]; simpl.
      * eexists _, _, _, _, _, _. split; [reflexivity|]. split; [reflexivity|].
        split; [constructor; assumption | exact A].
      * destruct s; simpl.
        -- eexists _, _, _, _, _, _. split; [reflexivity|]. split; [reflexivity|].
           split; [constructor; assumption | exact A].
        -- destruct (IH ns0 (S i) (S ptr) (Some false) w1 w1' H3 A)
             as (o & ptr1 & cs1 & ns1 & w2 & w2' & E1 & E2 & N & A2).
           simpl in E2. rewrite E1, E2. eexists _, _, _, _, _, _.
           split; [reflexivity|]. split; [reflexivity|].
           split; [constructor; assumption | exact A2].
      * eexists _, _, _, _, _, _. split; [reflexivity|]. split; [reflexivity|].
        split; [constructor; assumption | exact A].
Qed.

Lemma not_all_composite (pL pR : path) (nm : string) (cs ns : list Node)
    (qo : option nat) (w w' : World) :
  negations cs ns -> agree w w' ->
  exists o cs1 ns1 qo1 w1 w1',
    Node_tick pL (mkNode nm Sequence cs (no_kwargs St Val)
                    (option_map (SequenceB Val) qo)) w
      = (o, mkNode nm Sequence cs1 (no_kwargs St Val)
              (option_map (SequenceB Val) qo1), w1) /\
    Node_tick pR (mkNode nm Select ns (no_kwargs St Val)
                    (option_map (SelectB Val) qo)) w'
      = (negated o, mkNode nm Select ns1 (no_kwargs St Val)
                      (option_map (SelectB Val) qo1), w1') /\
    negations cs1 ns1 /\ agree w1 w1'.
Proof.
  intros Hn Hag.
  rewrite (Node_tick_unfold pL (mkNode nm Sequence cs _ _) w),
    (Node_tick_unfold pR (mkNode nm Select ns _ _) w').
  unfold Node_tick_body, instance, Node_enter.
  destruct qo as [q|]; cbn [option_map state klass kwargs instantiate Behaviour_tick];
    unfold Sequence_tick, Select_tick.
  - destruct (@not_all_loop pL pR cs ns 0 q None
                (emit (EvTick pL) w) (emit (EvTick pR) w') Hn)
      as (o & ptr1 & cs1 & ns1 & w1 & w1' & E1 & E2 & N & A);
      [now apply agree_emit|].
    cbn [option_map] in E2. rewrite E1, E2.
    destruct o as [[[] s]|e]; cbn.
    + exists (Ret (true, s)), cs1, ns1, (Some ptr1). eexists _, _.
      split; [reflexivity|]. split; [reflexivity|].
      split; [exact N | now apply agree_emit].
    + exists (Ret (false, s)), cs1, ns1, None. eexists _, _.
      split; [reflexivity|]. split; [reflexivity|].
      split; [exact N | now repeat apply agree_emit].
    + exists (Raise e), cs1, ns1, (Some ptr1). eexists _, _.
      split; [reflexivity|]. split; [reflexivity|]. split; [exact N | exact A].
  - destruct (@not_all_loop pL pR cs ns 0 0 None
                (emit (EvEnter pL) (emit (EvTick pL) w))
                (emit (EvEnter pR) (emit (EvTick pR) w')) Hn)
      as (o & ptr1 & cs1 & ns1 & w1 & w1' & E1 & E2 & N & A);
      [now repeat apply agree_emit|].
    cbn [option_map] in E2. rewrite E1, E2.
    destruct o as [[[] s]|e]; cbn.
    + exists (Ret (true, s)), cs1, ns1, (Some ptr1). eexists _, _.
      split; [reflexivity|]. split; [reflexivity|].
      split; [exact N | now apply agree_emit].
    + exists (Ret (false, s)), cs1, ns1, None. eexists _, _.
      split; [reflexivity|]. split; [reflexivity|].
      split; [exact N | now repeat apply agree_emit].
    + exists (Raise e), cs1, ns1, (Some ptr1). eexists _, _.
      split; [reflexivity|]. split; [reflexivity|]. split; [exact N | exact A].
Qed.

Lemma not_all_tick (pL pR : path) (nm : string) (L R : Node) (w w' : World) :
  not_all nm L R -> agree w w' ->
  exists o L1 R1 w1 w1',
    Node_tick pL L w = (o, L1, w1) /\ Node_tick pR R w' = (o, R1, w1') /\
    not_all nm L1 R1 /\ agree w1 w1'.
Proof.
  intros [cs ns stn qo Hn Hwt] Hag.
  destruct (@notb_node_tick pL "not" (no_kwargs St Val) stn _ w Hwt)
    as (w0 & st1 & Hag0 & Hout & Hag1 & Hwt1).
  destruct (@not_all_composite (pL ++ [0]) pR nm cs ns qo w0 w' Hn
              (agree_trans (agree_sym Hag0) Hag))
    as (o & cs1 & ns1 & qo1 & w1 & w1' & E1 & E2 & N & A).
  rewrite E1 in Hout, Hag1, Hwt1. cbn [fst snd] in Hout, Hag1, Hwt1. rewrite E2.
  destruct (Node_tick pL _ w) as [[oL L1] wL]. cbn [fst snd] in Hout, Hag1.
  inv Hout. eexists _, _, _, _, _. split; [reflexivity|]. split; [reflexivity|].
  split; [constructor; assumption|]. exact (agree_trans (agree_sym Hag1) A).
Qed.

Lemma not_all_run (nm : string) (inputs : list St) : forall (L R : Node) (w w' : World),
  not_all nm L R -> agree w w' ->
  results (run_ticks L w inputs) = results (run_ticks R w' inputs) /\
  agree (world_after (run_ticks L w inputs)) (world_after (run_ticks R w' inputs)).
Proof.
  induction inputs as [|s inputs IH]; intros L R w w' Hr Hag.
  - split; [reflexivity | exact Hag].
  - cbn [run_ticks]. unfold tick_root.
    destruct (@not_all_tick [] [] nm L R (set_ustate s w) (set_ustate s w') Hr)
      as (o & L1 & R1 & w1 & w1' & E1 & E2 & Hr1 & A).
    { destruct Hag as [_ Hd]. split; [reflexivity | exact Hd]. }
    rewrite E1, E2. destruct (IH L1 R1 w1 w1' Hr1 A) as [Hres Hw].
    unfold results, world_after in *.
    destruct (run_ticks L1 w1 inputs) as [[rs n2] w2].
    destruct (run_ticks R1 w1' inputs) as [[rs' n2'] w2'].
    cbn [fst snd] in *. split; [now rewrite Hres | exact Hw].
Qed.

Lemma not_any_composite (pL pR : path) (nm : string) (cs ns : list Node)
    (qo : option nat) (w w' : World) :
  negations cs ns -> agree w w' ->
  exists o cs1 ns1 qo1 w1 w1',
    Node_tick pL (mkNode nm Select cs (no_kwargs St Val)
                    (option_map (SelectB Val) qo)) w
      = (o, mkNode nm Select cs1 (no_kwargs St Val)
              (option_map (SelectB Val) qo1), w1) /\
    Node_tick pR (mkNode nm Sequence ns (no_kwargs St Val)
                    (option_map (SequenceB Val) qo)) w'
      = (negated o, mkNode nm Sequence ns1 (no_kwargs St Val)
                      (option_map (SequenceB Val) qo1), w1') /\
    negations cs1 ns1 /\ agree w1 w1'.
Proof.
  intros Hn Hag.
  rewrite (Node_tick_unfold pL (mkNode nm Select cs _ _) w),
    (Node_tick_unfold pR (mkNode nm Sequence ns _ _) w').
  unfold Node_tick_body, instance, Node_enter.
  destruct qo as [q|]; cbn [option_map state klass kwargs instantiate Behaviour_tick];
    unfold Select_tick, Sequence_tick.
  - destruct (@not_any_loop pL pR cs ns 0 q None
                (emit (EvTick pL) w) (emit (EvTick pR) w') Hn)
      as (o & ptr1 & cs1 & ns1 & w1 & w1' & E1 & E2 & N & A);
      [now apply agree_emit|].
    cbn [option_map] in E2. rewrite E1, E2.
    destruct o as [[[] s]|e]; cbn.
    + exists (Ret (true, s)), cs1, ns1, (Some ptr1). eexists _, _.
      split; [reflexivity|]. split; [reflexivity|].
      split; [exact N | now apply agree_emit].
    + exists (Ret (false, s)), cs1, ns1, None. eexists _, _.
      split; [reflexivity|]. split; [reflexivity|].
      split; [exact N | now repeat apply agree_emit].
    + exists (Raise e), cs1, ns1, (Some ptr1). eexists _, _.
      split; [reflexivity|]. split; [reflexivity|]. split; [exact N | exact A].
  - destruct (@not_any_loop pL pR cs ns 0 0 None
                (emit (EvEnter pL) (emit (EvTick pL) w))
                (emit (EvEnter pR) (emit (EvTick pR) w')) Hn)
      as (o & ptr1 & cs1 & ns1 & w1 & w1' & E1 & E2 & N & A);
      [now repeat apply agree_emit|].
    cbn [option_map] in E2. rewrite E1, E2.
    destruct o as [[[] s]|e]; cbn.
    + exists (Ret (true, s)), cs1, ns1, (Some ptr1). eexists _, _.
      split; [reflexivity|]. split; [reflexivity|].
      split; [exact N | now apply agree_emit].
    + exists (Ret (false, s)), cs1, ns1, None. eexists _, _.
      split; [reflexivity|]. split; [reflexivity|].
      split; [exact N | now repeat apply agree_emit].
    + exists (Raise e), cs1, ns1, (Some ptr1). eexists _, _.
      split; [reflexivity|]. split; [reflexivity|]. split; [exact N | exact A].
Qed.

Lemma not_any_tick (pL pR : path) (nm : string) (L R : Node) (w w' : World) :
  not_any nm L R -> agree w w' ->
  exists o L1 R1 w1 w1',
    Node_tick pL L w = (o, L1, w1) /\ Node_tick pR R w' = (o, R1, w1') /\
    not_any nm L1 R1 /\ agree w1 w1'.
Proof.
  intros [cs ns stn qo Hn Hwt] Hag.
  destruct (@notb_node_tick pL "not" (no_kwargs St Val) stn _ w Hwt)
    as (w0 & st1 & Hag0 & Hout & Hag1 & Hwt1).
  destruct (@not_any_composite (pL ++ [0]) pR nm cs ns qo w0 w' Hn
              (agree_trans (agree_sym Hag0) Hag))
    as (o & cs1 & ns1 & qo1 & w1 & w1' & E1 & E2 & N & A).
  rewrite E1 in Hout, Hag1, Hwt1. cbn [fst snd] in Hout, Hag1, Hwt1. rewrite E2.
  destruct (Node_tick pL _ w) as [[oL L1] wL]. cbn [fst snd] in Hout, Hag1.
  inv Hout. eexists _, _, _, _, _. split; [reflexivity|]. split; [reflexivity|].
  split; [constructor; assumption|]. exact (agree_trans (agree_sym Hag1) A).
Qed.

Lemma not_any_run (nm : string) (inputs : list St) : forall (L R : Node) (w w' : World),
  not_any nm L R -> agree w w' ->
  results (run_ticks L w inputs) = results (run_ticks R w' inputs) /\
  agree (world_after (run_ticks L w inputs)) (world_after (run_ticks R w' inputs)).
Proof.
  induction inputs as [|s inputs IH]; intros L R w w' Hr Hag.
  - split; [reflexivity | exact Hag].
  - cbn [run_ticks]. unfold tick_root.
    destruct (@not_any_tick [] [] nm L R (set_ustate s w) (set_ustate s w') Hr)
      as (o & L1 & R1 & w1 & w1' & E1 & E2 & Hr1 & A).
    { destruct Hag as [_ Hd]. split; [reflexivity | exact Hd]. }
    rewrite E1, E2. destruct (IH L1 R1 w1 w1' Hr1 A) as [Hres Hw].
    unfold results, world_after in *.
    destruct (run_ticks L1 w1 inputs) as [[rs n2] w2].
    destruct (run_ticks R1 w1' inputs) as [[rs' n2'] w2'].
    cbn [fst snd] in *. split; [now rewrite Hres | exact Hw].
Qed.

(** X18: the laws of De Morgan hold for the composites.  Ticked from
    idle with the same states, [notb (sequence nm cs)] and
    [select nm (map notb cs)] return the same, tick after tick, raise the
    same exceptions, and leave the same state of the caller and the same
    position in the random stream; so do [notb (select nm cs)] and
    [sequence nm (map notb cs)]. *)
Theorem de_morgan (nm : string) (cs : list Node) (w : World) (inputs : list St) :
  (results (run_ticks (notb (sequence nm cs)) w inputs)
     = results (run_ticks (select nm (map (@notb St Val) cs)) w inputs) /\
   agree (world_after (run_ticks (notb (sequence nm cs)) w inputs))
         (world_after (run_ticks (select nm (map (@notb St Val) cs)) w inputs))) /\
  (results (run_ticks (notb (select nm cs)) w inputs)
     = results (run_ticks (sequence nm (map (@notb St Val) cs)) w inputs) /\
   agree (world_after (run_ticks (notb (select nm cs)) w inputs))
         (world_after (run_ticks (sequence nm (map (@notb St Val) cs)) w inputs))).
Proof.
  split.
  - apply (@not_all_run nm inputs); [|apply agree_refl].
    exact (@not_all_at St Val nm cs _ None None (negations_notb cs) I).
  - apply (@not_any_run nm inputs); [|apply agree_refl].
    exact (@not_any_at St Val nm cs _ None None (negations_notb cs) I).
Qed.

End Facts.

(** * Concrete instances *)
Module Witness.
Import Scenarios.

Lemma callable_exception_witness :
  boom (ustate (start on)) = (Raise UserError, on) /\
  fst (fst (Node_tick truth rnd [] (do "d" boom) (start on))) = Ret (false, false) /\
  fst (fst (Node_tick truth rnd [] (evalb "d" boom) (start on))) = Ret (false, false) /\
  fst (fst (Node_tick truth rnd [] (run "d" boom) (start on))) = Raise UserError.
Proof.
  split; [reflexivity|].
  apply (callable_exception_catch_or_propagate truth rnd [] "d" boom (start on)
           (e:=UserError) (s1:=on)).
  reflexivity.
Defined.

Lemma wait_witness :
  List.length [on; on; on] = 3 /\
  results (ticks (wait State bool 2) [on; on; on])
  = [Ret (true, true); Ret (true, true); Ret (false, true)].
Proof.
  split; [reflexivity|].
  exact (wait_runs_n_ticks_then_succeeds truth rnd (n:=2) (start on) [on; on; on] eq_refl).
Defined.

Lemma running_witness :
  fst (fst (tick_at_root t_run (start on))) = Ret (true, true) /\
  running_implies_success (fst (fst (tick_at_root t_run (start on)))).
Proof.
  split; [reflexivity|].
  exact (proj1 (running_tick_reports_success truth rnd [] t_run (start on))).
Defined.

Lemma whileb_witness :
  klass t_while = WhileB /\
  pick (tick_of []) (new_events (start on) (snd while_tick)) = [0; 1] /\
  map fst (pick (return_of []) (new_events (start on) (snd while_tick))) = [0; 1] /\
  (existsb child_failed (pick (return_of []) (new_events (start on) (snd while_tick)))
   = false -> (true, true) = (true, true)) /\
  (existsb child_failed (pick (return_of []) (new_events (start on) (snd while_tick)))
   = true -> (true, true) = (false, true)).
Proof.
  split; [reflexivity|].
  exact (whileb_ticks_every_child truth rnd [] t_while (start on)
           (rs:=(true, true)) (n1:=snd (fst while_tick)) (w1:=snd while_tick)
           eq_refl I eq_refl).
Defined.

Lemma sequence_witness :
  klass t_sequence = Sequence /\
  exists k r s,
    pick (tick_of []) (new_events (start on) (snd sequence_tick))
      = seq (pointer_of t_sequence) (S k) /\
    pick (return_of []) (new_events (start on) (snd sequence_tick))
      = passed (pointer_of t_sequence) k ++ [(pointer_of t_sequence + k, (r, s))] /\
    pointer_of t_sequence + k < List.length (children t_sequence) /\
    (r = true -> (true, true) = (true, s) /\
       pointer_of (snd (fst sequence_tick)) = pointer_of t_sequence + k) /\
    (r = false -> s = false -> (true, true) = (false, false)) /\
    (r = false -> s = true ->
     (true, true) = (false, true) /\
     pointer_of t_sequence + S k = List.length (children t_sequence)).
Proof.
  split; [reflexivity|].
  exact (sequence_advances_over_children truth rnd [] t_sequence (start on)
           (rs:=(true, true)) (n1:=snd (fst sequence_tick)) (w1:=snd sequence_tick)
           eq_refl I eq_refl).
Defined.

Lemma conditional_witness :
  last_run_of long_node = Some true /\
  selected_branch [] (new_events long_world (snd long_third)) = Some false /\
  pick (deactivate_of []) (new_events long_world (snd long_third))
    = match last_run_of long_node,
            selected_branch [] (new_events long_world (snd long_third)) with
      | Some b, Some s => if Bool.eqb s b then [] else [branch_index b]
      | _, _ => []
      end /\
  (forall x s, fst (fst long_third) = Ret (true, x) ->
               selected_branch [] (new_events long_world (snd long_third)) = Some s ->
               last_run_of (snd (fst long_third)) = Some s).
Proof.
  split; [reflexivity|]. split; [reflexivity|].
  exact (conditional_deactivates_on_switch truth rnd [] long_node long_world
           (o:=fst (fst long_third)) (n1:=snd (fst long_third)) (w1:=snd long_third)
           (c0:=nth 0 (children long_node) long_node)
           (c1:=nth 1 (children long_node) long_node)
           (c2:=nth 2 (children long_node) long_node)
           eq_refl eq_refl eq_refl eq_refl).
Defined.

Lemma chance_witness :
  success_allowed rnd (3 # 4) t_chance (start on) = true /\
  pick (draw_at []) (new_events (start on) (snd chance_tick))
    = (if active t_chance then [] else [tt]) /\
  (success_allowed rnd (3 # 4) t_chance (start on) = false ->
   fst (fst chance_tick) = Ret (false, false) /\
   pick (tick_of []) (new_events (start on) (snd chance_tick)) = [] /\
   children (snd (fst chance_tick)) = children t_chance) /\
  (success_allowed rnd (3 # 4) t_chance (start on) = true ->
   pick (tick_of []) (new_events (start on) (snd chance_tick)) = [0] /\
   pick (return_of []) (new_events (start on) (snd chance_tick))
     = match fst (fst chance_tick) with Ret rs => [(0, rs)] | Raise _ => [] end) /\
  (forall x, fst (fst chance_tick) = Ret (true, x) ->
             state (snd (fst chance_tick))
             = Some (ChanceB bool (success_allowed rnd (3 # 4) t_chance (start on)))).
Proof.
  split; [reflexivity|].
  exact (chance_draws_once_per_activation truth rnd [] t_chance (start on)
           (o:=fst (fst chance_tick)) (n1:=snd (fst chance_tick)) (w1:=snd chance_tick)
           (t:=3 # 4) (c:=evalb "check" flag)
           eq_refl I eq_refl eq_refl eq_refl).
Defined.

Lemma run_witness :
  (off :: off :: nil <> [] ->
   state (node_after (run_ticks truth rnd (run "call_it" fragile) (start on) [off; off]))
   = Some (RunB true None)) /\
  results (run_ticks truth rnd (run "call_it" fragile) (start on) ([off; off] ++ [on]))
    = map (fun s => run_outcome (fst (fragile s))) [off; off] ++ [Ret (true, true)] /\
  pick (call_at [])
    (new_events (start on)
       (world_after (run_ticks truth rnd (run "call_it" fragile) (start on)
                       ([off; off] ++ [on]))))
    = List.repeat tt 3 /\
  pick (enter_at [])
    (new_events (start on)
       (world_after (run_ticks truth rnd (run "call_it" fragile) (start on)
                       ([off; off] ++ [on]))))
    = [tt].
Proof.
  exact (run_effect_called_again_after_raise truth rnd "call_it" fragile (start on)
           (bad:=[off; off]) on
           (Forall_cons off (fun H => H) (Forall_cons off (fun H => H) (Forall_nil _)))
           I).
Defined.

Lemma activation_witness :
  idle t_conditional_long = true /\
  results long_three = [Ret (true, true); Ret (true, true); Ret (true, true)] /\
  (active (nth 2 (children (node_after long_three)) t_run) = true <->
   life [2] (trace (world_after long_three)) = Some (Returned true)).
Proof.
  split; [reflexivity|]. split; [reflexivity|].
  exact (active_iff_running_and_not_deactivated truth rnd t_conditional_long on 0
           [on; on; off] [2]
           (m:=nth 2 (children (node_after long_three)) t_run)
           eq_refl
           (Forall_cons (Ret (true, true)) I
              (Forall_cons (Ret (true, true)) I
                 (Forall_cons (Ret (true, true)) I (Forall_nil _))))
           eq_refl).
Defined.

Lemma position_witness :
  ustate (start on) = ustate (emit (EvExit [9] true) (start on)) /\
  ndraws (start on) = ndraws (emit (EvExit [9] true) (start on)) /\
  fst (Node_tick truth rnd [] t_sequence (start on))
    = fst (Node_tick truth rnd [4; 1] t_sequence (emit (EvExit [9] true) (start on))).
Proof.
  split; [reflexivity|]. split; [reflexivity|].
  exact (proj1 (tick_independent_of_position truth rnd [] [4; 1] t_sequence
                  (start on) (emit (EvExit [9] true) (start on))
                  eq_refl eq_refl)).
Defined.

Lemma select_witness :
  klass t_select = Select /\
  exists k r s,
    pick (tick_of []) (new_events (start on) (snd select_tick))
      = seq (pointer_of t_select) (S k) /\
    pick (return_of []) (new_events (start on) (snd select_tick))
      = rejected (pointer_of t_select) k ++ [(pointer_of t_select + k, (r, s))] /\
    pointer_of t_select + k < List.length (children t_select) /\
    (r = true -> (true, true) = (true, s) /\
       pointer_of (snd (fst select_tick)) = pointer_of t_select + k) /\
    (r = false -> s = true -> (true, true) = (false, true)) /\
    (r = false -> s = false ->
     (true, true) = (false, false) /\
     pointer_of t_select + S k = List.length (children t_select)).
Proof.
  split; [reflexivity|].
  exact (select_advances_over_children truth rnd [] t_select (start on)
           (rs:=(true, true)) (n1:=snd (fst select_tick)) (w1:=snd select_tick)
           eq_refl I eq_refl).
Defined.

Lemma untilb_witness :
  klass t_until = UntilB /\
  pick (tick_of []) (new_events (start off) (snd until_tick)) = [0; 1] /\
  map fst (pick (return_of []) (new_events (start off) (snd until_tick))) = [0; 1] /\
  (existsb child_succeeded (pick (return_of []) (new_events (start off) (snd until_tick)))
   = true -> (true, true) = (false, true)) /\
  (existsb child_succeeded (pick (return_of []) (new_events (start off) (snd until_tick)))
   = false -> (true, true) = (true, true)).
Proof.
  split; [reflexivity|].
  exact (untilb_ticks_every_child truth rnd [] t_until (start off)
           (rs:=(true, true)) (n1:=snd (fst until_tick)) (w1:=snd until_tick)
           eq_refl I eq_refl).
Defined.

Lemma repeat_witness :
  klass t_repeat = Repeat /\
  exists r s c1,
    pick (tick_of []) (new_events (start on) (snd repeat_tick)) = [0] /\
    pick (return_of []) (new_events (start on) (snd repeat_tick)) = [(0, (r, s))] /\
    hd_error (children (snd (fst repeat_tick))) = Some c1 /\ active c1 = r /\
    (true, true) = (if negb r && negb s then (false, false) else (true, true)) /\
    (true, true) <> (false, true).
Proof.
  split; [reflexivity|].
  exact (repeat_runs_until_child_fails truth rnd [] t_repeat (start on)
           (rs:=(true, true)) (n1:=snd (fst repeat_tick)) (w1:=snd repeat_tick)
           eq_refl I eq_refl).
Defined.

Lemma double_negation_witness :
  well_typed t_not_not /\
  fst (fst (Node_tick truth rnd [] t_not_not (start on)))
    = fst (fst (Node_tick truth rnd [7] t_check (start on))).
Proof.
  split; [exact I|].
  exact (proj1 (double_negation truth rnd [] [7] "not" "not" (no_kwargs State bool)
                  (no_kwargs State bool) None None t_check (start on) I I)).
Defined.


Lemma conditional_free_witness :
  conditional_free t_sequence = true /\
  idle t_sequence = true /\
  results (ticks t_sequence [on; on]) = [Ret (true, true); Ret (false, true)] /\
  active_iff_last_tick_running
    (node_after (run_ticks truth rnd t_sequence (mkWorld on 0 []) [on; on]))
    (trace (world_after (run_ticks truth rnd t_sequence (mkWorld on 0 []) [on; on]))).
Proof.
  split; [reflexivity|]. split; [reflexivity|]. split; [reflexivity|].
  exact (conditional_free_active_iff_running truth rnd t_sequence on 0 [on; on]
           eq_refl eq_refl
           (Forall_cons (Ret (true, true)) I
              (Forall_cons (Ret (false, true)) I (Forall_nil _)))).
Defined.

Lemma conditional_branch_witness :
  klass long_node = Conditional /\
  fst (fst long_third) = Ret (true, true) /\
  ((exists s, pick (tick_of []) (new_events long_world (snd long_third)) = [0] /\
              pick (return_of []) (new_events long_world (snd long_third))
                = [(0, (true, s))] /\
              (true, true) = (true, true)) \/
   (exists s, pick (tick_of []) (new_events long_world (snd long_third))
                = [0; branch_index s] /\
              pick (return_of []) (new_events long_world (snd long_third))
                = [(0, (false, s)); (branch_index s, (true, true))])).
Proof.
  split; [reflexivity|]. split; [reflexivity|].
  exact (conditional_returns_what_its_branch_returns truth rnd [] long_node long_world
           (rs:=(true, true)) (n1:=snd (fst long_third)) (w1:=snd long_third)
           (c0:=nth 0 (children long_node) long_node)
           (c1:=nth 1 (children long_node) long_node)
           (c2:=nth 2 (children long_node) long_node)
           eq_refl eq_refl eq_refl eq_refl).
Defined.


Lemma run_turn_witness :
  Forall (fun s => is_ret (fst (fragile s))) (odd_ticks [on; off; on]) /\
  results (run_ticks truth rnd (run "call_it" fragile) (start on) [on; off; on])
    = [Ret (true, true); Ret (false, true); Ret (true, true)].
Proof.
  assert (H : Forall (fun s => is_ret (fst (fragile s))) (odd_ticks [on; off; on]))
    by (repeat constructor).
  split; [exact H|].
  exact (proj1 (run_calls_effect_every_second_tick truth rnd "call_it" fragile
                  (start on) [on; off; on] H)).
Defined.

Lemma wait_again_witness :
  List.length [on; on; on; on] = 2 * S (Z.to_nat 1) /\
  results (ticks (wait State bool 1) [on; on; on; on])
    = [Ret (true, true); Ret (false, true); Ret (true, true); Ret (false, true)].
Proof.
  split; [reflexivity|].
  exact (proj1 (wait_counts_down_again truth rnd 1 2 (start on) [on; on; on; on]
                  eq_refl)).
Defined.

Lemma chance_through_witness :
  klass t_chance = Chance /\
  success_allowed rnd (3 # 4) t_chance (start on) = true /\
  fst (fst (Node_tick truth rnd [] t_chance (start on)))
    = fst (fst (Node_tick truth rnd [5] t_check (after_draw t_chance (start on)))).
Proof.
  split; [reflexivity|]. split; [reflexivity|].
  exact (proj1 (chance_passes_child_through truth rnd [] [5] t_chance (start on)
                  (t:=3 # 4) (c:=t_check) eq_refl I eq_refl eq_refl eq_refl)).
Defined.

Lemma as_new_witness :
  tidy t_sequence = true /\
  last (results (ticks t_sequence [on; on])) (Ret (true, true)) = Ret (false, true) /\
  node_after (ticks t_sequence [on; on]) = t_sequence.
Proof.
  split; [reflexivity|]. split; [reflexivity|].
  exact (finished_tree_is_as_new truth rnd t_sequence (start on) [on; on] (b:=true)
           eq_refl eq_refl).
Defined.

(** A WhileB node is not as new when it finishes: the child that was
    running keeps its instance, and goes on counting in the next
    activation. *)
Lemma finished_while_keeps_running_child :
  results (ticks t_leaky [on]) = [Ret (false, true)] /\
  active (node_after (ticks t_leaky [on])) = false /\
  option_map (@active State bool) (subnode [1] (node_after (ticks t_leaky [on])))
    = Some true.
Proof. repeat split. Qed.

(** The true branch of test_conditional_long was running when the third
    tick switched to the false branch: it has no instance although its most
    recent tick returned running = true. *)
Lemma deactivated_branch_breaks_invariant :
  results long_three = [Ret (true, true); Ret (true, true); Ret (true, true)] /\
  ~ active_iff_last_tick_running (node_after long_three) (trace (world_after long_three)).
Proof.
  split; [reflexivity|]. intros H.
  specialize (H [1] (nth 1 (children (node_after long_three)) t_run) eq_refl).
  destruct H as [_ H]. specialize (H eq_refl). discriminate H.
Qed.

(** A tick that an exception ends leaves the instance in place without a
    completed tick: without the condition on the ticks the invariant fails
    as well. *)
Lemma raised_tick_leaves_instance :
  results (ticks t_run [off]) = [Raise UserError] /\
  active (node_after (ticks t_run [off])) = true /\
  life [] (trace (world_after (ticks t_run [off]))) = None.
Proof. repeat split. Qed.

(** The branches of test_conditional finish at once, and so does the node:
    the second tick starts a new activation, selects the other branch and
    calls no [Node.exit]. *)
Lemma finished_branch_not_deactivated :
  ~ deactivated_on_branch_change truth rnd t_conditional (start on) on off.
Proof.
  intros H. specialize (H true false eq_refl eq_refl).
  assert (Hne : true <> false) by discriminate.
  specialize (H Hne). discriminate H.
Qed.

End Witness.
